(** * Resilient email service: rate limiter, circuit breaker, retry queue
      and the dispatch orchestrator

    A shallow embedding of [src/utils/RateLimiter.ts],
    [src/utils/CircuitBreaker.ts], [src/utils/Queue.ts] and
    [src/core/EmailService.ts], and of the two mock providers with
    [src/providers/BaseEmailProvider.ts].

    Conventions.
    - JavaScript numbers that count or measure milliseconds are [Z];
      the retry delays, which are multiplied by a random factor, are
      exact rationals [Q] standing for the doubles of the program; the
      delays of the mock providers are rationals rounded after every
      operation by a rounding function left as a parameter.
    - A class becomes a record of its fields and every method a function
      from the old record to the new one.  A thrown exception is the
      [inr] of a sum.
    - Everything the program obtains from outside (the injected clock
      [getCurrentTime], [Date.now], [Math.random], [uuidv4] and the
      providers' [send]) is an oracle indexed by the number of earlier
      calls; the counters live in [World]. *)

From Stdlib Require Import ZArith QArith Qminmax String Ascii List Lia.
From Stdlib Require Import DecimalString Lqa.
From stdpp Require Import base gmap strings list sorting.

Local Open Scope Z_scope.

(** ** core/constants.ts and core/types.ts *)

Inductive ErrorCode :=
| DUPLICATE_MESSAGE | ALL_PROVIDERS_FAILED | PROVIDER_ERROR | SERVICE_DEGRADED
| RATE_LIMIT_EXCEEDED | RATE_LIMIT | CIRCUIT_BREAKER_OPEN | INVALID_CONFIG
| QUEUE_FULL.

Inductive EmailStatusType := PENDING | SENT | FAILED.

Inductive CIRCUIT_STATE := CLOSED | OPEN | HALF_OPEN.

#[global] Instance CIRCUIT_STATE_eq_dec : EqDecision CIRCUIT_STATE.
Proof. solve_decision. Defined.

#[global] Instance ErrorCode_eq_dec : EqDecision ErrorCode.
Proof. solve_decision. Defined.

(** [new Error(message)] and [new EmailError(message, code, originalError)]. *)
#[warnings="-register-all"] Inductive Error :=
| PlainError (message : string)
| EmailError (message : string) (code : ErrorCode) (originalError : option Error).

Definition errorMessage (e : Error) : string :=
  match e with
  | PlainError m => m
  | EmailError m _ _ => m
  end.

Record EmailMessage := {
  id : string;
  to : string;
  from : string;
  subject : string;
  body : string;
  metadata : option (gmap string string)
}.

Record EmailStatus := {
  messageId : string;
  status : EmailStatusType;
  provider : string;
  attempts : Z;
  lastAttempt : Z;
  error : option string
}.

Module DEFAULT_CONFIG.
Definition RETRY_MAX_ATTEMPTS : Z := 3.
Definition RETRY_INITIAL_DELAY : Q := 1000.
Definition RETRY_MAX_DELAY : Q := 10000.
Definition RETRY_BACKOFF_FACTOR : Q := 2.
Definition RATE_LIMITER_MAX_REQUESTS : Z := 10.
Definition RATE_LIMITER_TIME_WINDOW : Z := 1000.
Definition CIRCUIT_BREAKER_FAILURE_THRESHOLD : Z := 5.
Definition CIRCUIT_BREAKER_RESET_TIMEOUT : Z := 30000.
End DEFAULT_CONFIG.

Module VALIDATION.
Definition MAX_SUBJECT_LENGTH : Z := 78.
Definition MAX_BODY_LENGTH : Z := 1000000.
End VALIDATION.

Module METRICS.
Definition SUCCESS_COUNTER : string := "email_send_success_total".
Definition FAILURE_COUNTER : string := "email_send_failure_total".
Definition LATENCY_HISTOGRAM : string := "email_send_latency_seconds".
Definition QUEUE_SIZE_GAUGE : string := "email_queue_size".
End METRICS.

(** ** The outside world *)

(** What the [n]-th call of each external function returns. *)
Record Env := {
  getCurrentTime : nat -> Z;
  dateNow : nat -> Z;
  mathRandom : nat -> Q;
  uuidv4 : nat -> string
}.

(** How often each of them has been called, every [provider.send]
    invocation (provider name, message id) in order, and every delay the
    dispatch loop has slept for. *)
Record World := {
  clockReads : nat;
  dateReads : nat;
  randomDraws : nat;
  uuidCalls : nat;
  sendLog : list (string * string);
  sleeps : list Q;
  nextHandle : nat
}.

Definition World0 : World :=
  {| clockReads := 0; dateReads := 0; randomDraws := 0; uuidCalls := 0;
     sendLog := []; sleeps := []; nextHandle := 0 |}.

Definition readClock (env : Env) (w : World) : Z * World :=
  (getCurrentTime env (clockReads w),
   {| clockReads := S (clockReads w); dateReads := dateReads w;
      randomDraws := randomDraws w; uuidCalls := uuidCalls w;
      sendLog := sendLog w; sleeps := sleeps w; nextHandle := nextHandle w |}).

Definition readDate (env : Env) (w : World) : Z * World :=
  (dateNow env (dateReads w),
   {| clockReads := clockReads w; dateReads := S (dateReads w);
      randomDraws := randomDraws w; uuidCalls := uuidCalls w;
      sendLog := sendLog w; sleeps := sleeps w; nextHandle := nextHandle w |}).

Definition drawRandom (env : Env) (w : World) : Q * World :=
  (mathRandom env (randomDraws w),
   {| clockReads := clockReads w; dateReads := dateReads w;
      randomDraws := S (randomDraws w); uuidCalls := uuidCalls w;
      sendLog := sendLog w; sleeps := sleeps w; nextHandle := nextHandle w |}).

Definition mintId (env : Env) (w : World) : string * World :=
  (uuidv4 env (uuidCalls w),
   {| clockReads := clockReads w; dateReads := dateReads w;
      randomDraws := randomDraws w; uuidCalls := S (uuidCalls w);
      sendLog := sendLog w; sleeps := sleeps w; nextHandle := nextHandle w |}).

Definition logSend (who what : string) (w : World) : World :=
  {| clockReads := clockReads w; dateReads := dateReads w;
     randomDraws := randomDraws w; uuidCalls := uuidCalls w;
     sendLog := sendLog w ++ [(who, what)]; sleeps := sleeps w;
     nextHandle := nextHandle w |}.

(** [await new Promise(resolve => setTimeout(resolve, delay))] *)
Definition sleep (delay : Q) (w : World) : World :=
  {| clockReads := clockReads w; dateReads := dateReads w;
     randomDraws := randomDraws w; uuidCalls := uuidCalls w;
     sendLog := sendLog w; sleeps := sleeps w ++ [delay];
     nextHandle := nextHandle w |}.

(** A promise's [resolve]/[reject] pair is a handle number. *)
Definition newHandle (w : World) : nat * World :=
  (nextHandle w,
   {| clockReads := clockReads w; dateReads := dateReads w;
      randomDraws := randomDraws w; uuidCalls := uuidCalls w;
      sendLog := sendLog w; sleeps := sleeps w;
      nextHandle := S (nextHandle w) |}).

(** An asynchronous operation returning [T]: it changes the world and
    either returns or throws. *)
Definition Async (T : Type) : Type := World -> (T + Error) * World.

(** JavaScript truthiness of a number: [0] is falsy. *)
Definition truthyZ (n : Z) : bool := negb (n =? 0).

(** ** utils/CircuitBreaker.ts *)

Module CircuitBreaker.

Record t := {
  state : CIRCUIT_STATE;
  failureCount : Z;
  lastFailureTime : option Z;
  failureThreshold : Z;
  resetTimeout : Z
}.

Definition new (failureThreshold resetTimeout : Z) : t :=
  {| state := CLOSED; failureCount := 0; lastFailureTime := None;
     failureThreshold := failureThreshold; resetTimeout := resetTimeout |}.

Definition setState (st : CIRCUIT_STATE) (cb : t) : t :=
  {| state := st; failureCount := failureCount cb;
     lastFailureTime := lastFailureTime cb;
     failureThreshold := failureThreshold cb;
     resetTimeout := resetTimeout cb |}.

(** [this.lastFailureTime && now - this.lastFailureTime >= this.resetTimeout] *)
Definition timedOut (cb : t) (now : Z) : bool :=
  match lastFailureTime cb with
  | Some l => truthyZ l && bool_decide (resetTimeout cb <= now - l)
  | None => false
  end.

(** The guard at the head of [execute], entered only when the state
    is [OPEN]: [None] is [throw new Error('CIRCUIT')]. *)
Definition enter (cb : t) (now : Z) : option t :=
  match state cb with
  | OPEN => if timedOut cb now then Some (setState HALF_OPEN cb) else None
  | _ => Some cb
  end.

(** The [try] branch after [fn] has returned. *)
Definition onSuccess (cb : t) : t :=
  match state cb with
  | HALF_OPEN =>
      {| state := CLOSED; failureCount := 0; lastFailureTime := None;
         failureThreshold := failureThreshold cb;
         resetTimeout := resetTimeout cb |}
  | _ => cb
  end.

(** The [catch] branch; [now] is the clock read there. *)
Definition onFailure (cb : t) (now : Z) : t :=
  let count := failureCount cb + 1 in
  {| state := if bool_decide (failureThreshold cb <= count) then OPEN
              else state cb;
     failureCount := count;
     lastFailureTime := Some now;
     failureThreshold := failureThreshold cb;
     resetTimeout := resetTimeout cb |}.

Definition attempt {T} (env : Env) (fn : Async T) (cb : t) (w : World)
  : (T + Error) * t * World :=
  let '(r, w1) := fn w in
  match r with
  | inl result => (inl result, onSuccess cb, w1)
  | inr e =>
      let '(now, w2) := readClock env w1 in
      (inr e, onFailure cb now, w2)
  end.

Definition execute {T} (env : Env) (fn : Async T) (cb : t) (w : World)
  : (T + Error) * t * World :=
  match state cb with
  | OPEN =>
      let '(now, w1) := readClock env w in
      match enter cb now with
      | Some cb1 => attempt env fn cb1 w1
      | None => (inr (PlainError "CIRCUIT"), cb, w1)
      end
  | _ => attempt env fn cb w
  end.

Definition getState (cb : t) : CIRCUIT_STATE := state cb.

Definition reset (cb : t) : t :=
  {| state := CLOSED; failureCount := 0; lastFailureTime := None;
     failureThreshold := failureThreshold cb;
     resetTimeout := resetTimeout cb |}.

(** Calls made one after the other through the same breaker. *)
Fixpoint executeAll {T} (env : Env) (fns : list (Async T)) (cb : t) (w : World)
  : t * World :=
  match fns with
  | [] => (cb, w)
  | fn :: rest =>
      let '(_, cb1, w1) := execute env fn cb w in
      executeAll env rest cb1 w1
  end.

(** An operation that throws, whatever the world; one that returns. *)
Definition failing {T} (fn : Async T) : Prop :=
  forall w, exists e, (fn w).1 = inr e.

Definition succeeding {T} (fn : Async T) : Prop :=
  forall w, exists v, (fn w).1 = inl v.

(** Every state a breaker can be in, also between the two halves of a
    call still in flight: the guard, the two handlers and [reset] may
    interleave in any order. *)
Inductive reachable (failureThreshold resetTimeout : Z) : t -> Prop :=
| reach_new : reachable failureThreshold resetTimeout
                (new failureThreshold resetTimeout)
| reach_enter cb now cb' :
    reachable failureThreshold resetTimeout cb ->
    enter cb now = Some cb' ->
    reachable failureThreshold resetTimeout cb'
| reach_success cb :
    reachable failureThreshold resetTimeout cb ->
    reachable failureThreshold resetTimeout (onSuccess cb)
| reach_failure cb now :
    reachable failureThreshold resetTimeout cb ->
    reachable failureThreshold resetTimeout (onFailure cb now)
| reach_reset cb :
    reachable failureThreshold resetTimeout cb ->
    reachable failureThreshold resetTimeout (reset cb).

End CircuitBreaker.

(** ** utils/RateLimiter.ts *)

Module RateLimiter.

Record t := {
  requestTimestamps : list Z;
  maxRequests : Z;
  timeWindow : Z
}.

Definition new (maxRequests timeWindow : Z) : t :=
  {| requestTimestamps := []; maxRequests := maxRequests;
     timeWindow := timeWindow |}.

Definition setTimestamps (ts : list Z) (rl : t) : t :=
  {| requestTimestamps := ts; maxRequests := maxRequests rl;
     timeWindow := timeWindow rl |}.

(** The timestamps of [rl] that lie in the window that trails [now]:
    [timestamp > now - this.timeWindow]. *)
Definition inWindow (rl : t) (now : Z) : list Z :=
  filter (fun timestamp => now - timeWindow rl < timestamp)
         (requestTimestamps rl).

Definition cleanupOldRequests (now : Z) (rl : t) : t :=
  setTimestamps (inWindow rl now) rl.

(** [now] is the value [this.getCurrentTime()] returned.  On an empty
    array [this.requestTimestamps[0]] is [undefined], [waitTime] is
    [NaN] and [waitTime > 0] is false. *)
Definition acquire (now : Z) (rl : t) : (unit + Error) * t :=
  let rl1 := cleanupOldRequests now rl in
  let push := setTimestamps (requestTimestamps rl1 ++ [now]) rl1 in
  if bool_decide (maxRequests rl1 <= Z.of_nat (length (requestTimestamps rl1)))
  then
    match requestTimestamps rl1 with
    | oldestRequest :: _ =>
        let waitTime := oldestRequest + timeWindow rl1 - now in
        if bool_decide (0 < waitTime)
        then (inr (PlainError "RATE_LIMIT"), rl1)
        else (inl tt, push)
    | [] => (inl tt, push)
    end
  else (inl tt, push).

Definition getCurrentRequestCount (rl : t) : Z :=
  Z.of_nat (length (requestTimestamps rl)).

(** [today] is the value of [Date.now()].  With no stamp stored the
    second branch is reached only when [maxRequests <= 0]; the source
    then computes with [undefined] and returns [NaN], which the
    properties about this function rule out by [maxRequests >= 1]. *)
Definition getTimeUntilNextAvailable (today : Z) (rl : t) : Z :=
  if bool_decide (Z.of_nat (length (requestTimestamps rl)) < maxRequests rl)
  then 0
  else
    match requestTimestamps rl with
    | oldestRequest :: _ => Z.max 0 (oldestRequest + timeWindow rl - today)
    | [] => 0
    end.

(** The limiter after [acquire] has been called at each of the times
    [nows] in turn. *)
Definition acquireAll (nows : list Z) (rl : t) : t :=
  foldl (fun rl now => (acquire now rl).2) rl nows.

Inductive reachable (maxRequests timeWindow : Z) : t -> Prop :=
| reach_new : reachable maxRequests timeWindow (new maxRequests timeWindow)
| reach_acquire rl now :
    reachable maxRequests timeWindow rl ->
    reachable maxRequests timeWindow (acquire now rl).2.

(** The times among [nows] at which [acquire], called at each of them in
    turn, let the request through. *)
Fixpoint admittedTimes (nows : list Z) (rl : t) : list Z :=
  match nows with
  | [] => []
  | now :: rest =>
      match acquire now rl with
      | (inl _, rl1) => now :: admittedTimes rest rl1
      | (inr _, rl1) => admittedTimes rest rl1
      end
  end.

End RateLimiter.

(** ** utils/Queue.ts *)

Module Queue.

(** [resolve] and [reject] are the promise [handle]; [process] is not
    stored: the only processor ever enqueued is
    [(msg) => this.processEmail(msg)]. *)
Record QueueItem := {
  message : EmailMessage;
  attempts : Z;
  handle : nat
}.

Record t := {
  queue : list QueueItem;
  processing : bool;
  maxAttempts : Z
}.

Definition new (maxAttempts : Z) : t :=
  {| queue := []; processing := false; maxAttempts := maxAttempts |}.

Definition setQueue (q : list QueueItem) (this : t) : t :=
  {| queue := q; processing := processing this;
     maxAttempts := maxAttempts this |}.

Definition setProcessing (b : bool) (this : t) : t :=
  {| queue := queue this; processing := b; maxAttempts := maxAttempts this |}.

(** What a promise is settled with. *)
Definition Settlement : Type := nat * (EmailStatus + Error).

(** The synchronous part of [enqueue]: the push.  Whether [process] is
    started is the caller's [if (!this.processing)]. *)
Definition push (item : QueueItem) (this : t) : t :=
  setQueue (queue this ++ [item]) this.

(** [this.queue.shift()] as a statement. *)
Definition shift (q : list QueueItem) : list QueueItem :=
  match q with
  | [] => []
  | _ :: rest => rest
  end.

(** [this.queue.push(this.queue.shift()!)]; on an empty array this
    pushes [undefined], which the [shift] that follows removes again. *)
Definition requeue (q : list QueueItem) : list QueueItem :=
  match q with
  | [] => []
  | first :: rest => rest ++ [first]
  end.

(** [item.attempts++] on the object the queue holds. *)
Definition bump (item : QueueItem) (q : list QueueItem) : list QueueItem :=
  map (fun it =>
         if bool_decide (handle it = handle item)
         then {| message := message it; attempts := attempts it + 1;
                 handle := handle it |}
         else it) q.

(** [process] up to its [await]: [None] when the queue is empty. *)
Definition processBegin (this : t) : t * option QueueItem :=
  match queue this with
  | [] => (setProcessing false this, None)
  | item :: _ => (setProcessing true this, Some item)
  end.

(** [process] after [await item.process(item.message)] has settled with
    [outcome], down to [this.queue.shift()]. *)
Definition processEnd (item : QueueItem) (outcome : EmailStatus + Error)
    (this : t) : t * option Settlement :=
  match outcome with
  | inl status =>
      (setQueue (shift (queue this)) this, Some (handle item, inl status))
  | inr error =>
      if bool_decide (attempts item < maxAttempts this)
      then (setQueue (shift (requeue (bump item (queue this)))) this, None)
      else (setQueue (shift (queue this)) this, Some (handle item, inr error))
  end.

Definition getQueueLength (this : t) : Z := Z.of_nat (length (queue this)).

Definition clear (this : t) : t :=
  {| queue := []; processing := false; maxAttempts := maxAttempts this |}.

End Queue.

(** ** Regular expressions, for [VALIDATION.EMAIL_REGEX] *)

Module Regex.

Inductive t :=
| Empty
| Eps
| Class (p : ascii -> bool)
| Seq (r1 r2 : t)
| Alt (r1 r2 : t)
| Star (r : t).

Fixpoint nullable (r : t) : bool :=
  match r with
  | Empty => false
  | Eps => true
  | Class _ => false
  | Seq r1 r2 => nullable r1 && nullable r2
  | Alt r1 r2 => nullable r1 || nullable r2
  | Star _ => true
  end.

Fixpoint deriv (c : ascii) (r : t) : t :=
  match r with
  | Empty => Empty
  | Eps => Empty
  | Class p => if p c then Eps else Empty
  | Seq r1 r2 =>
      if nullable r1
      then Alt (Seq (deriv c r1) r2) (deriv c r2)
      else Seq (deriv c r1) r2
  | Alt r1 r2 => Alt (deriv c r1) (deriv c r2)
  | Star r1 => Seq (deriv c r1) (Star r1)
  end.

(** [/^r$/.test(s)] *)
Fixpoint test (r : t) (s : string) : bool :=
  match s with
  | EmptyString => nullable r
  | String c rest => test (deriv c r) rest
  end.

Definition Plus (r : t) : t := Seq r (Star r).
Definition AtLeast2 (r : t) : t := Seq r (Seq r (Star r)).

Definition range (lo hi c : ascii) : bool :=
  (nat_of_ascii lo <=? nat_of_ascii c)%nat && (nat_of_ascii c <=? nat_of_ascii hi)%nat.

Definition oneOf (cs : string) (c : ascii) : bool :=
  existsb (Ascii.eqb c) (list_ascii_of_string cs).

Definition alpha (c : ascii) : bool := range "a" "z" c || range "A" "Z" c.
Definition alnum (c : ascii) : bool := alpha c || range "0" "9" c.

(** The strings a regular expression denotes. *)
Inductive matches : t -> string -> Prop :=
| matches_eps : matches Eps ""
| matches_class p c : p c = true -> matches (Class p) (String c "")
| matches_seq r1 r2 s1 s2 :
    matches r1 s1 -> matches r2 s2 -> matches (Seq r1 r2) (s1 +:+ s2)
| matches_alt_l r1 r2 s : matches r1 s -> matches (Alt r1 r2) s
| matches_alt_r r1 r2 s : matches r2 s -> matches (Alt r1 r2) s
| matches_star_nil r : matches (Star r) ""
| matches_star_app r s1 s2 :
    matches r s1 -> matches (Star r) s2 -> matches (Star r) (s1 +:+ s2).

(** Every character of [s] satisfies [p]. *)
Fixpoint allChars (p : ascii -> bool) (s : string) : bool :=
  match s with
  | EmptyString => true
  | String c rest => p c && allChars p rest
  end.

End Regex.

(** [/^[a-zA-Z0-9._%+-]+@[a-zA-Z0-9.-]+\.[a-zA-Z]{2,}$/] *)
Definition EMAIL_REGEX : Regex.t :=
  Regex.Seq (Regex.Plus (Regex.Class (fun c => Regex.alnum c || Regex.oneOf "._%+-" c)))
 (Regex.Seq (Regex.Class (Ascii.eqb "@"))
 (Regex.Seq (Regex.Plus (Regex.Class (fun c => Regex.alnum c || Regex.oneOf ".-" c)))
 (Regex.Seq (Regex.Class (Ascii.eqb "."))
            (Regex.AtLeast2 (Regex.Class Regex.alpha))))).

(** [String(n)] for an integer. *)
Definition string_of_Z (n : Z) : string := NilZero.string_of_int (Z.to_int n).

(** ** core/EmailService.ts *)

Module EmailService.

(** A backend: [send] is told how many [send] calls the service has made
    before this one, so that it may answer differently each time. *)
Record EmailProvider := {
  name : string;
  send : nat -> EmailMessage -> EmailStatus + Error
}.

Record RetryConfig := {
  maxAttempts : Z;
  initialDelay : Q;
  maxDelay : Q;
  backoffFactor : Q
}.

(** [Partial<...>]: a key that is absent is [None]. *)
Record PartialRetryConfig := {
  maxAttempts_opt : option Z;
  initialDelay_opt : option Q;
  maxDelay_opt : option Q;
  backoffFactor_opt : option Q
}.

Record PartialRateLimiterConfig := {
  maxRequests_opt : option Z;
  timeWindow_opt : option Z
}.

Record PartialCircuitBreakerConfig := {
  failureThreshold_opt : option Z;
  resetTimeout_opt : option Z
}.

Record EmailServiceConfig := {
  config_providers : list EmailProvider;
  config_retryConfig : option PartialRetryConfig;
  config_rateLimiterConfig : option PartialRateLimiterConfig;
  config_circuitBreakerConfig : option PartialCircuitBreakerConfig
}.

Record t := {
  rateLimiter : RateLimiter.t;
  circuitBreakers : gmap string CircuitBreaker.t;
  queue : Queue.t;
  providers : list EmailProvider;
  retryConfig : RetryConfig;
  sentMessageIds : gset string;
  metrics : gmap string Z
}.

Definition setRateLimiter (rl : RateLimiter.t) (this : t) : t :=
  {| rateLimiter := rl; circuitBreakers := circuitBreakers this;
     queue := queue this; providers := providers this;
     retryConfig := retryConfig this; sentMessageIds := sentMessageIds this;
     metrics := metrics this |}.

Definition setCircuitBreakers (cbs : gmap string CircuitBreaker.t) (this : t) : t :=
  {| rateLimiter := rateLimiter this; circuitBreakers := cbs;
     queue := queue this; providers := providers this;
     retryConfig := retryConfig this; sentMessageIds := sentMessageIds this;
     metrics := metrics this |}.

Definition setQueue (q : Queue.t) (this : t) : t :=
  {| rateLimiter := rateLimiter this; circuitBreakers := circuitBreakers this;
     queue := q; providers := providers this;
     retryConfig := retryConfig this; sentMessageIds := sentMessageIds this;
     metrics := metrics this |}.

Definition setSentMessageIds (ids : gset string) (this : t) : t :=
  {| rateLimiter := rateLimiter this; circuitBreakers := circuitBreakers this;
     queue := queue this; providers := providers this;
     retryConfig := retryConfig this; sentMessageIds := ids;
     metrics := metrics this |}.

Definition setMetrics (m : gmap string Z) (this : t) : t :=
  {| rateLimiter := rateLimiter this; circuitBreakers := circuitBreakers this;
     queue := queue this; providers := providers this;
     retryConfig := retryConfig this; sentMessageIds := sentMessageIds this;
     metrics := m |}.

(** [None]: nothing is thrown. *)
Definition validateConfig (config : EmailServiceConfig) : option Error :=
  match config_providers config with
  | [] =>
      Some (EmailError "At least one provider must be configured"
                       INVALID_CONFIG None)
  | _ :: _ =>
      match config_retryConfig config ≫= maxAttempts_opt with
      | Some m =>
          if truthyZ m && bool_decide (m < 1)
          then Some (EmailError "Max attempts must be at least 1"
                                INVALID_CONFIG None)
          else None
      | None => None
      end
  end.

Definition initializeMetrics (m : gmap string Z) : gmap string Z :=
  <[METRICS.QUEUE_SIZE_GAUGE := 0]>
    (<[METRICS.FAILURE_COUNTER := 0]>
       (<[METRICS.SUCCESS_COUNTER := 0]> m)).

(** The constructor. *)
Definition new (config : EmailServiceConfig) : Error + t :=
  match validateConfig config with
  | Some e => inl e
  | None =>
      let retry :=
        {| maxAttempts :=
             default DEFAULT_CONFIG.RETRY_MAX_ATTEMPTS
                     (config_retryConfig config ≫= maxAttempts_opt);
           initialDelay :=
             default DEFAULT_CONFIG.RETRY_INITIAL_DELAY
                     (config_retryConfig config ≫= initialDelay_opt);
           maxDelay :=
             default DEFAULT_CONFIG.RETRY_MAX_DELAY
                     (config_retryConfig config ≫= maxDelay_opt);
           backoffFactor :=
             default DEFAULT_CONFIG.RETRY_BACKOFF_FACTOR
                     (config_retryConfig config ≫= backoffFactor_opt) |} in
      let limiter :=
        RateLimiter.new
          (default DEFAULT_CONFIG.RATE_LIMITER_MAX_REQUESTS
                   (config_rateLimiterConfig config ≫= maxRequests_opt))
          (default DEFAULT_CONFIG.RATE_LIMITER_TIME_WINDOW
                   (config_rateLimiterConfig config ≫= timeWindow_opt)) in
      let breaker :=
        CircuitBreaker.new
          (default DEFAULT_CONFIG.CIRCUIT_BREAKER_FAILURE_THRESHOLD
                   (config_circuitBreakerConfig config ≫= failureThreshold_opt))
          (default DEFAULT_CONFIG.CIRCUIT_BREAKER_RESET_TIMEOUT
                   (config_circuitBreakerConfig config ≫= resetTimeout_opt)) in
      inr {| rateLimiter := limiter;
             circuitBreakers :=
               foldl (fun m p => <[name p := breaker]> m) ∅
                     (config_providers config);
             queue := Queue.new (maxAttempts retry);
             providers := config_providers config;
             retryConfig := retry;
             sentMessageIds := ∅;
             metrics := initializeMetrics ∅ |}
  end.

Definition validateEmailInput (to from subject body : string) : option Error :=
  if negb (Regex.test EMAIL_REGEX to) || negb (Regex.test EMAIL_REGEX from)
  then Some (EmailError "Invalid email address format" INVALID_CONFIG None)
  else if bool_decide (VALIDATION.MAX_SUBJECT_LENGTH < Z.of_nat (String.length subject))
  then Some (EmailError
               ("Subject exceeds maximum length of "
                  +:+ string_of_Z VALIDATION.MAX_SUBJECT_LENGTH +:+ " characters")
               INVALID_CONFIG None)
  else if bool_decide (VALIDATION.MAX_BODY_LENGTH < Z.of_nat (String.length body))
  then Some (EmailError
               ("Body exceeds maximum length of "
                  +:+ string_of_Z VALIDATION.MAX_BODY_LENGTH +:+ " characters")
               INVALID_CONFIG None)
  else None.

(** [random] is the value [Math.random()] returned. *)
Definition calculateBackoffDelay (cfg : RetryConfig) (attempt : Z) (random : Q) : Q :=
  let delay :=
    Qmin (initialDelay cfg * backoffFactor cfg ^ (attempt - 1)) (maxDelay cfg) in
  (delay * (0.75 + random * 0.5))%Q.

(** [() => provider.send(message)] *)
Definition providerSend (p : EmailProvider) (message : EmailMessage)
  : Async EmailStatus :=
  fun w => (send p (length (sendLog w)) message, logSend (name p) (id message) w).

(** What the [for] loop over the providers leaves behind when none of
    them returned. *)
Record Failures := {
  lastError : option Error;
  lastProviderName : option string
}.

(** The body of [for (const provider of this.providers)] for the
    providers [ps] still to be tried in attempt number [attempt];
    [inl] is the [return] inside the loop. *)
Fixpoint forProviders (env : Env) (message : EmailMessage) (attempt : Z)
    (ps : list EmailProvider) (fs : Failures) (this : t) (w : World)
  : (EmailStatus + Failures) * t * World :=
  match ps with
  | [] => (inr fs, this, w)
  | p :: rest =>
      let named := {| lastError := lastError fs;
                      lastProviderName := Some (name p) |} in
      match circuitBreakers this !! name p with
      | None =>
          (* [circuitBreaker] is [undefined]: [getState] throws inside
             the [try] *)
          forProviders env message attempt rest
            {| lastError :=
                 Some (PlainError
                   "Cannot read properties of undefined (reading 'getState')");
               lastProviderName := Some (name p) |} this w
      | Some circuitBreaker =>
          if bool_decide (CircuitBreaker.getState circuitBreaker = OPEN)
          then forProviders env message attempt rest named this w
          else
            let '(r, cb1, w1) :=
              CircuitBreaker.execute env (providerSend p message)
                                     circuitBreaker w in
            let this1 :=
              setCircuitBreakers (<[name p := cb1]> (circuitBreakers this))
                                 this in
            match r with
            | inl st =>
                let this2 :=
                  setSentMessageIds ({[id message]} ∪ sentMessageIds this1)
                                    this1 in
                let '(now, w2) := readClock env w1 in
                (inl {| messageId := messageId st; status := status st;
                        provider := provider st; attempts := attempt;
                        lastAttempt := now; error := error st |},
                 this2, w2)
            | inr e =>
                forProviders env message attempt rest
                  {| lastError := Some e;
                     lastProviderName := Some (name p) |} this1 w1
            end
      end
  end.

(** [while (attempts < this.retryConfig.maxAttempts)], run for at most
    [fuel] rounds; [inr] carries the variables the [throw] after the
    loop reads. *)
Fixpoint whileAttempts (env : Env) (message : EmailMessage) (fuel : nat)
    (attempts : Z) (fs : Failures) (this : t) (w : World)
  : (EmailStatus + Z * Failures) * t * World :=
  match fuel with
  | O => (inr (attempts, fs), this, w)
  | S fuel' =>
      if bool_decide (attempts < maxAttempts (retryConfig this))
      then
        let attempts := attempts + 1 in
        let '(random, w1) := drawRandom env w in
        let delay := calculateBackoffDelay (retryConfig this) attempts random in
        match forProviders env message attempts (providers this) fs this w1 with
        | (inl st, this1, w2) => (inl st, this1, w2)
        | (inr fs1, this1, w2) =>
            let w3 :=
              if bool_decide (attempts < maxAttempts (retryConfig this1))
              then sleep delay w2 else w2 in
            whileAttempts env message fuel' attempts fs1 this1 w3
        end
      else (inr (attempts, fs), this, w)
  end.

Definition allProvidersFailed (attempts : Z) (fs : Failures) : Error :=
  EmailError
    ("All providers failed after " +:+ string_of_Z attempts +:+ " attempts"
       +:+ match lastProviderName fs with
           | Some n =>
               if bool_decide (n = "") then ""
               else " (last provider: " +:+ n +:+ ")"
           | None => ""
           end
       +:+ ": "
       +:+ match lastError fs with
           | Some e => errorMessage e
           | None => "undefined"
           end)
    ALL_PROVIDERS_FAILED (lastError fs).

Definition processEmail (env : Env) (message : EmailMessage) (this : t)
    (w : World) : (EmailStatus + Error) * t * World :=
  let '(now, w1) := readClock env w in
  let '(acquired, rl) := RateLimiter.acquire now (rateLimiter this) in
  let this1 := setRateLimiter rl this in
  match acquired with
  | inr e =>
      if bool_decide (errorMessage e = "RATE_LIMIT")
      then (inr (EmailError "Rate limit exceeded" RATE_LIMIT None), this1, w1)
      else (inr e, this1, w1)
  | inl _ =>
      match whileAttempts env message
              (Z.to_nat (maxAttempts (retryConfig this1))) 0
              {| lastError := None; lastProviderName := None |} this1 w1 with
      | (inl st, this2, w2) => (inl st, this2, w2)
      | (inr (attempts, fs), this2, w2) =>
          (inr (allProvidersFailed attempts fs), this2, w2)
      end
  end.

(** [Queue.process] with [processEmail] as every item's processor,
    rescheduled by [setImmediate] until it finds the queue empty; every
    round shortens the queue, so [fuel] above its length is enough.
    The promises settled on the way are returned in order. *)
Fixpoint runQueue (env : Env) (fuel : nat) (this : t) (w : World)
  : list Queue.Settlement * t * World :=
  match fuel with
  | O => ([], this, w)
  | S fuel' =>
      match Queue.processBegin (queue this) with
      | (q, None) => ([], setQueue q this, w)
      | (q, Some item) =>
          let '(outcome, this1, w1) :=
            processEmail env (Queue.message item) (setQueue q this) w in
          let '(q2, settled) := Queue.processEnd item outcome (queue this1) in
          let '(later, this2, w2) :=
            runQueue env fuel' (setQueue q2 this1) w1 in
          (option_list settled ++ later, this2, w2)
      end
  end.

(** [this.queue.enqueue(message, (msg) => this.processEmail(msg))], and
    the event loop run until nothing is left to do.  With [processing]
    set the entry is left for the [process] chain in flight; at rest
    there is none. *)
Definition enqueue (env : Env) (message : EmailMessage) (this : t) (w : World)
  : nat * list Queue.Settlement * t * World :=
  let '(h, w1) := newHandle w in
  let q1 :=
    Queue.push {| Queue.message := message; Queue.attempts := 0;
                  Queue.handle := h |} (queue this) in
  let this1 := setQueue q1 this in
  if Queue.processing q1 then (h, [], this1, w1)
  else
    let '(settled, this2, w2) :=
      runQueue env (S (length (Queue.queue q1))) this1 w1 in
    (h, settled, this2, w2).

(** How an awaited promise ends: [Pending] when it is never settled. *)
Inductive Outcome :=
| Resolved (st : EmailStatus)
| Rejected (e : Error)
| Pending.

Fixpoint settlementOf (h : nat) (settled : list Queue.Settlement)
  : option (EmailStatus + Error) :=
  match settled with
  | [] => None
  | (h', r) :: rest => if bool_decide (h' = h) then Some r else settlementOf h rest
  end.

Definition bumpMetric (key : string) (by_ : Z) (this : t) : t :=
  setMetrics (<[key := default 0 (metrics this !! key) + by_]> (metrics this)) this.

Definition recordSuccess (env : Env) (startTime : Z) (this : t) (w : World)
  : t * World :=
  let '(today, w1) := readDate env w in
  (bumpMetric METRICS.LATENCY_HISTOGRAM (today - startTime)
     (bumpMetric METRICS.SUCCESS_COUNTER 1 this), w1).

Definition recordFailure (this : t) : t :=
  bumpMetric METRICS.FAILURE_COUNTER 1 this.

Definition duplicateMessage : Error :=
  EmailError "Duplicate message ID detected" DUPLICATE_MESSAGE None.

Definition sendEmail (env : Env) (to from subject body : string)
    (metadata : option (gmap string string)) (this : t) (w : World)
  : Outcome * t * World :=
  match validateEmailInput to from subject body with
  | Some e => (Rejected e, this, w)
  | None =>
      let '(uuid, w1) := mintId env w in
      let message :=
        {| id := uuid; to := to; from := from; subject := subject;
           body := body; metadata := metadata |} in
      if bool_decide (id message ∈ sentMessageIds this)
      then (Rejected duplicateMessage, this, w1)
      else
        let '(startTime, w2) := readDate env w1 in
        let '(h, settled, this1, w3) := enqueue env message this w2 in
        match settlementOf h settled with
        | Some (inl st) =>
            let '(this2, w4) := recordSuccess env startTime this1 w3 in
            (Resolved st, this2, w4)
        | Some (inr e) => (Rejected e, recordFailure this1, w3)
        | None => (Pending, this1, w3)
        end
  end.

Definition getProviderStatus (this : t) : gmap string CIRCUIT_STATE :=
  CircuitBreaker.getState <$> circuitBreakers this.

Definition getQueueLength (this : t) : Z * t :=
  let len := Queue.getQueueLength (queue this) in
  (len, setMetrics (<[METRICS.QUEUE_SIZE_GAUGE := len]> (metrics this)) this).

Definition resetCircuitBreakers (this : t) : t :=
  setCircuitBreakers (CircuitBreaker.reset <$> circuitBreakers this) this.

Definition clearQueue (this : t) : t :=
  setMetrics (<[METRICS.QUEUE_SIZE_GAUGE := 0]> (metrics this))
             (setQueue (Queue.clear (queue this)) this).

Definition clearSentMessageIds (this : t) : t := setSentMessageIds ∅ this.

(** [Date.now()] is read only when the limiter is at its limit. *)
Record RateLimitInfo := {
  current : Z;
  max : Z
}.

Definition getCurrentRateLimit (env : Env) (this : t) (w : World)
  : RateLimitInfo * World :=
  let count := RateLimiter.getCurrentRequestCount (rateLimiter this) in
  if bool_decide (count < RateLimiter.maxRequests (rateLimiter this))
  then ({| current := count; max := 0 |}, w)
  else
    let '(today, w1) := readDate env w in
    ({| current := count;
        max := RateLimiter.getTimeUntilNextAvailable today (rateLimiter this) |},
     w1).

(** [new Map(this.metrics)] *)
Definition getMetrics (this : t) : gmap string Z := metrics this.

End EmailService.

(** [error.code], absent on a plain [Error]. *)
Definition errorCode (e : Error) : option ErrorCode :=
  match e with
  | PlainError _ => None
  | EmailError _ c _ => Some c
  end.

(** ** providers/BaseEmailProvider.ts *)

Module BaseEmailProvider.

(** [today] is the value of [new Date()]. *)
Definition createSuccessStatus (name : string) (message : EmailMessage)
    (today : Z) : EmailStatus :=
  {| messageId := id message; status := SENT; provider := name;
     attempts := 1; lastAttempt := today; error := None |}.

Definition createErrorStatus (name : string) (message : EmailMessage)
    (e : Error) (attempts : Z) (today : Z) : EmailStatus :=
  {| messageId := id message; status := FAILED; provider := name;
     attempts := attempts; lastAttempt := today;
     error := Some (errorMessage e) |}.

(** The error [throwProviderError] throws. *)
Definition throwProviderError (message : string) (code : ErrorCode)
    (originalError : option Error) : Error :=
  EmailError message code originalError.

Definition isAvailable (healthCheck : Async unit) (w : World) : bool * World :=
  let '(r, w1) := healthCheck w in
  (match r with
   | inl _ => true
   | inr _ => false
   end, w1).

End BaseEmailProvider.

(** ** The arithmetic of the mock providers

    The delays of the mock providers are sums and products of numbers
    that are not integers, which the runtime computes in binary64: the
    result of every [+] and [*] is rounded to the nearest representable
    number.  The rounding is the parameter [fl] of the functions below;
    the properties proved of them assume of it only that it is monotone
    and that it leaves the constants of the source, which are
    representable, as they are.  The literals [0.1], [0.05] and [0.2]
    stand here for the decimal fractions; the runtime compares with the
    binary64 numbers nearest to them, which gives the same answer for
    every binary64 number compared, none lying in between. *)

Module Rounding.

Definition monotone (fl : Q -> Q) : Prop :=
  forall x y, (x <= y)%Q -> (fl x <= fl y)%Q.

Definition representable (fl : Q -> Q) (x : Q) : Prop := (fl x == x)%Q.

End Rounding.

(** ** providers/MockProvider1.ts *)

Module MockProvider1.

Record t := {
  failureRate : Q;
  latency : Q
}.

(** [new MockProvider1(failureRate = 0.2, latency = 100)] *)
Definition new (failureRate latency : option Q) : t :=
  {| failureRate := default 0.2%Q failureRate;
     latency := default 100%Q latency |}.

Definition name : string := "MockProvider1".

(** [setTimeout(resolve, this.latency + Math.random() * 50)] *)
Definition simulateLatency (fl : Q -> Q) (env : Env) (this : t) (w : World)
  : World :=
  let '(random, w1) := drawRandom env w in
  sleep (fl (latency this + fl (random * 50)))%Q w1.

Definition send (fl : Q -> Q) (env : Env) (this : t) (message : EmailMessage)
  : Async EmailStatus :=
  fun w =>
    let w1 := simulateLatency fl env this w in
    let '(random, w2) := drawRandom env w1 in
    if Qlt_le_dec random (failureRate this)
    then (inr (BaseEmailProvider.throwProviderError
                 "Mock provider 1 failed to send email" PROVIDER_ERROR
                 (Some (PlainError "Simulated failure"))), w2)
    else
      let '(today, w3) := readDate env w2 in
      (inl (BaseEmailProvider.createSuccessStatus name message today), w3).

Definition healthCheck (fl : Q -> Q) (env : Env) (this : t) : Async unit :=
  fun w =>
    let w1 := simulateLatency fl env this w in
    let '(random, w2) := drawRandom env w1 in
    if Qlt_le_dec random 0.1
    then (inr (PlainError "Health check failed"), w2)
    else (inl tt, w2).

Definition isAvailable (fl : Q -> Q) (env : Env) (this : t) (w : World)
  : bool * World :=
  BaseEmailProvider.isAvailable (healthCheck fl env this) w.

End MockProvider1.

(** ** providers/MockProvider2.ts *)

Module MockProvider2.

Record t := {
  failureRate : Q;
  latency : Q;
  consecutiveFailures : Z;
  maxConsecutiveFailures : Z
}.

(** [new MockProvider2(failureRate = 0.1, latency = 200)] *)
Definition new (failureRate latency : option Q) : t :=
  {| failureRate := default 0.1%Q failureRate;
     latency := default 200%Q latency;
     consecutiveFailures := 0;
     maxConsecutiveFailures := 3 |}.

Definition name : string := "MockProvider2".

Definition setConsecutiveFailures (n : Z) (this : t) : t :=
  {| failureRate := failureRate this; latency := latency this;
     consecutiveFailures := n;
     maxConsecutiveFailures := maxConsecutiveFailures this |}.

(** [setTimeout(resolve, baseLatency + randomLatency + spikeLatency)] *)
Definition simulateLatency (fl : Q -> Q) (env : Env) (this : t) (w : World)
  : World :=
  let baseLatency := latency this in
  let '(random1, w1) := drawRandom env w in
  let randomLatency := fl (random1 * 20)%Q in
  let '(random2, w2) := drawRandom env w1 in
  let spikeLatency := if Qlt_le_dec random2 0.1 then 500%Q else 0%Q in
  sleep (fl (fl (baseLatency + randomLatency) + spikeLatency))%Q w2.

Definition send (fl : Q -> Q) (env : Env) (message : EmailMessage) (this : t)
    (w : World) : (EmailStatus + Error) * t * World :=
  let w1 := simulateLatency fl env this w in
  if bool_decide (maxConsecutiveFailures this <= consecutiveFailures this)
  then
    let '(today, w2) := readDate env w1 in
    (inl (BaseEmailProvider.createSuccessStatus name message today),
     setConsecutiveFailures 0 this, w2)
  else
    let '(random, w2) := drawRandom env w1 in
    if Qlt_le_dec random (failureRate this)
    then
      let failed := setConsecutiveFailures (consecutiveFailures this + 1) this in
      (inr (BaseEmailProvider.throwProviderError
              "Mock provider 2 failed to send email" PROVIDER_ERROR
              (Some (PlainError
                       ("Simulated failure (consecutive: "
                          +:+ string_of_Z (consecutiveFailures failed)
                          +:+ ")")))),
       failed, w2)
    else
      let '(today, w3) := readDate env w2 in
      (inl (BaseEmailProvider.createSuccessStatus name message today),
       setConsecutiveFailures 0 this, w3).

Definition healthCheck (fl : Q -> Q) (env : Env) (this : t) : Async unit :=
  fun w =>
    let w1 := simulateLatency fl env this w in
    let '(random, w2) := drawRandom env w1 in
    if Qlt_le_dec random 0.05
    then (inr (PlainError "Health check failed"), w2)
    else (inl tt, w2).

Definition isAvailable (fl : Q -> Q) (env : Env) (this : t) (w : World)
  : bool * World :=
  BaseEmailProvider.isAvailable (healthCheck fl env this) w.

(** [send] called for each of [messages] in turn. *)
Fixpoint sendAll (fl : Q -> Q) (env : Env) (messages : list EmailMessage)
    (this : t) (w : World) : list (EmailStatus + Error) * t * World :=
  match messages with
  | [] => ([], this, w)
  | message :: rest =>
      let '(r, this1, w1) := send fl env message this w in
      let '(rs, this2, w2) := sendAll fl env rest this1 w1 in
      (r :: rs, this2, w2)
  end.

End MockProvider2.

(** ** Concrete configurations used by the examples below *)

Module Examples.

(** A clock stuck at [now]. *)
Definition envAt (now : Z) : Env :=
  {| getCurrentTime := fun _ => now;
     dateNow := fun _ => now;
     mathRandom := fun _ => 0.5%Q;
     uuidv4 := fun _ => "test-123" |}.

(** A clock whose first reading is [0] and every later one [5000]. *)
Definition envFromZero : Env :=
  {| getCurrentTime := fun n => match n with O => 0 | S _ => 5000 end;
     dateNow := fun _ => 0;
     mathRandom := fun _ => 0.5%Q;
     uuidv4 := fun _ => "test-123" |}.

Definition providerFailed : Error :=
  EmailError "Provider failed" PROVIDER_ERROR None.

Definition sentStatus (who : string) (message : EmailMessage) : EmailStatus :=
  {| messageId := id message; status := SENT; provider := who;
     attempts := 1; lastAttempt := 1000; error := None |}.

(** A backend that always fails and one that always delivers. *)
Definition failingProvider (who : string) : EmailService.EmailProvider :=
  {| EmailService.name := who;
     EmailService.send := fun _ _ => inr providerFailed |}.

Definition healthyProvider (who : string) : EmailService.EmailProvider :=
  {| EmailService.name := who;
     EmailService.send := fun _ message => inl (sentStatus who message) |}.

Definition testMessage : EmailMessage :=
  {| id := "test-123"; to := "test@example.com"; from := "sender@example.com";
     subject := "Test Subject"; body := "Test Body"; metadata := None |}.

Definition failingOp : Async EmailStatus :=
  EmailService.providerSend (failingProvider "MockProvider1") testMessage.

Definition healthyOp : Async EmailStatus :=
  EmailService.providerSend (healthyProvider "MockProvider1") testMessage.

(** Two entries of a queue: [itemA] at the head, [itemB] behind it. *)
Definition itemA : Queue.QueueItem :=
  {| Queue.message := testMessage; Queue.attempts := 0; Queue.handle := 0 |}.

Definition otherMessage : EmailMessage :=
  {| id := "test-456"; to := "other@example.com"; from := "sender@example.com";
     subject := "Another Subject"; body := "Another Body"; metadata := None |}.

Definition itemB : Queue.QueueItem :=
  {| Queue.message := otherMessage; Queue.attempts := 0; Queue.handle := 1 |}.

Definition itemA_retried : Queue.QueueItem :=
  {| Queue.message := testMessage; Queue.attempts := 1; Queue.handle := 0 |}.

Definition busyQueue (items : list Queue.QueueItem) : Queue.t :=
  {| Queue.queue := items; Queue.processing := true; Queue.maxAttempts := 3 |}.

(** The configurations of [tests/EmailService.test.ts]. *)
Definition retryOnce : EmailService.PartialRetryConfig :=
  {| EmailService.maxAttempts_opt := Some 1;
     EmailService.initialDelay_opt := None;
     EmailService.maxDelay_opt := None;
     EmailService.backoffFactor_opt := None |}.

Definition noRetry : EmailService.PartialRetryConfig :=
  {| EmailService.maxAttempts_opt := Some 0;
     EmailService.initialDelay_opt := None;
     EmailService.maxDelay_opt := None;
     EmailService.backoffFactor_opt := None |}.

Definition thresholdTwo : EmailService.PartialCircuitBreakerConfig :=
  {| EmailService.failureThreshold_opt := Some 2;
     EmailService.resetTimeout_opt := Some 1000 |}.

Definition configOf (ps : list EmailService.EmailProvider)
    (retry : option EmailService.PartialRetryConfig)
    (breaker : option EmailService.PartialCircuitBreakerConfig)
  : EmailService.EmailServiceConfig :=
  {| EmailService.config_providers := ps;
     EmailService.config_retryConfig := retry;
     EmailService.config_rateLimiterConfig := None;
     EmailService.config_circuitBreakerConfig := breaker |}.

(** [emailService.sendEmail(testMessage.to, testMessage.from,
    testMessage.subject, testMessage.body)] *)
Definition submit (env : Env) (this : EmailService.t) (w : World)
  : EmailService.Outcome * EmailService.t * World :=
  EmailService.sendEmail env (to testMessage) (from testMessage)
    (subject testMessage) (body testMessage) None this w.

Definition breakerState (this : EmailService.t) (who : string)
  : option CIRCUIT_STATE :=
  CircuitBreaker.getState <$> (EmailService.circuitBreakers this !! who).

Definition metric (this : EmailService.t) (key : string) : option Z :=
  EmailService.metrics this !! key.

(** What three submissions in a row, each awaited, show from outside. *)
Record Observed := {
  outcomes : list EmailService.Outcome;
  breakerAfter : list (option CIRCUIT_STATE);
  sendsAfter : list nat;
  thirdDispatch : EmailStatus + Error;
  failuresCounted : option Z
}.

Definition threeSubmissions (env : Env) (this : EmailService.t) : Observed :=
  let '(o1, s1, w1) := submit env this World0 in
  let '(o2, s2, w2) := submit env s1 w1 in
  let '(o3, s3, w3) := submit env s2 w2 in
  {| outcomes := [o1; o2; o3];
     breakerAfter := [breakerState s1 "MockProvider1";
                      breakerState s2 "MockProvider1";
                      breakerState s3 "MockProvider1"];
     sendsAfter := [length (sendLog w1); length (sendLog w2);
                    length (sendLog w3)];
     thirdDispatch := (EmailService.processEmail env testMessage s2 w2).1.1;
     failuresCounted := metric s3 METRICS.FAILURE_COUNTER |}.

(** [Math.random()] always returning [r]. *)
Definition envRandom (r : Q) : Env :=
  {| getCurrentTime := fun _ => 1000;
     dateNow := fun _ => 1000;
     mathRandom := fun _ => r;
     uuidv4 := fun _ => "test-123" |}.

(** Arithmetic in which every number is representable: nothing is
    rounded. *)
Definition exact : Q -> Q := fun x => x.

End Examples.

(** * Properties *)

(** ** Circuit breaker *)

Section CircuitBreakerFacts.

Import CircuitBreaker.

Context {T : Type}.
Implicit Types (fn : Async T) (cb : CircuitBreaker.t) (w : World).

Lemma attempt_failing env fn cb w :
  failing fn ->
  exists e w1,
    fn w = (inr e, w1) /\
    attempt env fn cb w
    = (inr e, onFailure cb (readClock env w1).1, (readClock env w1).2).
Proof.
  intros Hf. destruct (Hf w) as [e He].
  unfold attempt. destruct (fn w) as [r w1] eqn:Hfn. simpl in He. subst r.
  exists e, w1. split; [reflexivity|]. reflexivity.
Qed.

Lemma attempt_succeeding env fn cb w :
  succeeding fn ->
  exists v w1,
    fn w = (inl v, w1) /\ attempt env fn cb w = (inl v, onSuccess cb, w1).
Proof.
  intros Hs. destruct (Hs w) as [v Hv].
  unfold attempt. destruct (fn w) as [r w1] eqn:Hfn. simpl in Hv. subst r.
  exists v, w1. split; reflexivity.
Qed.

Lemma execute_not_open env fn cb w :
  state cb <> OPEN -> execute env fn cb w = attempt env fn cb w.
Proof. unfold execute. destruct (state cb); congruence. Qed.

(** Before [resetTimeout] has elapsed an open breaker throws [CIRCUIT]
    and [fn] is not run: the world only records the clock read. *)
Lemma execute_open_early env fn cb w l :
  state cb = OPEN ->
  lastFailureTime cb = Some l ->
  getCurrentTime env (clockReads w) - l < resetTimeout cb ->
  execute env fn cb w = (inr (PlainError "CIRCUIT"), cb, (readClock env w).2).
Proof.
  intros Hst Hl Hlt. unfold execute, enter, timedOut. rewrite Hst, Hl. simpl.
  rewrite bool_decide_eq_false_2 by lia.
  rewrite andb_false_r. reflexivity.
Qed.

(** At or after [resetTimeout] the call goes through as a half-open
    trial, provided the recorded time of the last failure is not [0]. *)
Lemma execute_open_due env fn cb w l :
  state cb = OPEN ->
  lastFailureTime cb = Some l ->
  l <> 0 ->
  resetTimeout cb <= getCurrentTime env (clockReads w) - l ->
  execute env fn cb w
  = attempt env fn (setState HALF_OPEN cb) (readClock env w).2.
Proof.
  intros Hst Hl Hnz Hle. unfold execute, enter, timedOut. rewrite Hst, Hl. simpl.
  rewrite bool_decide_eq_true_2 by lia.
  unfold truthyZ. destruct (Z.eqb_spec l 0); [contradiction|]. reflexivity.
Qed.

Lemma trial_success cb :
  state cb = HALF_OPEN ->
  state (onSuccess cb) = CLOSED /\ failureCount (onSuccess cb) = 0
  /\ lastFailureTime (onSuccess cb) = None.
Proof. intros H. unfold onSuccess. rewrite H. auto. Qed.

Lemma trial_failure cb now :
  failureThreshold cb <= failureCount cb + 1 ->
  state (onFailure cb now) = OPEN /\ lastFailureTime (onFailure cb now) = Some now.
Proof.
  intros H. unfold onFailure. simpl.
  rewrite bool_decide_eq_true_2 by lia. auto.
Qed.

Lemma executeAll_cons env fn (fns : list (Async T)) cb w :
  executeAll env (fn :: fns) cb w
  = executeAll env fns (execute env fn cb w).1.2 (execute env fn cb w).2.
Proof. simpl. destruct (execute env fn cb w) as [[r cb1] w1]. reflexivity. Qed.

Lemma execute_closed_failing env fn cb w :
  state cb = CLOSED -> failing fn ->
  exists now, (execute env fn cb w).1.2 = onFailure cb now.
Proof.
  intros Hst Hf. rewrite execute_not_open by congruence.
  destruct (attempt_failing env fn cb w Hf) as (e & w1 & _ & ->).
  eexists. reflexivity.
Qed.

End CircuitBreakerFacts.

Lemma reachable_config thr rt cb :
  CircuitBreaker.reachable thr rt cb ->
  CircuitBreaker.failureThreshold cb = thr /\ CircuitBreaker.resetTimeout cb = rt.
Proof.
  induction 1 as [|cb now cb' _ IH He|cb _ IH|cb now _ IH|cb _ IH];
    simpl; auto.
  - unfold CircuitBreaker.enter in He.
    destruct (CircuitBreaker.state cb);
      try (injection He as <-; exact IH).
    destruct (CircuitBreaker.timedOut cb now); [|discriminate].
    injection He as <-. exact IH.
  - unfold CircuitBreaker.onSuccess.
    destruct (CircuitBreaker.state cb); auto.
Qed.

(** The invariant behind the half-open trial. *)
Lemma reachable_tripped thr rt cb :
  CircuitBreaker.reachable thr rt cb ->
  CircuitBreaker.state cb <> CLOSED ->
  thr <= CircuitBreaker.failureCount cb
  /\ is_Some (CircuitBreaker.lastFailureTime cb).
Proof.
  induction 1 as [|cb now cb' Hr IH He|cb Hr IH|cb now Hr IH|cb Hr IH];
    simpl; try congruence.
  - unfold CircuitBreaker.enter in He.
    destruct (CircuitBreaker.state cb) eqn:Hst.
    + injection He as <-. rewrite Hst. congruence.
    + destruct (CircuitBreaker.timedOut cb now); [|discriminate].
      injection He as <-. simpl. intros _. apply IH. congruence.
    + injection He as <-. intros _. apply IH. congruence.
  - unfold CircuitBreaker.onSuccess.
    destruct (CircuitBreaker.state cb) eqn:Hst; simpl; try congruence.
    rewrite Hst. intros _. apply IH. congruence.
  - destruct (reachable_config _ _ _ Hr) as [Hthr _].
    case_bool_decide as Hc.
    + intros _. split; [lia | eauto].
    + intros Hst. split; [|eauto]. destruct (IH Hst) as [Hle _]. lia.
Qed.

(** C10. In every state a breaker can reach from its initial closed
    state through the guard and the handlers of [execute] and through
    [reset], a state other than closed (open, or half-open while a trial
    call is in flight) has [failureCount >= failureThreshold] and a
    recorded [lastFailureTime]; hence the failure of a half-open trial
    always puts the breaker back to open, and so does a failing
    [execute] on any tripped breaker. *)
Theorem tripped_breaker_invariant thr rt cb :
  CircuitBreaker.reachable thr rt cb ->
  (CircuitBreaker.state cb = OPEN \/ CircuitBreaker.state cb = HALF_OPEN ->
   CircuitBreaker.failureThreshold cb <= CircuitBreaker.failureCount cb
   /\ is_Some (CircuitBreaker.lastFailureTime cb))
  /\ (CircuitBreaker.state cb = HALF_OPEN ->
      forall now, CircuitBreaker.state (CircuitBreaker.onFailure cb now) = OPEN)
  /\ (CircuitBreaker.state cb <> CLOSED ->
      forall env (fn : Async EmailStatus) w,
        CircuitBreaker.failing fn ->
        CircuitBreaker.state (CircuitBreaker.execute env fn cb w).1.2 = OPEN).
Proof.
  intros Hr. destruct (reachable_config _ _ _ Hr) as [Hthr _].
  assert (Htrip : CircuitBreaker.state cb <> CLOSED ->
                  CircuitBreaker.failureThreshold cb <= CircuitBreaker.failureCount cb
                  /\ is_Some (CircuitBreaker.lastFailureTime cb)).
  { intros Hst. rewrite Hthr. exact (reachable_tripped _ _ _ Hr Hst). }
  split; [|split].
  - intros [H|H]; apply Htrip; congruence.
  - intros Hst now.
    apply trial_failure. destruct Htrip as [Hle _]; [congruence|lia].
  - intros Hst env fn w Hf.
    destruct Htrip as [Hle _]; [assumption|].
    destruct (CircuitBreaker.state cb) eqn:Hs; [congruence| |].
    + unfold CircuitBreaker.execute. rewrite Hs.
      destruct (readClock env w) as [now w1].
      destruct (CircuitBreaker.enter cb now) as [cb1|] eqn:He; [|exact Hs].
      destruct (attempt_failing env fn cb1 w1 Hf) as (e & w2 & _ & ->).
      simpl. unfold CircuitBreaker.enter in He. rewrite Hs in He.
      destruct (CircuitBreaker.timedOut cb now); [|discriminate].
      injection He as <-. simpl.
      rewrite bool_decide_eq_true_2 by lia. reflexivity.
    + rewrite execute_not_open by congruence.
      destruct (attempt_failing env fn cb w Hf) as (e & w2 & _ & ->).
      simpl. rewrite bool_decide_eq_true_2 by lia. reflexivity.
Qed.

(** A breaker with threshold 2 after two failures at time 1000 and the
    guard passed at time 2000: half-open, two failures on record. *)
Lemma tripped_breaker_invariant_witness :
  let cb :=
    CircuitBreaker.setState HALF_OPEN
      (CircuitBreaker.onFailure
         (CircuitBreaker.onFailure (CircuitBreaker.new 2 1000) 1000) 1000) in
  CircuitBreaker.reachable 2 1000 cb
  /\ CircuitBreaker.state cb = HALF_OPEN
  /\ CircuitBreaker.failureThreshold cb <= CircuitBreaker.failureCount cb
  /\ forall now, CircuitBreaker.state (CircuitBreaker.onFailure cb now) = OPEN.
Proof.
  intros cb.
  assert (Hr : CircuitBreaker.reachable 2 1000 cb).
  { apply (CircuitBreaker.reach_enter 2 1000
             (CircuitBreaker.onFailure
                (CircuitBreaker.onFailure (CircuitBreaker.new 2 1000) 1000) 1000)
             2000).
    - apply CircuitBreaker.reach_failure, CircuitBreaker.reach_failure,
        CircuitBreaker.reach_new.
    - reflexivity. }
  pose proof (tripped_breaker_invariant 2 1000 cb Hr) as (H1 & H2 & _).
  split; [exact Hr|]. split; [reflexivity|].
  split; [apply H1; right; reflexivity | apply H2; reflexivity].
Defined.

(** C6, as stated, fails.  With threshold 2, a breaker that has seen one
    failure and then one success is closed; a single failing call
    through it, a run of 1 < 2 consecutive failures with no success in
    between, opens it. *)
Lemma one_failure_after_success_opens :
  let '(cb1, w1) :=
    CircuitBreaker.executeAll (Examples.envAt 1000)
      [Examples.failingOp; Examples.healthyOp]
      (CircuitBreaker.new 2 1000) World0 in
  CircuitBreaker.state cb1 = CLOSED
  /\ Forall CircuitBreaker.failing [Examples.failingOp]
  /\ Z.of_nat (length [Examples.failingOp]) < CircuitBreaker.failureThreshold cb1
  /\ CircuitBreaker.state
       (CircuitBreaker.executeAll (Examples.envAt 1000) [Examples.failingOp]
          cb1 w1).1 = OPEN.
Proof.
  simpl. split; [reflexivity|]. split.
  - constructor; [|constructor]. intros w. eexists. reflexivity.
  - split; [lia|reflexivity].
Qed.

(** C6, amended.  Through a closed breaker whose [failureCount] is [c],
    [k] failing calls in a row leave it closed with [failureCount = c + k]
    as long as [c + k < failureThreshold], and the failure that brings
    the count to [failureThreshold] opens it; a success while closed
    changes nothing, the count included.  From a fresh or reset breaker
    ([c = 0]) that is: fewer than [failureThreshold] failures keep it
    closed and the [failureThreshold]-th opens it. *)
Theorem closed_breaker_failures {T} env (fns : list (Async T)) cb w :
  CircuitBreaker.state cb = CLOSED ->
  Forall CircuitBreaker.failing fns ->
  let cb' := (CircuitBreaker.executeAll env fns cb w).1 in
  (CircuitBreaker.failureCount cb + Z.of_nat (length fns)
     < CircuitBreaker.failureThreshold cb ->
   CircuitBreaker.state cb' = CLOSED
   /\ CircuitBreaker.failureCount cb'
      = CircuitBreaker.failureCount cb + Z.of_nat (length fns))
  /\ (fns <> [] ->
      CircuitBreaker.failureCount cb + Z.of_nat (length fns)
        = CircuitBreaker.failureThreshold cb ->
      CircuitBreaker.state cb' = OPEN)
  /\ (forall fn : Async T, CircuitBreaker.succeeding fn ->
        (CircuitBreaker.execute env fn cb w).1.2 = cb).
Proof.
  intros Hst Hf. split; [|split].
  - revert cb w Hst. induction Hf as [|fn fns Hfn _ IH]; intros cb w Hst Hlt.
    + simpl in *. split; [assumption|lia].
    + rewrite executeAll_cons.
      destruct (execute_closed_failing env fn cb w Hst Hfn) as [now ->].
      rewrite length_cons in Hlt.
      destruct (IH (CircuitBreaker.onFailure cb now)
                   (CircuitBreaker.execute env fn cb w).2) as [H1 H2].
      * simpl. rewrite bool_decide_eq_false_2 by lia. assumption.
      * simpl. lia.
      * split; [exact H1|]. rewrite H2, length_cons. simpl. lia.
  - revert cb w Hst. induction Hf as [|fn fns Hfn Hfns IH]; intros cb w Hst Hne Heq.
    + congruence.
    + rewrite executeAll_cons.
      destruct (execute_closed_failing env fn cb w Hst Hfn) as [now ->].
      rewrite length_cons in Heq.
      destruct fns as [|fn2 fns].
      * simpl. rewrite bool_decide_eq_true_2 by (simpl in Heq; lia). reflexivity.
      * apply IH.
        -- simpl. rewrite bool_decide_eq_false_2; [assumption|].
           rewrite length_cons in Heq. lia.
        -- congruence.
        -- simpl. simpl in Heq. lia.
  - intros fn Hs. rewrite execute_not_open by congruence.
    destruct (attempt_succeeding env fn cb w Hs) as (v & w1 & _ & ->).
    simpl. unfold CircuitBreaker.onSuccess. rewrite Hst. reflexivity.
Qed.

(** Two failures through a fresh breaker with threshold 3 keep it
    closed. *)
Lemma closed_breaker_failures_witness :
  CircuitBreaker.state
    (CircuitBreaker.executeAll (Examples.envAt 1000)
       [Examples.failingOp; Examples.failingOp]
       (CircuitBreaker.new 3 1000) World0).1 = CLOSED.
Proof.
  assert (Hf : CircuitBreaker.failing Examples.failingOp).
  { intros w. eexists. reflexivity. }
  refine (proj1 (proj1 (closed_breaker_failures (Examples.envAt 1000)
            [Examples.failingOp; Examples.failingOp]
            (CircuitBreaker.new 3 1000) World0 eq_refl _) _)).
  - constructor; [exact Hf|]. constructor; [exact Hf|]. constructor.
  - simpl. lia.
Defined.

(** C5 at a breaker that opened while the clock read [0]: the guard's
    [this.lastFailureTime && ...] takes the recorded time [0] for
    missing, so every later call is refused with [CIRCUIT], the
    operation is not run, and no half-open trial ever takes place,
    however long after [resetTimeout]. *)
Theorem breaker_opened_at_zero_stays_open :
  let '(_, cb1, w1) :=
    CircuitBreaker.execute Examples.envFromZero Examples.failingOp
                           (CircuitBreaker.new 1 1000) World0 in
  let '(r2, cb2, w2) :=
    CircuitBreaker.execute Examples.envFromZero Examples.healthyOp cb1 w1 in
  CircuitBreaker.state cb1 = OPEN
  /\ CircuitBreaker.lastFailureTime cb1 = Some 0
  /\ CircuitBreaker.resetTimeout cb1 <= getCurrentTime Examples.envFromZero (clockReads w1) - 0
  /\ r2 = inr (PlainError "CIRCUIT")
  /\ cb2 = cb1
  /\ sendLog w2 = sendLog w1
  /\ forall now, CircuitBreaker.enter cb1 now = None.
Proof.
  simpl. repeat split; try reflexivity. vm_compute. discriminate.
Qed.

(** ** Rate limiter *)

Lemma limiter_config N W rl :
  RateLimiter.reachable N W rl ->
  RateLimiter.maxRequests rl = N /\ RateLimiter.timeWindow rl = W.
Proof.
  induction 1 as [|rl now _ IH]; [auto|].
  unfold RateLimiter.acquire.
  repeat (case_bool_decide || case_match); simpl; exact IH.
Qed.

(** With a limit of at least one, [acquire] only looks at how many
    timestamps are left after the purge. *)
Lemma acquire_cases now rl :
  1 <= RateLimiter.maxRequests rl ->
  RateLimiter.acquire now rl
  = if bool_decide (RateLimiter.maxRequests rl
                    <= Z.of_nat (length (RateLimiter.inWindow rl now)))
    then (inr (PlainError "RATE_LIMIT"),
          RateLimiter.setTimestamps (RateLimiter.inWindow rl now) rl)
    else (inl tt,
          RateLimiter.setTimestamps (RateLimiter.inWindow rl now ++ [now]) rl).
Proof.
  intros HN. unfold RateLimiter.acquire, RateLimiter.cleanupOldRequests. simpl.
  case_bool_decide as Hfull; [|reflexivity].
  destruct (RateLimiter.inWindow rl now) as [|oldest rest] eqn:Hts.
  - simpl in Hfull. lia.
  - assert (Hin : oldest ∈ RateLimiter.inWindow rl now)
      by (rewrite Hts; left).
    apply list_elem_of_filter in Hin as [Hin _].
    rewrite bool_decide_eq_true_2 by lia. reflexivity.
Qed.

Lemma limiter_bound N W rl :
  1 <= N ->
  RateLimiter.reachable N W rl ->
  Z.of_nat (length (RateLimiter.requestTimestamps rl)) <= N.
Proof.
  intros HN. induction 1 as [|rl now Hr IH]; [simpl; lia|].
  destruct (limiter_config _ _ _ Hr) as [HmaxN _].
  rewrite acquire_cases by lia.
  pose proof (length_filter
                (fun timestamp => now - RateLimiter.timeWindow rl < timestamp)
                (RateLimiter.requestTimestamps rl)) as Hlen.
  fold (RateLimiter.inWindow rl now) in Hlen.
  case_bool_decide; simpl; [lia|]. rewrite length_app. simpl. lia.
Qed.

Lemma acquireAll_snoc nows now rl :
  RateLimiter.acquireAll (nows ++ [now]) rl
  = (RateLimiter.acquire now (RateLimiter.acquireAll nows rl)).2.
Proof. unfold RateLimiter.acquireAll. rewrite foldl_snoc. reflexivity. Qed.

Lemma acquireAll_reachable N W nows :
  RateLimiter.reachable N W (RateLimiter.acquireAll nows (RateLimiter.new N W)).
Proof.
  induction nows as [|now nows IH] using rev_ind.
  - apply RateLimiter.reach_new.
  - rewrite acquireAll_snoc. apply RateLimiter.reach_acquire, IH.
Qed.

Lemma inWindow_all rl now :
  Forall (fun t => now - RateLimiter.timeWindow rl < t)
         (RateLimiter.requestTimestamps rl) ->
  RateLimiter.inWindow rl now = RateLimiter.requestTimestamps rl.
Proof.
  unfold RateLimiter.inWindow.
  induction 1 as [|t ts Ht _ IH]; [reflexivity|].
  rewrite filter_cons_True by assumption. f_equal. exact IH.
Qed.

(** Acquisitions that all fall into one window are all recorded, up to
    the limit. *)
Lemma acquireAll_within N W nows now :
  1 <= N ->
  Z.of_nat (length nows) <= N ->
  Forall (fun t => now - W < t <= now) nows ->
  RateLimiter.acquireAll nows (RateLimiter.new N W)
  = RateLimiter.setTimestamps nows (RateLimiter.new N W).
Proof.
  intros HN. induction nows as [|t nows IH] using rev_ind; intros Hlen Hall.
  - reflexivity.
  - rewrite length_app in Hlen. simpl in Hlen.
    apply Forall_app in Hall as [Hall Ht].
    rewrite Forall_singleton in Ht.
    rewrite acquireAll_snoc, IH by (assumption || lia).
    rewrite acquire_cases by (simpl; lia).
    rewrite inWindow_all.
    + simpl. rewrite bool_decide_eq_false_2 by lia. reflexivity.
    + simpl. eapply Forall_impl; [exact Hall|]. simpl. intros; lia.
Qed.

(** What [acquire] leaves stored. *)
Lemma acquire_stored now rl :
  RateLimiter.requestTimestamps (RateLimiter.acquire now rl).2
  = RateLimiter.inWindow rl now
    ++ match (RateLimiter.acquire now rl).1 with
       | inl _ => [now]
       | inr _ => []
       end
  /\ RateLimiter.timeWindow (RateLimiter.acquire now rl).2
     = RateLimiter.timeWindow rl
  /\ RateLimiter.maxRequests (RateLimiter.acquire now rl).2
     = RateLimiter.maxRequests rl.
Proof.
  unfold RateLimiter.acquire, RateLimiter.cleanupOldRequests. simpl.
  destruct (bool_decide (RateLimiter.maxRequests rl
                         <= Z.of_nat (length (RateLimiter.inWindow rl now))));
    [|auto].
  destruct (RateLimiter.inWindow rl now) as [|oldest rest]; [auto|].
  destruct (bool_decide (0 < oldest + RateLimiter.timeWindow rl - now)); simpl;
    rewrite ?app_nil_r; auto.
Qed.

Lemma admittedTimes_snoc nows now rl :
  RateLimiter.admittedTimes (nows ++ [now]) rl
  = RateLimiter.admittedTimes nows rl
    ++ match (RateLimiter.acquire now (RateLimiter.acquireAll nows rl)).1 with
       | inl _ => [now]
       | inr _ => []
       end.
Proof.
  revert rl. induction nows as [|t nows IH]; intros rl.
  - simpl. destruct (RateLimiter.acquire now rl) as [[[]|e] rl1]; reflexivity.
  - simpl. unfold RateLimiter.acquireAll in *. simpl.
    destruct (RateLimiter.acquire t rl) as [[[]|e] rl1]; simpl; rewrite IH;
      reflexivity.
Qed.

(** With a clock that never runs backwards, what is left in the window
    is what was admitted and is still inside it. *)
Lemma inWindow_admitted N W nows now :
  StronglySorted Z.le (nows ++ [now]) ->
  RateLimiter.inWindow (RateLimiter.acquireAll nows (RateLimiter.new N W)) now
  = filter (fun t => now - W < t)
           (RateLimiter.admittedTimes nows (RateLimiter.new N W)).
Proof.
  revert now. induction nows as [|t nows IH] using rev_ind; intros now Hs.
  - reflexivity.
  - apply StronglySorted_app in Hs as (Hrel & Hs & _).
    assert (Htn : t <= now).
    { apply Hrel; [apply elem_of_app; right|]; left. }
    assert (Hs' : StronglySorted Z.le (nows ++ [now])).
    { apply StronglySorted_app_2.
      - intros x1 x2 Hx1 Hx2. apply list_elem_of_singleton in Hx2 as ->.
        apply Hrel; [apply elem_of_app; left; exact Hx1|left].
      - eapply StronglySorted_app_1_l, Hs.
      - repeat constructor. }
    rewrite admittedTimes_snoc, acquireAll_snoc, filter_app, <- (IH now Hs').
    pose proof (acquireAll_reachable N W nows) as Hr.
    destruct (limiter_config _ _ _ Hr) as [_ HW].
    set (rl := RateLimiter.acquireAll nows (RateLimiter.new N W)) in *.
    destruct (acquire_stored t rl) as (Hst & HW' & _).
    unfold RateLimiter.inWindow at 1. rewrite Hst, HW', HW, filter_app.
    f_equal. unfold RateLimiter.inWindow. rewrite HW.
    rewrite list_filter_filter. apply list_filter_iff. intros x. lia.
Qed.

Lemma filter_keeps_all_iff (P : Z -> Prop) `{!forall x, Decision (P x)} (l : list Z) :
  length (filter P l) = length l <-> Forall P l.
Proof.
  induction l as [|x l IH]; [split; constructor|].
  destruct (decide (P x)) as [Hx|Hx].
  - rewrite filter_cons_True by assumption. simpl. split.
    + intros Hlen. constructor; [assumption|]. apply IH. lia.
    + intros Hall. f_equal. apply IH. eapply Forall_cons_1, Hall.
  - rewrite filter_cons_False by assumption.
    pose proof (length_filter P l). simpl. split; [lia|].
    intros Hall. apply Forall_cons_1 in Hall as [? _]. contradiction.
Qed.

(** C7, as stated, fails for [maxRequests = 0]: nothing has been
    admitted, which equals the limit, and yet [acquire] succeeds and
    records the timestamp. *)
Lemma zero_limit_still_admits :
  let rl := RateLimiter.new 0 1000 in
  Z.of_nat (length (RateLimiter.inWindow rl 0)) = RateLimiter.maxRequests rl
  /\ (RateLimiter.acquire 0 rl).1 = inl tt
  /\ RateLimiter.requestTimestamps (RateLimiter.acquire 0 rl).2 = [0].
Proof. repeat split. Qed.

(** C7, as stated, also fails when the injected clock steps back:
    with [maxRequests = 2] and [timeWindow = 1000], calls at 5000, 5001
    and 6001 are admitted (the call at 6001 purges the first two
    timestamps), and so is a call at 5500, although three admitted
    requests have a timestamp greater than 4500. *)
Lemma clock_stepping_back_overfills :
  let fresh := RateLimiter.new 2 1000 in
  RateLimiter.admittedTimes [5000; 5001; 6001] fresh = [5000; 5001; 6001]
  /\ Z.of_nat (length (filter (fun t => 5500 - 1000 < t)
                         (RateLimiter.admittedTimes [5000; 5001; 6001] fresh)))
     = 3
  /\ (RateLimiter.acquire 5500
        (RateLimiter.acquireAll [5000; 5001; 6001] fresh)).1 = inl tt.
Proof. split_and!; reflexivity. Qed.

(** C7, amended: for [maxRequests = N >= 1] and a clock that never runs
    backwards.  Let [acquire] be called on a fresh limiter at the times
    [nows], which never decrease, and then at [now], not before the
    last of them.  The number [n] of requests admitted so far whose
    timestamp is greater than [now - W] never exceeds [N]; [acquire]
    throws [RATE_LIMIT] exactly when [n = N], admitting nothing and
    recording no timestamp; otherwise it succeeds and records [now].
    Whatever the clock does, the same holds of the timestamps still
    stored in place of the requests admitted: their number within the
    trailing window never exceeds [N], the call is refused exactly when
    it is [N], and then the purged list is kept as it is, while an
    admitted call appends [now].  In particular, after [N] calls within
    one window the next call in that window fails, and once [W] has
    elapsed since the oldest recorded timestamp a call succeeds. *)
Theorem acquire_admits_below_limit N W :
  1 <= N ->
  (forall nows now,
      StronglySorted Z.le (nows ++ [now]) ->
      let fresh := RateLimiter.new N W in
      let rl := RateLimiter.acquireAll nows fresh in
      let admitted := RateLimiter.admittedTimes nows fresh in
      let recent := filter (fun t => now - W < t) admitted in
      let n := Z.of_nat (length recent) in
      n <= N
      /\ (n = N ->
          (RateLimiter.acquire now rl).1 = inr (PlainError "RATE_LIMIT")
          /\ RateLimiter.admittedTimes (nows ++ [now]) fresh = admitted
          /\ RateLimiter.requestTimestamps (RateLimiter.acquire now rl).2
             = recent)
      /\ (n <> N ->
          (RateLimiter.acquire now rl).1 = inl tt
          /\ RateLimiter.admittedTimes (nows ++ [now]) fresh
             = admitted ++ [now]
          /\ RateLimiter.requestTimestamps (RateLimiter.acquire now rl).2
             = recent ++ [now]))
  /\ (forall rl now,
      RateLimiter.reachable N W rl ->
      let n := Z.of_nat (length (RateLimiter.inWindow rl now)) in
      n <= N
      /\ (n = N ->
          RateLimiter.acquire now rl
          = (inr (PlainError "RATE_LIMIT"),
             RateLimiter.setTimestamps (RateLimiter.inWindow rl now) rl))
      /\ (n <> N ->
          RateLimiter.acquire now rl
          = (inl tt,
             RateLimiter.setTimestamps (RateLimiter.inWindow rl now ++ [now]) rl)))
  /\ (forall nows now,
        Z.of_nat (length nows) = N ->
        Forall (fun t => now - W < t <= now) nows ->
        let rl := RateLimiter.acquireAll nows (RateLimiter.new N W) in
        RateLimiter.requestTimestamps rl = nows
        /\ (RateLimiter.acquire now rl).1 = inr (PlainError "RATE_LIMIT"))
  /\ (forall rl oldest rest now,
        RateLimiter.reachable N W rl ->
        RateLimiter.requestTimestamps rl = oldest :: rest ->
        oldest + W <= now ->
        (RateLimiter.acquire now rl).1 = inl tt).
Proof.
  intros HN.
  assert (Hwin : forall rl now, RateLimiter.reachable N W rl ->
            Z.of_nat (length (RateLimiter.inWindow rl now)) <= N).
  { intros rl now Hr. pose proof (limiter_bound N W rl HN Hr) as Hb.
    pose proof (length_filter
                  (fun timestamp => now - RateLimiter.timeWindow rl < timestamp)
                  (RateLimiter.requestTimestamps rl)) as Hlen.
    fold (RateLimiter.inWindow rl now) in Hlen. lia. }
  assert (Hstored : forall rl now,
      RateLimiter.reachable N W rl ->
      let n := Z.of_nat (length (RateLimiter.inWindow rl now)) in
      n <= N
      /\ (n = N ->
          RateLimiter.acquire now rl
          = (inr (PlainError "RATE_LIMIT"),
             RateLimiter.setTimestamps (RateLimiter.inWindow rl now) rl))
      /\ (n <> N ->
          RateLimiter.acquire now rl
          = (inl tt,
             RateLimiter.setTimestamps (RateLimiter.inWindow rl now ++ [now]) rl))).
  { intros rl now Hr n.
    destruct (limiter_config _ _ _ Hr) as [HmaxN _].
    pose proof (Hwin rl now Hr) as Hle. fold n in Hle.
    split; [exact Hle|].
    split; intros Hn; rewrite acquire_cases by lia; fold n; rewrite HmaxN.
    + rewrite bool_decide_eq_true_2 by lia. reflexivity.
    + rewrite bool_decide_eq_false_2 by lia. reflexivity. }
  split; [|split; [exact Hstored|split]].
  - intros nows now Hsorted fresh rl admitted recent n.
    pose proof (inWindow_admitted N W nows now Hsorted) as Hsame.
    fold fresh rl admitted recent in Hsame.
    destruct (Hstored rl now (acquireAll_reachable N W nows))
      as (Hle & Hfull & Hfree).
    rewrite Hsame in Hle, Hfull, Hfree. fold n in Hle, Hfull, Hfree.
    split; [exact Hle|].
    split; intros Hn; rewrite admittedTimes_snoc; fold rl admitted.
    + rewrite (Hfull Hn). simpl. rewrite app_nil_r. auto.
    + rewrite (Hfree Hn). simpl. auto.
  - intros nows now Hlen Hall rl. subst rl.
    rewrite (acquireAll_within N W nows now) by (assumption || lia).
    split; [reflexivity|].
    rewrite acquire_cases by (simpl; lia).
    rewrite inWindow_all
      by (simpl; eapply Forall_impl; [exact Hall|]; simpl; intros; lia).
    simpl. rewrite bool_decide_eq_true_2 by lia. reflexivity.
  - intros rl oldest rest now Hr Hts Hold.
    destruct (limiter_config _ _ _ Hr) as [HmaxN HW].
    pose proof (limiter_bound N W rl HN Hr) as Hb.
    assert (Hlt : (length (RateLimiter.inWindow rl now)
                   < length (RateLimiter.requestTimestamps rl))%nat).
    { apply (length_filter_lt _ _ oldest).
      - rewrite Hts. left.
      - rewrite HW. lia. }
    rewrite acquire_cases by lia.
    rewrite bool_decide_eq_false_2 by lia. reflexivity.
Qed.

(** [maxRequests = 2], [timeWindow = 1000]: after calls at 1000 and
    1100 a call at 1200 is refused, two admitted requests lying in its
    window, and a call at 2000 goes through. *)
Lemma acquire_admits_below_limit_witness :
  1 <= 2
  /\ (RateLimiter.acquire 1200
        (RateLimiter.acquireAll [1000; 1100] (RateLimiter.new 2 1000))).1
     = inr (PlainError "RATE_LIMIT")
  /\ (RateLimiter.acquire 2000
        (RateLimiter.acquireAll [1000; 1100] (RateLimiter.new 2 1000))).1
     = inl tt.
Proof.
  assert (H12 : 1 <= 2) by lia.
  destruct (acquire_admits_below_limit 2 1000 H12) as (Hclock & _ & _ & Hfree).
  split; [exact H12|]. split.
  - destruct (Hclock [1000; 1100] 1200) as (_ & Hfull & _).
    + repeat (constructor; [|repeat constructor; lia]). constructor.
    + apply Hfull. reflexivity.
  - apply (Hfree _ 1000 [1100] 2000).
    + apply acquireAll_reachable.
    + reflexivity.
    + lia.
Defined.

(** C9, as stated, fails: one request admitted at time 0 with
    [timeWindow = 1000] is still counted by [getCurrentRequestCount] at
    time 5000, when no recorded timestamp lies inside the window. *)
Lemma stale_timestamp_still_counted :
  let rl := (RateLimiter.acquire 0 (RateLimiter.new 10 1000)).2 in
  RateLimiter.reachable 10 1000 rl
  /\ RateLimiter.getCurrentRequestCount rl = 1
  /\ Z.of_nat (length (RateLimiter.inWindow rl 5000)) = 0.
Proof.
  split; [|split; reflexivity].
  apply RateLimiter.reach_acquire, RateLimiter.reach_new.
Qed.

(** C9, amended.  [getCurrentRequestCount] returns the number of
    timestamps stored, without purging: at any time [now] this is at
    least the number of timestamps inside the trailing window, and equal
    to it exactly when no stored timestamp has left the window.  The
    purge happens in [acquire] only: right after [cleanupOldRequests] at
    [now] the count is the number inside the window, and after
    [acquire] at [now] it is that number plus one if the call was
    admitted. *)
Theorem getCurrentRequestCount_counts_stored rl now :
  Z.of_nat (length (RateLimiter.inWindow rl now))
    <= RateLimiter.getCurrentRequestCount rl
  /\ (RateLimiter.getCurrentRequestCount rl
        = Z.of_nat (length (RateLimiter.inWindow rl now))
      <-> Forall (fun t => now - RateLimiter.timeWindow rl < t)
                 (RateLimiter.requestTimestamps rl))
  /\ RateLimiter.getCurrentRequestCount (RateLimiter.cleanupOldRequests now rl)
     = Z.of_nat (length (RateLimiter.inWindow rl now))
  /\ RateLimiter.getCurrentRequestCount (RateLimiter.acquire now rl).2
     = Z.of_nat (length (RateLimiter.inWindow rl now))
       + match (RateLimiter.acquire now rl).1 with
         | inl _ => 1
         | inr _ => 0
         end.
Proof.
  unfold RateLimiter.getCurrentRequestCount.
  pose proof (length_filter
                (fun timestamp => now - RateLimiter.timeWindow rl < timestamp)
                (RateLimiter.requestTimestamps rl)) as Hlen.
  fold (RateLimiter.inWindow rl now) in Hlen.
  split; [lia|]. split; [|split].
  - unfold RateLimiter.inWindow. split; intros H.
    + apply (proj1 (filter_keeps_all_iff _ _)). lia.
    + apply (proj2 (filter_keeps_all_iff _ _)) in H. lia.
  - reflexivity.
  - unfold RateLimiter.acquire, RateLimiter.cleanupOldRequests. simpl.
    repeat (case_bool_decide || case_match); simpl in *;
      try discriminate; rewrite ?length_app; simpl; lia.
Qed.

(** ** Retry queue *)

Lemma bump_others item (q : list Queue.QueueItem) :
  Queue.handle item ∉ map Queue.handle q ->
  Queue.bump item q = q.
Proof.
  induction q as [|it q IH]; [reflexivity|].
  simpl. intros Hnot.
  apply not_elem_of_cons in Hnot as [Hne Hnot].
  rewrite bool_decide_eq_false_2 by congruence.
  f_equal. apply IH, Hnot.
Qed.

(** What the [catch] branch does to a queue of distinct entries whose
    head [item] may still be retried: the head goes to the tail with
    its counter raised, and then the entry that has become the head is
    removed. *)
Lemma processEnd_retry item rest e this :
  Queue.queue this = item :: rest ->
  NoDup (map Queue.handle (item :: rest)) ->
  Queue.attempts item < Queue.maxAttempts this ->
  Queue.processEnd item (inr e) this
  = (Queue.setQueue
       (Queue.shift
          (rest ++ [{| Queue.message := Queue.message item;
                       Queue.attempts := Queue.attempts item + 1;
                       Queue.handle := Queue.handle item |}]))
       this,
     None).
Proof.
  intros Hq Hnd Hlt. unfold Queue.processEnd.
  rewrite bool_decide_eq_true_2 by assumption.
  rewrite Hq. simpl. rewrite bool_decide_eq_true_2 by reflexivity.
  simpl in Hnd. apply NoDup_cons in Hnd as [Hnot _].
  rewrite bump_others by assumption. reflexivity.
Qed.

(** Once the attempts are used up the promise is rejected with the
    failure and the head is removed. *)
Lemma processEnd_exhausted item e this :
  Queue.maxAttempts this <= Queue.attempts item ->
  Queue.processEnd item (inr e) this
  = (Queue.setQueue (Queue.shift (Queue.queue this)) this,
     Some (Queue.handle item, inr e)).
Proof.
  intros Hle. unfold Queue.processEnd.
  rewrite bool_decide_eq_false_2 by lia. reflexivity.
Qed.

Lemma processEnd_success item st this :
  Queue.processEnd item (inl st) this
  = (Queue.setQueue (Queue.shift (Queue.queue this)) this,
     Some (Queue.handle item, inl st)).
Proof. reflexivity. Qed.

Lemma length_bump item q : length (Queue.bump item q) = length q.
Proof. unfold Queue.bump. apply length_map. Qed.

Lemma length_shift q : length (Queue.shift q) = pred (length q).
Proof. destruct q; reflexivity. Qed.

Lemma length_requeue q : length (Queue.requeue q) = length q.
Proof. destruct q; simpl; [reflexivity|]. rewrite length_app. simpl. lia. Qed.

(** Every round of [process] leaves the queue one entry shorter. *)
Lemma processEnd_shorter item outcome this :
  length (Queue.queue (Queue.processEnd item outcome this).1)
  = pred (length (Queue.queue this)).
Proof.
  unfold Queue.processEnd.
  destruct outcome; [|case_bool_decide]; simpl;
    rewrite length_shift, ?length_requeue, ?length_bump; reflexivity.
Qed.

(** C2 on a queue with [maxAttempts = 3] where the dispatch of the head
    [itemA] (no attempt made so far) fails.  With [itemB] waiting behind
    it, the queue is left holding [itemA] alone: [itemB] is gone and no
    promise was settled.  With [itemA] alone in the queue, the queue is
    left empty: [itemA] is never processed again and its promise is
    never settled. *)
Theorem requeue_then_shift_loses_an_item :
  Queue.attempts Examples.itemA < Queue.maxAttempts (Examples.busyQueue [])
  /\ Queue.processEnd Examples.itemA (inr Examples.providerFailed)
       (Examples.busyQueue [Examples.itemA; Examples.itemB])
     = (Examples.busyQueue [Examples.itemA_retried], None)
  /\ Queue.processEnd Examples.itemA (inr Examples.providerFailed)
       (Examples.busyQueue [Examples.itemA])
     = (Examples.busyQueue [], None)
  /\ Queue.processBegin (Examples.busyQueue [])
     = ({| Queue.queue := []; Queue.processing := false;
           Queue.maxAttempts := 3 |}, None).
Proof. split; [simpl; lia|]. repeat split. Qed.

(** ** Dispatch orchestrator *)

Section Dispatch.

Import EmailService.

Variable env : Env.
Variable message : EmailMessage.

(** A guarded [provider.send] leaves everything in the world alone but
    the clock counter and the log of [send] calls. *)
Lemma execute_send_frame p cb w r cb' w' :
  CircuitBreaker.execute env (providerSend p message) cb w = (r, cb', w') ->
  randomDraws w' = randomDraws w /\ sleeps w' = sleeps w
  /\ uuidCalls w' = uuidCalls w /\ dateReads w' = dateReads w
  /\ nextHandle w' = nextHandle w.
Proof.
  unfold CircuitBreaker.execute, CircuitBreaker.attempt, providerSend.
  intros H.
  repeat (case_match; simplify_eq/=); auto.
Qed.

(** The loop over the providers touches the breakers, the set of sent
    ids and the world's clock and [send] log, nothing else; a status it
    returns carries the attempt number and its message id is then
    recorded as sent. *)
Lemma forProviders_frame attempt ps fs this w r this' w' :
  forProviders env message attempt ps fs this w = (r, this', w') ->
  (queue this' = queue this /\ providers this' = providers this
   /\ retryConfig this' = retryConfig this /\ metrics this' = metrics this
   /\ rateLimiter this' = rateLimiter this
   /\ sentMessageIds this ⊆ sentMessageIds this')
  /\ (randomDraws w' = randomDraws w /\ sleeps w' = sleeps w
      /\ uuidCalls w' = uuidCalls w /\ dateReads w' = dateReads w
      /\ nextHandle w' = nextHandle w)
  /\ (forall st, r = inl st ->
        id message ∈ sentMessageIds this' /\ attempts st = attempt).
Proof.
  revert fs this w.
  induction ps as [|p ps IH]; intros fs this w H; simpl in H.
  - simplify_eq. split_and!; try reflexivity; discriminate.
  - destruct (circuitBreakers this !! name p) as [cb|] eqn:Hcb;
      [|exact (IH _ _ _ H)].
    case_bool_decide; [exact (IH _ _ _ H)|].
    destruct (CircuitBreaker.execute env (providerSend p message) cb w)
      as [[r1 cb1] w1] eqn:Hex.
    apply execute_send_frame in Hex as (Hd & Hs & Hu & Hdt & Hh).
    destruct r1 as [st|e].
    + simplify_eq/=. split_and!; try assumption; try reflexivity.
      * apply union_subseteq_r.
      * intros st' [= <-]. simpl.
        split; [apply elem_of_union_l, elem_of_singleton|]; reflexivity.
    + apply IH in H as (Hthis & Hw & Hr). simpl in Hthis.
      destruct Hthis as (? & ? & ? & ? & ? & ?).
      destruct Hw as (? & ? & ? & ? & ?).
      split_and!; try congruence; assumption.
Qed.

Lemma whileAttempts_frame fuel attempts0 fs this w r this' w' :
  whileAttempts env message fuel attempts0 fs this w = (r, this', w') ->
  (queue this' = queue this /\ providers this' = providers this
   /\ retryConfig this' = retryConfig this /\ metrics this' = metrics this
   /\ rateLimiter this' = rateLimiter this
   /\ sentMessageIds this ⊆ sentMessageIds this')
  /\ (uuidCalls w' = uuidCalls w /\ dateReads w' = dateReads w
      /\ nextHandle w' = nextHandle w)
  /\ (forall st, r = inl st -> id message ∈ sentMessageIds this').
Proof.
  revert attempts0 fs this w.
  induction fuel as [|fuel IH]; intros attempts0 fs this w H;
    cbn [whileAttempts] in H.
  - simplify_eq. split_and!; try reflexivity; discriminate.
  - case_bool_decide;
      [|simplify_eq; split_and!; try reflexivity; discriminate].
    destruct (drawRandom env w) as [random w0] eqn:Hdraw.
    assert (Hw0 : uuidCalls w0 = uuidCalls w /\ dateReads w0 = dateReads w
                  /\ nextHandle w0 = nextHandle w).
    { unfold drawRandom in Hdraw. simplify_eq. auto. }
    destruct Hw0 as (? & ? & ?).
    destruct (forProviders env message (attempts0 + 1) (providers this) fs this w0)
      as [[r1 this1] w1] eqn:Hfor.
    apply forProviders_frame in Hfor as (Hthis & Hw & Hr).
    destruct Hthis as (? & ? & ? & ? & ? & Hsub).
    destruct Hw as (_ & _ & ? & ? & ?).
    destruct r1 as [st|fs1].
    + simplify_eq. split_and!; try congruence; try assumption.
      intros st' [= <-]. apply (Hr st eq_refl).
    + apply IH in H as (Hthis2 & Hw2 & Hr2).
      destruct Hthis2 as (? & ? & ? & ? & ? & Hsub2).
      assert (Hw3 : forall (b : bool) delay,
                 uuidCalls (if b then sleep delay w1 else w1) = uuidCalls w1
                 /\ dateReads (if b then sleep delay w1 else w1) = dateReads w1
                 /\ nextHandle (if b then sleep delay w1 else w1) = nextHandle w1).
      { intros [] ?; auto. }
      specialize (Hw3 (bool_decide (attempts0 + 1 < maxAttempts (retryConfig this1)))
                      (calculateBackoffDelay (retryConfig this) (attempts0 + 1)
                                             random)).
      destruct Hw3 as (? & ? & ?). destruct Hw2 as (? & ? & ?).
      split_and!; try congruence; [etrans; eassumption|assumption].
Qed.

(** [processEmail] never touches the queue, and a status it returns
    means the message id is now in the set of sent ids. *)
Lemma processEmail_frame this w r this' w' :
  processEmail env message this w = (r, this', w') ->
  queue this' = queue this
  /\ retryConfig this' = retryConfig this
  /\ metrics this' = metrics this
  /\ sentMessageIds this ⊆ sentMessageIds this'
  /\ uuidCalls w' = uuidCalls w /\ dateReads w' = dateReads w
  /\ nextHandle w' = nextHandle w
  /\ (forall st, r = inl st -> id message ∈ sentMessageIds this').
Proof.
  unfold processEmail. intros H.
  destruct (readClock env w) as [now w1] eqn:Hclock.
  destruct (RateLimiter.acquire now (rateLimiter this)) as [acquired rl].
  assert (Hw1 : uuidCalls w1 = uuidCalls w /\ dateReads w1 = dateReads w
                /\ nextHandle w1 = nextHandle w).
  { unfold readClock in Hclock. simplify_eq. auto. }
  destruct Hw1 as (? & ? & ?).
  destruct acquired as [[]|e].
  - destruct (whileAttempts env message
                (Z.to_nat (maxAttempts (retryConfig (setRateLimiter rl this)))) 0
                {| lastError := None; lastProviderName := None |}
                (setRateLimiter rl this) w1) as [[r1 this1] w2] eqn:Hloop.
    apply whileAttempts_frame in Hloop as (Hthis & Hw & Hr). simpl in Hthis.
    destruct Hthis as (? & ? & ? & ? & ? & ?). destruct Hw as (? & ? & ?).
    destruct r1 as [st|[attempts1 fs1]]; simplify_eq;
      split_and!; try congruence; try assumption.
    intros st' [= <-]. apply (Hr st eq_refl).
  - case_bool_decide; simplify_eq; simpl; split_and!;
      try assumption; try reflexivity; discriminate.
Qed.

End Dispatch.

Section EventLoop.

Import EmailService.

Variable env : Env.

(** [fuel] above the length of the queue is enough: more of it changes
    nothing, and the run ends with the queue empty and idle. *)
Lemma runQueue_fuel fuel fuel' this w :
  (length (Queue.queue (queue this)) < fuel)%nat ->
  (fuel <= fuel')%nat ->
  runQueue env fuel this w = runQueue env fuel' this w.
Proof.
  revert fuel' this w.
  induction fuel as [|fuel IH]; intros fuel' this w Hlen Hle; [lia|].
  destruct fuel' as [|fuel']; [lia|].
  cbn [runQueue]. unfold Queue.processBegin.
  destruct (Queue.queue (queue this)) as [|item rest] eqn:Hq; [reflexivity|].
  destruct (processEmail env (Queue.message item)
              (setQueue (Queue.setProcessing true (queue this)) this) w)
    as [[outcome this1] w1] eqn:Hp.
  apply processEmail_frame in Hp as (Hqueue & _). simpl in Hqueue.
  pose proof (processEnd_shorter item outcome (queue this1)) as Hshort.
  destruct (Queue.processEnd item outcome (queue this1)) as [q2 settled].
  simpl in Hshort. rewrite Hqueue in Hshort. simpl in Hshort, Hlen.
  rewrite Hq in Hshort. simpl in Hshort.
  rewrite (IH fuel' (setQueue q2 this1) w1); [reflexivity| |lia].
  simpl. lia.
Qed.

Lemma runQueue_drains fuel this w :
  (length (Queue.queue (queue this)) < fuel)%nat ->
  queue (runQueue env fuel this w).1.2
  = {| Queue.queue := []; Queue.processing := false;
       Queue.maxAttempts := Queue.maxAttempts (queue this) |}.
Proof.
  revert this w.
  induction fuel as [|fuel IH]; intros this w Hlen; [lia|].
  cbn [runQueue]. unfold Queue.processBegin.
  destruct (Queue.queue (queue this)) as [|item rest] eqn:Hq.
  { simpl. unfold Queue.setProcessing. rewrite Hq. reflexivity. }
  destruct (processEmail env (Queue.message item)
              (setQueue (Queue.setProcessing true (queue this)) this) w)
    as [[outcome this1] w1] eqn:Hp.
  apply processEmail_frame in Hp as (Hqueue & _). simpl in Hqueue.
  pose proof (processEnd_shorter item outcome (queue this1)) as Hshort.
  assert (Hmax : Queue.maxAttempts (Queue.processEnd item outcome (queue this1)).1
                 = Queue.maxAttempts (queue this)).
  { rewrite Hqueue. unfold Queue.processEnd.
    destruct outcome; [|case_bool_decide]; reflexivity. }
  destruct (Queue.processEnd item outcome (queue this1)) as [q2 settled].
  simpl in Hshort, Hmax. rewrite Hqueue in Hshort. simpl in Hshort, Hlen.
  rewrite Hq in Hshort. simpl in Hshort.
  specialize (IH (setQueue q2 this1) w1).
  destruct (runQueue env fuel (setQueue q2 this1) w1) as [[later this2] w2].
  simpl in *. rewrite IH by lia. rewrite Hmax. reflexivity.
Qed.

(** A submission to an idle service (empty queue, nothing in flight)
    with well-formed input and a fresh id: the message is dispatched
    once.  A status resolves the promise.  A failure rejects it only
    when the queue's [maxAttempts] is not positive; otherwise the entry
    is moved to the tail and at once removed, and the promise is left
    pending for ever. *)
Lemma sendEmail_idle to from subject body metadata this w :
  queue this = Queue.new (Queue.maxAttempts (queue this)) ->
  validateEmailInput to from subject body = None ->
  uuidv4 env (uuidCalls w) ∉ sentMessageIds this ->
  let message :=
    {| id := uuidv4 env (uuidCalls w); to := to; from := from;
       subject := subject; body := body; metadata := metadata |} in
  let w3 := (newHandle (readDate env (mintId env w).2).2).2 in
  let startTime := (readDate env (mintId env w).2).1 in
  let busy :=
    {| Queue.queue :=
         [{| Queue.message := message; Queue.attempts := 0;
             Queue.handle := nextHandle w |}];
       Queue.processing := true;
       Queue.maxAttempts := Queue.maxAttempts (queue this) |} in
  let '(outcome, this1, w4) := processEmail env message (setQueue busy this) w3 in
  sendEmail env to from subject body metadata this w
  = match outcome with
    | inl st =>
        let '(this2, w5) :=
          recordSuccess env startTime (setQueue (queue this) this1) w4 in
        (Resolved st, this2, w5)
    | inr e =>
        if bool_decide (0 < Queue.maxAttempts (queue this))
        then (Pending, setQueue (queue this) this1, w4)
        else (Rejected e, recordFailure (setQueue (queue this) this1), w4)
    end.
Proof.
  intros Hidle Hvalid Hfresh. cbv zeta.
  destruct this as [rl cbs [q busy maxA] ps rc ids m]. simpl in *.
  injection Hidle as -> ->.
  match goal with
  | |- context [processEmail env ?msg ?s ?w3] =>
      destruct (processEmail env msg s w3) as [[outcome this1] w4] eqn:Hp;
      pose proof (processEmail_frame _ _ _ _ _ _ _ Hp) as (Hqueue & _)
  end.
  simpl in Hqueue.
  unfold sendEmail. rewrite Hvalid. simpl.
  rewrite bool_decide_eq_false_2 by exact Hfresh.
  unfold enqueue. simpl.
  match goal with
  | |- context [processEmail env ?msg ?s ?w3] =>
      replace (processEmail env msg s w3) with (outcome, this1, w4)
        by (symmetry; exact Hp)
  end.
  cbv iota beta. rewrite Hqueue.
  destruct outcome as [st|e]; simpl.
  - rewrite bool_decide_eq_true_2 by reflexivity. reflexivity.
  - case_bool_decide; simpl.
    + reflexivity.
    + rewrite bool_decide_eq_true_2 by reflexivity. reflexivity.
Qed.

(** Awaited one at a time, submissions always find the service idle. *)
Lemma sendEmail_stays_idle to from subject body metadata this w :
  queue this = Queue.new (Queue.maxAttempts (queue this)) ->
  queue (sendEmail env to from subject body metadata this w).1.2 = queue this.
Proof.
  intros Hidle.
  destruct (validateEmailInput to from subject body) as [e|] eqn:Hvalid.
  { unfold sendEmail. rewrite Hvalid. reflexivity. }
  destruct (decide (uuidv4 env (uuidCalls w) ∈ sentMessageIds this))
    as [Hin|Hfresh].
  { unfold sendEmail. rewrite Hvalid. simpl.
    rewrite bool_decide_eq_true_2 by exact Hin. reflexivity. }
  pose proof (sendEmail_idle to from subject body metadata this w
                Hidle Hvalid Hfresh) as Hsend.
  cbv zeta in Hsend.
  match type of Hsend with
  | context [processEmail env ?msg ?s ?w3] =>
      destruct (processEmail env msg s w3) as [[outcome thisA] wA]
  end.
  rewrite Hsend.
  destruct outcome as [st|e]; [|case_bool_decide]; reflexivity.
Qed.

End EventLoop.

(** C1.  Whenever the id minted for a well-formed submission is already
    in the set of sent ids, [sendEmail] rejects with [DUPLICATE_MESSAGE]
    and leaves the service as it was: nothing is enqueued and no backend
    is invoked (the world only records the [uuidv4] call).  Hence, when
    a submission to an idle service has resolved with a status, a later
    submission for which the same id is minted is rejected that way. *)
Theorem duplicate_submission_rejected env :
  (forall to from subject body metadata this w,
      EmailService.validateEmailInput to from subject body = None ->
      uuidv4 env (uuidCalls w) ∈ EmailService.sentMessageIds this ->
      EmailService.sendEmail env to from subject body metadata this w
      = (EmailService.Rejected EmailService.duplicateMessage, this,
         (mintId env w).2)
      /\ sendLog (mintId env w).2 = sendLog w)
  /\ (forall to from subject body metadata to' from' subject' body' metadata'
             this w st this1 w1,
        EmailService.queue this
        = Queue.new (Queue.maxAttempts (EmailService.queue this)) ->
        EmailService.sendEmail env to from subject body metadata this w
        = (EmailService.Resolved st, this1, w1) ->
        uuidv4 env (uuidCalls w1) = uuidv4 env (uuidCalls w) ->
        EmailService.validateEmailInput to' from' subject' body' = None ->
        EmailService.sendEmail env to' from' subject' body' metadata' this1 w1
        = (EmailService.Rejected EmailService.duplicateMessage, this1,
           (mintId env w1).2)
        /\ sendLog (mintId env w1).2 = sendLog w1).
Proof.
  assert (Hdup : forall to from subject body metadata this w,
      EmailService.validateEmailInput to from subject body = None ->
      uuidv4 env (uuidCalls w) ∈ EmailService.sentMessageIds this ->
      EmailService.sendEmail env to from subject body metadata this w
      = (EmailService.Rejected EmailService.duplicateMessage, this,
         (mintId env w).2)
      /\ sendLog (mintId env w).2 = sendLog w).
  { intros to from subject body metadata this w Hvalid Hin.
    split; [|reflexivity].
    unfold EmailService.sendEmail. rewrite Hvalid. simpl.
    rewrite bool_decide_eq_true_2 by exact Hin. reflexivity. }
  split; [exact Hdup|].
  intros to from subject body metadata to' from' subject' body' metadata'
         this w st this1 w1 Hidle Hfirst Hsame Hvalid'.
  apply Hdup; [exact Hvalid'|]. rewrite Hsame.
  destruct (EmailService.validateEmailInput to from subject body) as [e|] eqn:Hvalid.
  { unfold EmailService.sendEmail in Hfirst. rewrite Hvalid in Hfirst.
    discriminate. }
  destruct (decide (uuidv4 env (uuidCalls w) ∈ EmailService.sentMessageIds this))
    as [Hin|Hfresh].
  { destruct (Hdup to from subject body metadata this w Hvalid Hin) as [Heq _].
    rewrite Heq in Hfirst. discriminate. }
  pose proof (sendEmail_idle env to from subject body metadata this w
                Hidle Hvalid Hfresh) as Hsend.
  cbv zeta in Hsend.
  match type of Hsend with
  | context [EmailService.processEmail env ?msg ?s ?w3] =>
      destruct (EmailService.processEmail env msg s w3)
        as [[outcome thisA] wA] eqn:Hp;
      pose proof (processEmail_frame _ _ _ _ _ _ _ Hp)
        as (_ & _ & _ & _ & _ & _ & _ & Hsent)
  end.
  rewrite Hsend in Hfirst.
  destruct outcome as [st'|e].
  - specialize (Hsent st' eq_refl). simpl in Hsent.
    unfold EmailService.recordSuccess in Hfirst. simpl in Hfirst.
    injection Hfirst as _ <- _. exact Hsent.
  - case_bool_decide; discriminate.
Qed.

Section Backoff.

Import EmailService.

Variable env : Env.
Variable message : EmailMessage.

(** Round by round through the retry loop: [n] rounds draw [n] random
    numbers, one per computed delay, and sleep on all of the delays but
    the last. *)
Lemma whileAttempts_delays fuel attempts0 fs this w r this' w' :
  whileAttempts env message fuel attempts0 fs this w = (r, this', w') ->
  fuel = Z.to_nat (maxAttempts (retryConfig this) - attempts0) ->
  exists n : nat,
    randomDraws w' = (randomDraws w + n)%nat
    /\ sleeps w'
       = sleeps w
         ++ map (fun i : nat =>
                   calculateBackoffDelay (retryConfig this)
                     (attempts0 + 1 + Z.of_nat i)
                     (mathRandom env (randomDraws w + i)%nat))
                (seq 0 (pred n))
    /\ match r with
       | inl st => attempts st = attempts0 + Z.of_nat n /\ (1 <= n)%nat
       | inr (attempts1, _) => attempts1 = attempts0 + Z.of_nat n /\ n = fuel
       end.
Proof.
  revert attempts0 fs this w.
  induction fuel as [|fuel IH]; intros attempts0 fs this w H Hfuel;
    cbn [whileAttempts] in H.
  - simplify_eq. exists 0%nat. simpl. rewrite app_nil_r.
    split_and!; try reflexivity; lia.
  - rewrite bool_decide_eq_true_2 in H by lia.
    destruct (drawRandom env w) as [random w0] eqn:Hdraw.
    assert (Hw0 : randomDraws w0 = S (randomDraws w) /\ sleeps w0 = sleeps w
                  /\ random = mathRandom env (randomDraws w)).
    { unfold drawRandom in Hdraw. simplify_eq. auto. }
    destruct Hw0 as (Hd0 & Hs0 & ->).
    destruct (forProviders env message (attempts0 + 1) (providers this) fs this w0)
      as [[r1 this1] w1] eqn:Hfor.
    apply forProviders_frame in Hfor as (Hthis & Hw & Hr).
    destruct Hthis as (_ & _ & Hcfg & _).
    destruct Hw as (Hd1 & Hs1 & _).
    destruct r1 as [st|fs1].
    + simplify_eq. exists 1%nat. simpl. rewrite app_nil_r.
      destruct (Hr st eq_refl) as [_ ->].
      split_and!; try congruence; lia.
    + rewrite Hcfg in H.
      case_bool_decide as Hmore.
      * apply IH in H; [|rewrite Hcfg; lia].
        destruct H as (n & Hdn & Hsn & Hres). rewrite Hcfg in *.
        assert (Hn : (1 <= n)%nat).
        { destruct r as [?|[? ?]]; destruct Hres as [_ Hn]; lia. }
        exists (S n). simpl pred. simpl in Hdn, Hsn.
        split; [lia|]. split.
        -- rewrite Hsn, Hd1, Hd0.
           destruct n as [|n]; [lia|]. simpl.
           rewrite Hs1, Hs0, <- app_assoc. simpl.
           rewrite Z.add_0_r, Nat.add_0_r. do 2 f_equal.
           rewrite <- seq_shift, map_map.
           apply map_ext. intros i. f_equal; [lia|f_equal; lia].
        -- destruct r as [st|[attempts1 fs2]]; destruct Hres as [Ha Hn'];
             split; lia.
      * destruct fuel as [|fuel]; [|lia].
        cbn [whileAttempts] in H. simplify_eq.
        exists 1%nat. simpl. rewrite app_nil_r.
        split_and!; try congruence; lia.
Qed.

(** The loop is given [maxAttempts - attempts] rounds of fuel, and that
    is enough: more fuel changes nothing. *)
Lemma whileAttempts_fuel fuel fuel' attempts0 fs this w :
  (Z.to_nat (maxAttempts (retryConfig this) - attempts0) <= fuel)%nat ->
  (fuel <= fuel')%nat ->
  whileAttempts env message fuel attempts0 fs this w
  = whileAttempts env message fuel' attempts0 fs this w.
Proof.
  revert fuel' attempts0 fs this w.
  induction fuel as [|fuel IH]; intros fuel' attempts0 fs this w Hfuel Hle.
  - destruct fuel' as [|fuel']; [reflexivity|].
    cbn [whileAttempts]. rewrite bool_decide_eq_false_2 by lia. reflexivity.
  - destruct fuel' as [|fuel']; [lia|].
    cbn [whileAttempts]. case_bool_decide; [|reflexivity].
    destruct (drawRandom env w) as [random w0].
    destruct (forProviders env message (attempts0 + 1) (providers this) fs this w0)
      as [[r1 this1] w1] eqn:Hfor.
    apply forProviders_frame in Hfor as ((_ & _ & Hcfg & _) & _).
    destruct r1 as [st|fs1]; [reflexivity|].
    apply IH; [rewrite Hcfg|]; lia.
Qed.

End Backoff.

(** C8.  With [r] the value [Math.random()] returned, [0 <= r < 1], the
    delay computed for attempt [k >= 1] is
    [min(initialDelay * backoffFactor^(k-1), maxDelay)] times a factor
    in [[0.75, 1.25]], so it lies between 0.75 and 1.25 times that
    minimum.  And every round of the retry loop computes its delay: a
    dispatch that got past the rate limiter and ran [n] rounds has drawn
    [n] random numbers, one per round, and has slept on the delays of
    the first [n - 1] rounds only; the delay of the last round, whether
    that round succeeded or used up the attempts, was computed and not
    used. *)
Theorem backoff_delay_jittered_every_attempt :
  (forall cfg k r,
      1 <= k -> (0 <= r)%Q -> (r < 1)%Q ->
      let base :=
        Qmin (EmailService.initialDelay cfg
                * EmailService.backoffFactor cfg ^ (k - 1))
             (EmailService.maxDelay cfg) in
      (exists m, (0.75 <= m)%Q /\ (m <= 1.25)%Q
                 /\ EmailService.calculateBackoffDelay cfg k r = (base * m)%Q)
      /\ ((0 <= base)%Q ->
          (0.75 * base <= EmailService.calculateBackoffDelay cfg k r)%Q
          /\ (EmailService.calculateBackoffDelay cfg k r <= 1.25 * base)%Q))
  /\ (forall env message this w result this' w',
        EmailService.processEmail env message this w = (result, this', w') ->
        (RateLimiter.acquire (getCurrentTime env (clockReads w))
                             (EmailService.rateLimiter this)).1 = inl tt ->
        exists n : nat,
          randomDraws w' = (randomDraws w + n)%nat
          /\ sleeps w'
             = sleeps w
               ++ map (fun i : nat =>
                         EmailService.calculateBackoffDelay
                           (EmailService.retryConfig this) (1 + Z.of_nat i)
                           (mathRandom env (randomDraws w + i)%nat))
                      (seq 0 (pred n))
          /\ match result with
             | inl st => attempts st = Z.of_nat n /\ (1 <= n)%nat
             | inr _ =>
                 n = Z.to_nat (EmailService.maxAttempts
                                 (EmailService.retryConfig this))
             end).
Proof.
  split.
  - intros cfg k r Hk Hr0 Hr1 base.
    unfold EmailService.calculateBackoffDelay. fold base.
    split.
    + exists (0.75 + r * 0.5)%Q. split; [lra|]. split; [lra|reflexivity].
    + intros Hbase. split; nra.
  - intros env message this w result this' w' H Hacq.
    unfold EmailService.processEmail in H.
    destruct (readClock env w) as [now w1] eqn:Hclock.
    assert (Hw1 : now = getCurrentTime env (clockReads w)
                  /\ randomDraws w1 = randomDraws w /\ sleeps w1 = sleeps w).
    { unfold readClock in Hclock. simplify_eq. auto. }
    destruct Hw1 as (-> & Hd1 & Hs1).
    destruct (RateLimiter.acquire (getCurrentTime env (clockReads w))
                                  (EmailService.rateLimiter this))
      as [acquired rl].
    simpl in Hacq. subst acquired.
    destruct (EmailService.whileAttempts env message
                (Z.to_nat (EmailService.maxAttempts
                   (EmailService.retryConfig (EmailService.setRateLimiter rl this))))
                0 {| EmailService.lastError := None;
                     EmailService.lastProviderName := None |}
                (EmailService.setRateLimiter rl this) w1)
      as [[r1 this1] w2] eqn:Hloop.
    apply whileAttempts_delays in Hloop; [|simpl; f_equal; lia].
    destruct Hloop as (n & Hdn & Hsn & Hres). simpl in Hsn.
    exists n. rewrite <- Hd1, <- Hs1.
    destruct r1 as [st|[attempts1 fs1]]; simplify_eq;
      (split; [exact Hdn|]); (split; [exact Hsn|]); simpl in *.
    + destruct Hres as [-> ?]. split; [lia|assumption].
    + destruct Hres as [_ ->]. reflexivity.
Qed.

(** The defaults, third attempt, [Math.random() = 0.5]: the delay is
    [min(1000 * 2^2, 10000) * 1 = 4000]. *)
Lemma backoff_delay_jittered_every_attempt_witness :
  1 <= 3 /\ (0 <= 0.5)%Q /\ (0.5 < 1)%Q
  /\ exists m : Q,
      (0.75 <= m)%Q /\ (m <= 1.25)%Q
      /\ EmailService.calculateBackoffDelay
           {| EmailService.maxAttempts := 3; EmailService.initialDelay := 1000;
              EmailService.maxDelay := 10000; EmailService.backoffFactor := 2 |}
           3 0.5
         = (Qmin (1000 * 2 ^ (3 - 1)) 10000 * m)%Q.
Proof.
  assert (H1 : 1 <= 3) by lia.
  assert (H2 : (0 <= 0.5)%Q) by (vm_compute; discriminate).
  assert (H3 : (0.5 < 1)%Q) by reflexivity.
  split; [exact H1|]. split; [exact H2|]. split; [exact H3|].
  exact (proj1 (proj1 backoff_delay_jittered_every_attempt
                  {| EmailService.maxAttempts := 3;
                     EmailService.initialDelay := 1000;
                     EmailService.maxDelay := 10000;
                     EmailService.backoffFactor := 2 |} 3 0.5%Q H1 H2 H3)).
Defined.

(** A healthy backend, the default configuration, the id ["test-123"]
    minted twice: the first submission resolves, the second is rejected
    as a duplicate. *)
Lemma duplicate_submission_rejected_witness :
  exists this,
    EmailService.new
      (Examples.configOf [Examples.healthyProvider "MockProvider1"] None None)
    = inr this
    /\ exists st this1 w1,
        Examples.submit (Examples.envAt 1000) this World0
        = (EmailService.Resolved st, this1, w1)
        /\ Examples.submit (Examples.envAt 1000) this1 w1
           = (EmailService.Rejected EmailService.duplicateMessage, this1,
              (mintId (Examples.envAt 1000) w1).2).
Proof.
  eexists. split; [reflexivity|].
  match goal with
  | |- context [Examples.submit ?env ?this World0] =>
      set (first := Examples.submit env this World0);
      assert (Hfirst : first = (first.1.1, first.1.2, first.2))
        by (destruct first as [[? ?] ?]; reflexivity);
      assert (Hst : first.1.1 = EmailService.Resolved
                                  (Examples.sentStatus "MockProvider1"
                                                       Examples.testMessage))
        by (vm_compute; reflexivity)
  end.
  rewrite Hst in Hfirst.
  exists (Examples.sentStatus "MockProvider1" Examples.testMessage),
         first.1.2, first.2.
  split; [exact Hfirst|].
  refine (proj1 (proj2 (duplicate_submission_rejected (Examples.envAt 1000))
                   _ _ _ _ _ _ _ _ _ _ _ _ _ _ _ _ Hfirst _ _)).
  - reflexivity.
  - reflexivity.
  - vm_compute. reflexivity.
Defined.

(** C3 in the scenario of the claim: one backend that always fails,
    [failureThreshold = 2], [resetTimeout = 1000], the clock at 1000
    throughout, three submissions one after the other, once with
    [maxAttempts = 1] and once with the default retry configuration of
    the test suite.  The breaker is open after the second submission
    (with the default three attempts already after the first) and the
    third submission does not call the backend.  But its dispatch skips
    the open breaker and ends with [ALL_PROVIDERS_FAILED], not with a
    circuit-open error, and none of the three promises is ever settled:
    the queue drops the entry it has just moved to its tail, so
    [sendEmail] neither returns nor throws and the failure counter stays
    at 0. *)
Theorem open_circuit_submission_never_settles :
  (exists this,
      EmailService.new
        (Examples.configOf [Examples.failingProvider "MockProvider1"]
           (Some Examples.retryOnce) (Some Examples.thresholdTwo))
      = inr this
      /\ Examples.threeSubmissions (Examples.envAt 1000) this
         = {| Examples.outcomes :=
                [EmailService.Pending; EmailService.Pending;
                 EmailService.Pending];
              Examples.breakerAfter := [Some CLOSED; Some OPEN; Some OPEN];
              Examples.sendsAfter := [1%nat; 2%nat; 2%nat];
              Examples.thirdDispatch :=
                inr (EmailError
                       "All providers failed after 1 attempts (last provider: MockProvider1): undefined"
                       ALL_PROVIDERS_FAILED None);
              Examples.failuresCounted := Some 0 |})
  /\ (exists this,
        EmailService.new
          (Examples.configOf [Examples.failingProvider "MockProvider1"]
             None (Some Examples.thresholdTwo))
        = inr this
        /\ Examples.threeSubmissions (Examples.envAt 1000) this
           = {| Examples.outcomes :=
                  [EmailService.Pending; EmailService.Pending;
                   EmailService.Pending];
                Examples.breakerAfter := [Some OPEN; Some OPEN; Some OPEN];
                Examples.sendsAfter := [2%nat; 2%nat; 2%nat];
                Examples.thirdDispatch :=
                  inr (EmailError
                         "All providers failed after 3 attempts (last provider: MockProvider1): undefined"
                         ALL_PROVIDERS_FAILED None);
                Examples.failuresCounted := Some 0 |}).
Proof.
  split; (eexists; split; [reflexivity|]); vm_compute; reflexivity.
Qed.

(** What [validateConfig] rejects: no provider, or a [maxAttempts] that
    is given, is not [0], and is below 1. *)
Lemma validateConfig_throws config :
  is_Some (EmailService.validateConfig config)
  <-> EmailService.config_providers config = []
      \/ exists m,
          EmailService.config_retryConfig config ≫= EmailService.maxAttempts_opt
          = Some m
          /\ m < 0.
Proof.
  unfold EmailService.validateConfig, truthyZ.
  destruct (EmailService.config_providers config) as [|p ps].
  { split; [auto|eauto]. }
  destruct (EmailService.config_retryConfig config ≫= EmailService.maxAttempts_opt)
    as [m|].
  - destruct (Z.eqb_spec m 0) as [->|Hnz]; simpl.
    + split; [intros [? ?]; discriminate|].
      intros [?|(m' & [= <-] & ?)]; [discriminate|lia].
    + case_bool_decide; split.
      * intros _. right. exists m. split; [reflexivity|lia].
      * intros _. eauto.
      * intros [? ?]; discriminate.
      * intros [?|(m' & [= <-] & ?)]; [discriminate|lia].
  - split; [intros [? ?]; discriminate|].
    intros [?|(m' & ? & ?)]; discriminate.
Qed.

(** C4 at [maxAttempts = 0]: the guard
    [config.retryConfig?.maxAttempts && ... < 1] takes [0] for an absent
    value, so construction succeeds, the service and its queue run with
    [maxAttempts = 0], and a submission to a healthy backend is rejected
    with [ALL_PROVIDERS_FAILED] after zero attempts, the backend never
    called. *)
Theorem zero_maxAttempts_accepted :
  let config :=
    Examples.configOf [Examples.healthyProvider "MockProvider1"]
                      (Some Examples.noRetry) None in
  EmailService.config_retryConfig config ≫= EmailService.maxAttempts_opt = Some 0
  /\ EmailService.validateConfig config = None
  /\ exists this,
      EmailService.new config = inr this
      /\ EmailService.maxAttempts (EmailService.retryConfig this) = 0
      /\ Queue.maxAttempts (EmailService.queue this) = 0
      /\ (Examples.submit (Examples.envAt 1000) this World0).1.1
         = EmailService.Rejected
             (EmailError "All providers failed after 0 attempts: undefined"
                         ALL_PROVIDERS_FAILED None)
      /\ sendLog (Examples.submit (Examples.envAt 1000) this World0).2 = [].
Proof.
  split; [reflexivity|]. split; [reflexivity|].
  eexists. split; [reflexivity|].
  split; [reflexivity|]. split; [reflexivity|].
  split; vm_compute; reflexivity.
Qed.

(** * Further properties *)

(** ** Circuit breaker *)

(** X1. In every state a breaker can reach, [failureCount] is not
    negative and is [0] exactly when no [lastFailureTime] is recorded;
    with a threshold of at least one, a closed breaker has fewer
    failures on record than the threshold. *)
Theorem breaker_counters_consistent thr rt cb :
  CircuitBreaker.reachable thr rt cb ->
  0 <= CircuitBreaker.failureCount cb
  /\ (CircuitBreaker.failureCount cb = 0
      <-> CircuitBreaker.lastFailureTime cb = None)
  /\ (1 <= thr ->
      CircuitBreaker.state cb = CLOSED ->
      CircuitBreaker.failureCount cb < thr).
Proof.
  induction 1 as [|cb now cb' Hr IH He|cb Hr IH|cb now Hr IH|cb Hr IH].
  - simpl. split; [lia|]. split; [tauto|]. lia.
  - unfold CircuitBreaker.enter in He.
    destruct (CircuitBreaker.state cb) eqn:Hst.
    + injection He as <-. rewrite Hst. exact IH.
    + destruct (CircuitBreaker.timedOut cb now); [|discriminate].
      injection He as <-. simpl.
      destruct IH as (? & ? & _). split_and!; try assumption. discriminate.
    + injection He as <-. rewrite Hst. exact IH.
  - unfold CircuitBreaker.onSuccess.
    destruct (CircuitBreaker.state cb) eqn:Hst; simpl; rewrite ?Hst;
      try exact IH.
    split; [lia|]. split; [tauto|]. lia.
  - destruct (reachable_config _ _ _ Hr) as [Hthr _].
    destruct IH as (Hpos & _ & _). simpl. rewrite Hthr.
    split; [lia|]. split; [split; [lia|discriminate]|].
    intros Hone. case_bool_decide; [discriminate|]. lia.
  - simpl. split; [lia|]. split; [tauto|]. lia.
Qed.

(** Threshold 3, one failure at time 1000: closed, count 1 < 3. *)
Lemma breaker_counters_consistent_witness :
  let cb := CircuitBreaker.onFailure (CircuitBreaker.new 3 1000) 1000 in
  CircuitBreaker.reachable 3 1000 cb
  /\ CircuitBreaker.state cb = CLOSED
  /\ CircuitBreaker.failureCount cb < 3.
Proof.
  intros cb.
  assert (Hr : CircuitBreaker.reachable 3 1000 cb)
    by apply CircuitBreaker.reach_failure, CircuitBreaker.reach_new.
  split; [exact Hr|]. split; [reflexivity|].
  apply (proj2 (proj2 (breaker_counters_consistent 3 1000 cb Hr)));
    [lia|reflexivity].
Defined.

(** X2. [execute] either refuses the call, which it does only on an
    open breaker whose timeout has not run out (or whose recorded time
    is [0]), throwing [CIRCUIT] with the operation not run and the
    breaker untouched; or it runs the operation once and hands on
    exactly what the operation returned or threw.  The configuration of
    the breaker never changes. *)
Theorem execute_refuses_or_relays {T} env (fn : Async T) cb w :
  ((CircuitBreaker.state cb = OPEN
    /\ CircuitBreaker.timedOut cb (getCurrentTime env (clockReads w)) = false
    /\ CircuitBreaker.execute env fn cb w
       = (inr (PlainError "CIRCUIT"), cb, (readClock env w).2))
   \/ (exists w0,
         (w0 = w \/ w0 = (readClock env w).2)
         /\ (CircuitBreaker.execute env fn cb w).1.1 = (fn w0).1
         /\ sendLog w0 = sendLog w))
  /\ CircuitBreaker.failureThreshold (CircuitBreaker.execute env fn cb w).1.2
     = CircuitBreaker.failureThreshold cb
  /\ CircuitBreaker.resetTimeout (CircuitBreaker.execute env fn cb w).1.2
     = CircuitBreaker.resetTimeout cb.
Proof.
  assert (Hatt : forall cb0 w0,
             (CircuitBreaker.attempt env fn cb0 w0).1.1 = (fn w0).1
             /\ CircuitBreaker.failureThreshold
                  (CircuitBreaker.attempt env fn cb0 w0).1.2
                = CircuitBreaker.failureThreshold cb0
             /\ CircuitBreaker.resetTimeout
                  (CircuitBreaker.attempt env fn cb0 w0).1.2
                = CircuitBreaker.resetTimeout cb0).
  { intros cb0 w0. unfold CircuitBreaker.attempt, CircuitBreaker.onSuccess.
    destruct (fn w0) as [[v|e] w1]; simpl; [|auto].
    destruct (CircuitBreaker.state cb0); auto. }
  unfold CircuitBreaker.execute, CircuitBreaker.enter.
  destruct (CircuitBreaker.state cb) eqn:Hst.
  - destruct (Hatt cb w) as (? & ? & ?).
    split; [right; exists w; auto|auto].
  - simpl.
    destruct (CircuitBreaker.timedOut cb (getCurrentTime env (clockReads w)))
      eqn:Hto.
    + destruct (Hatt (CircuitBreaker.setState HALF_OPEN cb) (readClock env w).2)
        as (? & ? & ?).
      split; [right; eexists; split; [right; reflexivity|]; auto|auto].
    + split; [left; auto|auto].
  - destruct (Hatt cb w) as (? & ? & ?).
    split; [right; exists w; auto|auto].
Qed.

(** ** Rate limiter *)

(** X3. The wait that [getTimeUntilNextAvailable] reports is never
    negative, and it is long enough if the two clocks agree.  The report
    is computed from [Date.now()], whereas [acquire] reads the injected
    [getCurrentTime]: on a limiter with [maxRequests >= 1], [acquire]
    succeeds whenever the injected clock then reads at least the
    reading of [Date.now()] used for the report plus the wait
    reported. *)
Theorem reported_wait_suffices N W rl env w w' :
  1 <= N ->
  RateLimiter.reachable N W rl ->
  let today := (readDate env w).1 in
  let now := (readClock env w').1 in
  let wait := RateLimiter.getTimeUntilNextAvailable today rl in
  0 <= wait
  /\ (today + wait <= now -> (RateLimiter.acquire now rl).1 = inl tt).
Proof.
  intros HN Hr today now wait.
  destruct (limiter_config _ _ _ Hr) as [HmaxN HW].
  pose proof (limiter_bound N W rl HN Hr) as Hb.
  assert (Hle : (length (RateLimiter.inWindow rl now)
                 <= length (RateLimiter.requestTimestamps rl))%nat)
    by apply length_filter.
  assert (Hok : Z.of_nat (length (RateLimiter.inWindow rl now)) < N ->
                (RateLimiter.acquire now rl).1 = inl tt).
  { intros Hlt. rewrite acquire_cases by lia.
    rewrite bool_decide_eq_false_2 by lia. reflexivity. }
  subst wait. unfold RateLimiter.getTimeUntilNextAvailable.
  case_bool_decide as Hunder.
  - split; [lia|]. intros _. apply Hok. lia.
  - destruct (RateLimiter.requestTimestamps rl) as [|oldest rest] eqn:Hts.
    { simpl in Hunder. lia. }
    split; [lia|]. intros Hlate. apply Hok.
    assert (Hlt : (length (RateLimiter.inWindow rl now)
                   < length (RateLimiter.requestTimestamps rl))%nat).
    { apply (length_filter_lt _ _ oldest); [rewrite Hts; left|lia]. }
    rewrite Hts in Hlt. cbn [length] in Hlt, Hb. lia.
Qed.

(** [maxRequests = 2], [timeWindow = 1000], requests admitted at 1000
    and 1100: with [Date.now()] at 1200 the report is 800, and [acquire]
    succeeds when the injected clock reads 2000. *)
Lemma reported_wait_suffices_witness :
  let rl := RateLimiter.acquireAll [1000; 1100] (RateLimiter.new 2 1000) in
  let env := {| getCurrentTime := fun _ => 2000; dateNow := fun _ => 1200;
                mathRandom := fun _ => 0.5%Q; uuidv4 := fun _ => "test-123" |} in
  RateLimiter.getTimeUntilNextAvailable (readDate env World0).1 rl = 800
  /\ (RateLimiter.acquire (readClock env World0).1 rl).1 = inl tt.
Proof.
  intros rl env. split; [reflexivity|].
  assert (H12 : 1 <= 2) by lia.
  apply (proj2 (reported_wait_suffices 2 1000 rl env World0 World0 H12
                  (acquireAll_reachable 2 1000 [1000; 1100]))).
  apply Z.leb_le. reflexivity.
Defined.

(** Without that agreement the report says nothing of [acquire]: with
    the injected clock stuck at 1000 and [Date.now()] at 5000, a limiter
    of one request per second that has admitted one request reports a
    wait of 0 and refuses the next call. *)
Lemma reported_wait_on_another_clock :
  let rl := RateLimiter.acquireAll [1000] (RateLimiter.new 1 1000) in
  RateLimiter.getTimeUntilNextAvailable 5000 rl = 0
  /\ (RateLimiter.acquire 1000 rl).1 = inr (PlainError "RATE_LIMIT").
Proof. split; reflexivity. Qed.

(** X4. The guarantee of the sliding window.  Let [acquire] be called
    at times that never decrease, on a fresh limiter with
    [maxRequests = N >= 1].  Then at each call, the requests admitted so
    far (this one included) whose time lies within the window that
    trails the call are at most [N]. *)
Theorem window_never_overfull N W nows now :
  1 <= N ->
  StronglySorted Z.le (nows ++ [now]) ->
  Z.of_nat
    (length (filter (fun t => now - W < t)
               (RateLimiter.admittedTimes (nows ++ [now])
                                          (RateLimiter.new N W))))
  <= N.
Proof.
  intros HN Hs.
  rewrite admittedTimes_snoc, filter_app, length_app,
    <- (inWindow_admitted N W nows now Hs).
  pose proof (acquireAll_reachable N W nows) as Hr.
  set (rl := RateLimiter.acquireAll nows (RateLimiter.new N W)) in *.
  destruct (limiter_config _ _ _ Hr) as [HmaxN _].
  pose proof (limiter_bound N W rl HN Hr) as Hb.
  pose proof (length_filter
                (fun timestamp => now - RateLimiter.timeWindow rl < timestamp)
                (RateLimiter.requestTimestamps rl)) as Hlen.
  fold (RateLimiter.inWindow rl now) in Hlen.
  rewrite acquire_cases by lia.
  case_bool_decide as Hfull; simpl; [lia|].
  pose proof (length_filter (fun t => now - W < t) [now]) as Hone.
  simpl in Hone. lia.
Qed.

(** [maxRequests = 2], [timeWindow = 1000], calls at 1000, 1100, 1200
    and 1300: two are admitted, so at most two lie in the window. *)
Lemma window_never_overfull_witness :
  Z.of_nat
    (length (filter (fun t => 1300 - 1000 < t)
               (RateLimiter.admittedTimes ([1000; 1100; 1200] ++ [1300])
                                          (RateLimiter.new 2 1000))))
  <= 2.
Proof.
  apply window_never_overfull; [lia|].
  repeat (constructor; [|repeat constructor; lia]). constructor.
Defined.

(** ** Retry queue *)

(** X5. Whatever the outcome of the dispatch, one round of [process]
    leaves the queue exactly one entry shorter and its [maxAttempts]
    unchanged.  It settles no promise exactly when the dispatch failed
    and the entry had attempts left; a promise it settles is the one of
    the entry just processed, settled with the outcome of its
    dispatch. *)
Theorem process_round_removes_one item outcome this :
  length (Queue.queue (Queue.processEnd item outcome this).1)
  = pred (length (Queue.queue this))
  /\ Queue.maxAttempts (Queue.processEnd item outcome this).1
     = Queue.maxAttempts this
  /\ ((Queue.processEnd item outcome this).2 = None
      <-> exists e, outcome = inr e
                    /\ Queue.attempts item < Queue.maxAttempts this)
  /\ (forall h r,
        (Queue.processEnd item outcome this).2 = Some (h, r) ->
        h = Queue.handle item /\ r = outcome).
Proof.
  split; [apply processEnd_shorter|].
  unfold Queue.processEnd.
  destruct outcome as [st|e]; [|case_bool_decide as Hlt]; simpl.
  - split; [reflexivity|]. split.
    + split; [discriminate|]. intros (e & ? & _). discriminate.
    + intros h r [= <- <-]. auto.
  - split; [reflexivity|]. split.
    + split; [eauto|reflexivity].
    + discriminate.
  - split; [reflexivity|]. split.
    + split; [discriminate|]. intros (e' & [= <-] & ?). contradiction.
    + intros h r [= <- <-]. auto.
Qed.

(** ** Dispatch orchestrator *)

Section Breakers.

Import EmailService.

Variable env : Env.

(** What dispatching does to the map of breakers: no key is lost, and a
    breaker that is open is left exactly as it is. *)
Lemma forProviders_breakers message attempt ps fs this w r this' w' :
  forProviders env message attempt ps fs this w = (r, this', w') ->
  forall k cb,
    circuitBreakers this !! k = Some cb ->
    exists cb',
      circuitBreakers this' !! k = Some cb'
      /\ (CircuitBreaker.state cb = OPEN -> cb' = cb).
Proof.
  revert fs this w.
  induction ps as [|p ps IH]; intros fs this w H k cb Hk; simpl in H.
  - simplify_eq. eauto.
  - destruct (circuitBreakers this !! name p) as [cbp|] eqn:Hcb;
      [|exact (IH _ _ _ H k cb Hk)].
    case_bool_decide as Hopen; [exact (IH _ _ _ H k cb Hk)|].
    destruct (CircuitBreaker.execute env (providerSend p message) cbp w)
      as [[r1 cb1] w1].
    destruct (decide (name p = k)) as [<-|Hne].
    + assert (cbp = cb) by congruence. subst cbp.
      destruct r1 as [st|e].
      * simplify_eq/=. exists cb1. rewrite lookup_insert_eq.
        split; [reflexivity|]. intros Hst. contradiction.
      * destruct (IH _ _ _ H (name p) cb1) as (cb' & Hcb' & _).
        { simpl. apply lookup_insert_eq. }
        exists cb'. split; [exact Hcb'|]. intros Hst. contradiction.
    + destruct r1 as [st|e].
      * simplify_eq/=. exists cb. rewrite lookup_insert_ne by exact Hne. auto.
      * apply (IH _ _ _ H k cb). simpl.
        rewrite lookup_insert_ne by exact Hne. exact Hk.
Qed.

Lemma whileAttempts_breakers message fuel attempts0 fs this w r this' w' :
  whileAttempts env message fuel attempts0 fs this w = (r, this', w') ->
  forall k cb,
    circuitBreakers this !! k = Some cb ->
    exists cb',
      circuitBreakers this' !! k = Some cb'
      /\ (CircuitBreaker.state cb = OPEN -> cb' = cb).
Proof.
  revert attempts0 fs this w.
  induction fuel as [|fuel IH]; intros attempts0 fs this w H k cb Hk;
    cbn [whileAttempts] in H.
  - simplify_eq. eauto.
  - case_bool_decide; [|simplify_eq; eauto].
    destruct (drawRandom env w) as [random w0].
    destruct (forProviders env message (attempts0 + 1) (providers this) fs this w0)
      as [[r1 this1] w1] eqn:Hfor.
    destruct (forProviders_breakers _ _ _ _ _ _ _ _ _ Hfor k cb Hk)
      as (cb1 & Hk1 & Hkeep1).
    destruct r1 as [st|fs1].
    { injection H as <- <- <-. exists cb1. auto. }
    destruct (IH _ _ _ _ H k cb1 Hk1) as (cb' & Hk' & Hkeep').
    exists cb'. split; [exact Hk'|].
    intros Hst. specialize (Hkeep1 Hst). subst cb1. exact (Hkeep' Hst).
Qed.

Lemma processEmail_breakers message this w r this' w' :
  processEmail env message this w = (r, this', w') ->
  forall k cb,
    circuitBreakers this !! k = Some cb ->
    exists cb',
      circuitBreakers this' !! k = Some cb'
      /\ (CircuitBreaker.state cb = OPEN -> cb' = cb).
Proof.
  unfold processEmail. intros H k cb Hk.
  destruct (readClock env w) as [now w1].
  destruct (RateLimiter.acquire now (rateLimiter this)) as [acquired rl].
  destruct acquired as [[]|e].
  - destruct (whileAttempts env message
                (Z.to_nat (maxAttempts (retryConfig (setRateLimiter rl this)))) 0
                {| lastError := None; lastProviderName := None |}
                (setRateLimiter rl this) w1) as [[r1 this1] w2] eqn:Hloop.
    destruct (whileAttempts_breakers _ _ _ _ _ _ _ _ _ Hloop k cb Hk)
      as (cb' & Hk' & Hkeep).
    destruct r1 as [st|[attempts1 fs1]]; simplify_eq; eauto.
  - case_bool_decide; simplify_eq; simpl; eauto.
Qed.

Lemma runQueue_breakers fuel this w :
  forall k cb,
    circuitBreakers this !! k = Some cb ->
    exists cb',
      circuitBreakers (runQueue env fuel this w).1.2 !! k = Some cb'
      /\ (CircuitBreaker.state cb = OPEN -> cb' = cb).
Proof.
  revert this w.
  induction fuel as [|fuel IH]; intros this w k cb Hk; [simpl; eauto|].
  cbn [runQueue].
  destruct (Queue.processBegin (queue this)) as [q [item|]];
    [|simpl; eauto].
  destruct (processEmail env (Queue.message item) (setQueue q this) w)
    as [[outcome this1] w1] eqn:Hp.
  destruct (processEmail_breakers _ _ _ _ _ _ Hp k cb Hk)
    as (cb1 & Hk1 & Hkeep1).
  destruct (Queue.processEnd item outcome (queue this1)) as [q2 settled].
  destruct (IH (setQueue q2 this1) w1 k cb1 Hk1) as (cb' & Hk' & Hkeep').
  destruct (runQueue env fuel (setQueue q2 this1) w1) as [[later this2] w2].
  simpl in *. exists cb'. split; [exact Hk'|].
  intros Hst. specialize (Hkeep1 Hst). subst cb1. exact (Hkeep' Hst).
Qed.

Lemma sendEmail_breakers to from subject body metadata this w :
  forall k cb,
    circuitBreakers this !! k = Some cb ->
    exists cb',
      circuitBreakers
        (sendEmail env to from subject body metadata this w).1.2 !! k
      = Some cb'
      /\ (CircuitBreaker.state cb = OPEN -> cb' = cb).
Proof.
  intros k cb Hk. unfold sendEmail.
  destruct (validateEmailInput to from subject body); [simpl; eauto|].
  destruct (mintId env w) as [uuid w1].
  case_bool_decide; [simpl; eauto|].
  destruct (readDate env w1) as [startTime w2].
  unfold enqueue.
  destruct (newHandle w2) as [h w3].
  match goal with
  | |- context [Queue.push ?it (queue this)] =>
      set (q1 := Queue.push it (queue this))
  end.
  destruct (Queue.processing q1).
  { simpl. eauto. }
  pose proof (runQueue_breakers (S (length (Queue.queue q1)))
                (setQueue q1 this) w3 k cb Hk) as (cb' & Hk' & Hkeep).
  destruct (runQueue env (S (length (Queue.queue q1))) (setQueue q1 this) w3)
    as [[settled this2] w4].
  simpl in Hk'.
  destruct (settlementOf h settled) as [[st|e]|]; simpl; eauto.
Qed.

End Breakers.

(** X6. No submission changes a breaker that is open, however late it
    comes: dispatching skips an open breaker instead of calling
    [execute], so the half-open trial is never reached through
    [sendEmail], and the provider is reported [OPEN] afterwards as
    before.  [resetCircuitBreakers] is what closes it: every breaker is
    then as fresh, closed with nothing on record. *)
Theorem open_breaker_never_retried env to from subject body metadata this w k cb :
  EmailService.circuitBreakers this !! k = Some cb ->
  CircuitBreaker.state cb = OPEN ->
  let this' :=
    (EmailService.sendEmail env to from subject body metadata this w).1.2 in
  EmailService.circuitBreakers this' !! k = Some cb
  /\ EmailService.getProviderStatus this' !! k = Some OPEN
  /\ EmailService.circuitBreakers (EmailService.resetCircuitBreakers this') !! k
     = Some (CircuitBreaker.new (CircuitBreaker.failureThreshold cb)
                                (CircuitBreaker.resetTimeout cb))
  /\ EmailService.getProviderStatus (EmailService.resetCircuitBreakers this') !! k
     = Some CLOSED.
Proof.
  intros Hk Hst this'.
  destruct (sendEmail_breakers env to from subject body metadata this w k cb Hk)
    as (cb' & Hk' & Hkeep).
  specialize (Hkeep Hst). subst cb'. fold this' in Hk'.
  unfold EmailService.getProviderStatus, EmailService.resetCircuitBreakers.
  simpl. rewrite !lookup_fmap, Hk'. simpl.
  unfold CircuitBreaker.getState. rewrite Hst. auto.
Qed.

(** The service of the test suite after one failed submission at time
    1000 (two failures, breaker open): a submission at time 100000, long
    after [resetTimeout = 1000], leaves the breaker open. *)
Lemma open_breaker_never_retried_witness :
  exists this,
    EmailService.new
      (Examples.configOf [Examples.failingProvider "MockProvider1"]
         None (Some Examples.thresholdTwo))
    = inr this
    /\ let first := Examples.submit (Examples.envAt 1000) this World0 in
       EmailService.getProviderStatus
         (Examples.submit (Examples.envAt 100000) first.1.2 first.2).1.2
         !! "MockProvider1"
       = Some OPEN.
Proof.
  eexists. split; [reflexivity|]. intros first.
  refine (proj1 (proj2 (open_breaker_never_retried (Examples.envAt 100000)
             _ _ _ _ None first.1.2 first.2 "MockProvider1"
             {| CircuitBreaker.state := OPEN; CircuitBreaker.failureCount := 2;
                CircuitBreaker.lastFailureTime := Some 1000;
                CircuitBreaker.failureThreshold := 2;
                CircuitBreaker.resetTimeout := 1000 |} _ _)));
    vm_compute; reflexivity.
Defined.

Section FailedDispatch.

Import EmailService.

Variable env : Env.
Variable message : EmailMessage.

Lemma acquire_error now rl e rl' :
  RateLimiter.acquire now rl = (inr e, rl') -> e = PlainError "RATE_LIMIT".
Proof.
  unfold RateLimiter.acquire. intros H.
  repeat (case_bool_decide || case_match); simplify_eq; reflexivity.
Qed.

Lemma forProviders_failed attempt ps fs this w fs' this' w' :
  forProviders env message attempt ps fs this w = (inr fs', this', w') ->
  sentMessageIds this' = sentMessageIds this.
Proof.
  revert fs this w.
  induction ps as [|p ps IH]; intros fs this w H; simpl in H.
  - simplify_eq. reflexivity.
  - destruct (circuitBreakers this !! name p) as [cb|];
      [|exact (IH _ _ _ H)].
    case_bool_decide; [exact (IH _ _ _ H)|].
    destruct (CircuitBreaker.execute env (providerSend p message) cb w)
      as [[[st|e] cb1] w1].
    + destruct (readClock env w1). discriminate.
    + apply IH in H. exact H.
Qed.

Lemma whileAttempts_failed fuel attempts0 fs this w attempts1 fs' this' w' :
  whileAttempts env message fuel attempts0 fs this w
  = (inr (attempts1, fs'), this', w') ->
  sentMessageIds this' = sentMessageIds this.
Proof.
  revert attempts0 fs this w.
  induction fuel as [|fuel IH]; intros attempts0 fs this w H;
    cbn [whileAttempts] in H.
  - simplify_eq. reflexivity.
  - case_bool_decide; [|simplify_eq; reflexivity].
    destruct (drawRandom env w) as [random w0].
    destruct (forProviders env message (attempts0 + 1) (providers this) fs this w0)
      as [[[st|fs1] this1] w1] eqn:Hfor; [discriminate|].
    apply forProviders_failed in Hfor. apply IH in H. congruence.
Qed.

(** With every provider's breaker open the loop over the providers
    calls nobody and changes nothing. *)
Lemma forProviders_all_open attempt ps fs this w :
  (forall p, p ∈ ps ->
     exists cb, circuitBreakers this !! name p = Some cb
                /\ CircuitBreaker.state cb = OPEN) ->
  exists n,
    forProviders env message attempt ps fs this w
    = (inr {| lastError := lastError fs; lastProviderName := n |}, this, w).
Proof.
  revert fs. induction ps as [|p ps IH]; intros fs Hopen; simpl.
  - exists (lastProviderName fs). destruct fs. reflexivity.
  - destruct (Hopen p) as (cb & -> & Hst); [left|].
    rewrite bool_decide_eq_true_2 by exact Hst.
    apply (IH {| lastError := lastError fs; lastProviderName := Some (name p) |}).
    intros q Hq. apply Hopen. right. exact Hq.
Qed.

Lemma whileAttempts_all_open fuel attempts0 fs this w r this' w' :
  (forall p, p ∈ providers this ->
     exists cb, circuitBreakers this !! name p = Some cb
                /\ CircuitBreaker.state cb = OPEN) ->
  whileAttempts env message fuel attempts0 fs this w = (r, this', w') ->
  this' = this /\ sendLog w' = sendLog w /\ clockReads w' = clockReads w
  /\ exists attempts1 n,
      r = inr (attempts1, {| lastError := lastError fs; lastProviderName := n |}).
Proof.
  intros Hopen. revert attempts0 fs w.
  induction fuel as [|fuel IH]; intros attempts0 fs w H;
    cbn [whileAttempts] in H.
  - simplify_eq. split_and!; try reflexivity.
    exists attempts0, (lastProviderName fs). destruct fs. reflexivity.
  - case_bool_decide.
    2:{ simplify_eq. split_and!; try reflexivity.
        exists attempts0, (lastProviderName fs). destruct fs. reflexivity. }
    destruct (drawRandom env w) as [random w0] eqn:Hdraw.
    assert (Hw0 : sendLog w0 = sendLog w /\ clockReads w0 = clockReads w).
    { unfold drawRandom in Hdraw. simplify_eq. auto. }
    destruct Hw0 as [Hlog0 Hclk0].
    destruct (forProviders_all_open (attempts0 + 1) (providers this) fs this w0 Hopen)
      as [n Hfor].
    rewrite Hfor in H.
    apply IH in H as (-> & Hlog & Hclk & attempts1 & n' & ->).
    split; [reflexivity|].
    split; [rewrite Hlog; case_bool_decide; simpl; exact Hlog0|].
    split; [rewrite Hclk; case_bool_decide; simpl; exact Hclk0|].
    exists attempts1, n'. reflexivity.
Qed.

(** [lastProviderName] is set at every provider visited, called or
    not. *)
Lemma forProviders_lastName attempt ps fs this w fs' this' w' :
  forProviders env message attempt ps fs this w = (inr fs', this', w') ->
  lastProviderName fs'
  = match last (name <$> ps) with
    | Some n => Some n
    | None => lastProviderName fs
    end.
Proof.
  revert fs this w.
  induction ps as [|p ps IH]; intros fs this w H; simpl in H.
  - simplify_eq. reflexivity.
  - rewrite fmap_cons, last_cons.
    destruct (circuitBreakers this !! name p) as [cb|].
    2:{ apply IH in H. rewrite H. destruct (last (name <$> ps)); reflexivity. }
    case_bool_decide.
    { apply IH in H. rewrite H. destruct (last (name <$> ps)); reflexivity. }
    destruct (CircuitBreaker.execute env (providerSend p message) cb w)
      as [[[st|e] cb1] w1].
    + destruct (readClock env w1). discriminate.
    + apply IH in H. rewrite H. destruct (last (name <$> ps)); reflexivity.
Qed.

Lemma whileAttempts_lastName fuel attempts0 fs this w attempts1 fs' this' w' :
  whileAttempts env message fuel attempts0 fs this w
  = (inr (attempts1, fs'), this', w') ->
  attempts0 <= attempts1
  /\ lastProviderName fs'
     = if bool_decide (attempts0 < attempts1)
       then match last (name <$> providers this) with
            | Some n => Some n
            | None => lastProviderName fs
            end
       else lastProviderName fs.
Proof.
  revert attempts0 fs this w.
  induction fuel as [|fuel IH]; intros attempts0 fs this w H;
    cbn [whileAttempts] in H.
  - simplify_eq. rewrite bool_decide_eq_false_2 by lia.
    split; [lia|reflexivity].
  - case_bool_decide.
    2:{ simplify_eq. rewrite bool_decide_eq_false_2 by lia.
        split; [lia|reflexivity]. }
    destruct (drawRandom env w) as [random w0].
    destruct (forProviders env message (attempts0 + 1) (providers this) fs this w0)
      as [[[st|fs1] this1] w1] eqn:Hfor; [discriminate|].
    pose proof (forProviders_frame _ _ _ _ _ _ _ _ _ _ Hfor)
      as ((_ & Hps & _) & _).
    apply forProviders_lastName in Hfor as Hname1.
    apply IH in H as (Hle & Hname'). rewrite Hps in Hname'.
    split; [lia|].
    rewrite bool_decide_eq_true_2 by lia.
    rewrite Hname'. case_bool_decide; rewrite Hname1;
      destruct (last (name <$> providers this)); reflexivity.
Qed.

(** What the loops leave in [lastError] when every provider has a
    breaker: the log of [send] calls only grows, and [lastError] is the
    error thrown by the last call logged since [log0], none if nothing
    was logged. *)
Lemma forProviders_cause (all : list EmailProvider) log0 attempt ps fs this w
    fs' this' w' :
  (forall p, p ∈ ps -> p ∈ all) ->
  (forall p, p ∈ ps -> is_Some (circuitBreakers this !! name p)) ->
  (exists calls,
      sendLog w = log0 ++ calls
      /\ match lastError fs with
         | None => calls = []
         | Some e0 =>
             exists before p,
               calls = before ++ [(name p, id message)] /\ p ∈ all
               /\ send p (length (log0 ++ before)) message = inr e0
         end) ->
  forProviders env message attempt ps fs this w = (inr fs', this', w') ->
  (exists calls,
      sendLog w' = log0 ++ calls
      /\ match lastError fs' with
         | None => calls = []
         | Some e0 =>
             exists before p,
               calls = before ++ [(name p, id message)] /\ p ∈ all
               /\ send p (length (log0 ++ before)) message = inr e0
         end).
Proof.
  revert fs this w.
  induction ps as [|p ps IH]; intros fs this w Hall Hbr Hinv H; simpl in H.
  - simplify_eq. exact Hinv.
  - assert (Hall' : forall q, q ∈ ps -> q ∈ all)
      by (intros q Hq; apply Hall; right; exact Hq).
    destruct (Hbr p) as [cb Hcb]; [left|]. rewrite Hcb in H.
    case_bool_decide as Hopen.
    + apply IH in H; [exact H|exact Hall'| |exact Hinv].
      intros q Hq. apply Hbr. right. exact Hq.
    + rewrite execute_not_open in H by exact Hopen.
      unfold CircuitBreaker.attempt, providerSend in H.
      destruct (send p (length (sendLog w)) message) as [st0|e] eqn:Hsend;
        simpl in H; [discriminate|].
      apply IH in H; [exact H|exact Hall'| |].
      * intros q Hq. simpl. apply lookup_insert_is_Some'. right.
        apply Hbr. right. exact Hq.
      * destruct Hinv as (calls & Hlog & _). simpl.
        exists (calls ++ [(name p, id message)]).
        split; [rewrite Hlog, app_assoc; reflexivity|].
        exists calls, p. split; [reflexivity|].
        split; [apply Hall; left|]. rewrite <- Hlog. exact Hsend.
Qed.

Lemma whileAttempts_cause log0 fuel attempts0 fs this w attempts1 fs' this' w' :
  (forall p, p ∈ providers this -> is_Some (circuitBreakers this !! name p)) ->
  (exists calls,
      sendLog w = log0 ++ calls
      /\ match lastError fs with
         | None => calls = []
         | Some e0 =>
             exists before p,
               calls = before ++ [(name p, id message)] /\ p ∈ providers this
               /\ send p (length (log0 ++ before)) message = inr e0
         end) ->
  whileAttempts env message fuel attempts0 fs this w
  = (inr (attempts1, fs'), this', w') ->
  (exists calls,
      sendLog w' = log0 ++ calls
      /\ match lastError fs' with
         | None => calls = []
         | Some e0 =>
             exists before p,
               calls = before ++ [(name p, id message)] /\ p ∈ providers this
               /\ send p (length (log0 ++ before)) message = inr e0
         end).
Proof.
  revert attempts0 fs this w.
  induction fuel as [|fuel IH]; intros attempts0 fs this w Hbr Hinv H;
    cbn [whileAttempts] in H.
  - simplify_eq. exact Hinv.
  - case_bool_decide; [|simplify_eq; exact Hinv].
    destruct (drawRandom env w) as [random w0] eqn:Hdraw.
    assert (Hlog0 : sendLog w0 = sendLog w)
      by (unfold drawRandom in Hdraw; simplify_eq; reflexivity).
    destruct (forProviders env message (attempts0 + 1) (providers this) fs this w0)
      as [[[st|fs1] this1] w1] eqn:Hfor; [discriminate|].
    pose proof (forProviders_frame _ _ _ _ _ _ _ _ _ _ Hfor)
      as ((_ & Hps & _) & _).
    assert (Hbr1 : forall p, p ∈ providers this1 ->
                     is_Some (circuitBreakers this1 !! name p)).
    { intros p Hp. rewrite Hps in Hp. destruct (Hbr p Hp) as [cb Hcb].
      destruct (forProviders_breakers env _ _ _ _ _ _ _ _ _ Hfor _ _ Hcb)
        as (cb' & Hcb' & _).
      eexists. exact Hcb'. }
    apply forProviders_cause with (all := providers this) (log0 := log0)
      in Hfor as Hinv1;
      [|auto|exact Hbr|rewrite Hlog0; exact Hinv].
    apply IH in H; [|exact Hbr1|].
    + rewrite Hps in H. exact H.
    + rewrite Hps. case_bool_decide; exact Hinv1.
Qed.

End FailedDispatch.

(** X7. A dispatch that fails throws an [EmailError] of one of two
    kinds and never records the message id as sent.  When the rate
    limiter refused, the error is [RATE_LIMIT]: no backend was called,
    no breaker touched, no delay computed.  Otherwise it is
    [ALL_PROVIDERS_FAILED], reporting [max(0, maxAttempts)] attempts and
    naming the last provider of the list (no one if no round was run);
    its cause, when every provider has a breaker, is the error that the
    last [send] of this dispatch threw, and there is no cause exactly
    when this dispatch called no backend. *)
Theorem failed_dispatch_errors env message this w e this' w' :
  EmailService.processEmail env message this w = (inr e, this', w') ->
  EmailService.sentMessageIds this' = EmailService.sentMessageIds this
  /\ match (RateLimiter.acquire (getCurrentTime env (clockReads w))
              (EmailService.rateLimiter this)).1 with
     | inr _ =>
         e = EmailError "Rate limit exceeded" RATE_LIMIT None
         /\ sendLog w' = sendLog w
         /\ randomDraws w' = randomDraws w
         /\ EmailService.circuitBreakers this'
            = EmailService.circuitBreakers this
     | inl _ =>
         exists cause,
           e = EmailService.allProvidersFailed
                 (Z.max 0 (EmailService.maxAttempts
                             (EmailService.retryConfig this)))
                 {| EmailService.lastError := cause;
                    EmailService.lastProviderName :=
                      if bool_decide (1 <= EmailService.maxAttempts
                                             (EmailService.retryConfig this))
                      then last (EmailService.name
                                   <$> EmailService.providers this)
                      else None |}
           /\ errorCode e = Some ALL_PROVIDERS_FAILED
           /\ ((forall p, p ∈ EmailService.providers this ->
                  is_Some (EmailService.circuitBreakers this
                             !! EmailService.name p)) ->
               exists calls,
                 sendLog w' = sendLog w ++ calls
                 /\ match cause with
                    | None => calls = []
                    | Some e0 =>
                        exists before p,
                          calls = before ++ [(EmailService.name p, id message)]
                          /\ p ∈ EmailService.providers this
                          /\ EmailService.send p
                               (length (sendLog w ++ before)) message
                             = inr e0
                    end)
     end.
Proof.
  unfold EmailService.processEmail. intros H.
  destruct (readClock env w) as [now w1] eqn:Hclock.
  assert (Hw1 : now = getCurrentTime env (clockReads w)
                /\ sendLog w1 = sendLog w /\ randomDraws w1 = randomDraws w).
  { unfold readClock in Hclock. simplify_eq. auto. }
  destruct Hw1 as (-> & Hlog & Hdraws).
  destruct (RateLimiter.acquire (getCurrentTime env (clockReads w))
              (EmailService.rateLimiter this)) as [acquired rl] eqn:Hacq.
  destruct acquired as [[]|e0]; simpl.
  - destruct (EmailService.whileAttempts env message
                (Z.to_nat (EmailService.maxAttempts
                   (EmailService.retryConfig (EmailService.setRateLimiter rl this))))
                0 {| EmailService.lastError := None;
                     EmailService.lastProviderName := None |}
                (EmailService.setRateLimiter rl this) w1)
      as [[[st|[attempts1 fs1]] this1] w2] eqn:Hloop; [discriminate|].
    injection H as <- <- <-.
    pose proof (whileAttempts_failed _ _ _ _ _ _ _ _ _ _ _ Hloop) as Hsent.
    pose proof Hloop as Hcount.
    apply whileAttempts_delays in Hcount; [|simpl; f_equal; lia].
    destruct Hcount as (n & _ & _ & Hn & Hattempts). simpl in *.
    assert (Hattempts1 : attempts1
                         = Z.max 0 (EmailService.maxAttempts
                                      (EmailService.retryConfig this)))
      by lia.
    assert (Hname : EmailService.lastProviderName fs1
                    = if bool_decide (1 <= EmailService.maxAttempts
                                            (EmailService.retryConfig this))
                      then last (EmailService.name
                                   <$> EmailService.providers this)
                      else None).
    { destruct (whileAttempts_lastName _ _ _ _ _ _ _ _ _ _ _ Hloop) as [_ ->].
      simpl. rewrite Hattempts1.
      repeat case_bool_decide; try lia; try reflexivity.
      destruct (last _); reflexivity. }
    split; [exact Hsent|]. exists (EmailService.lastError fs1).
    split; [|split; [reflexivity|]].
    + rewrite <- Hname, <- Hattempts1. destruct fs1. reflexivity.
    + intros Hbr.
      apply whileAttempts_cause with (log0 := sendLog w) in Hloop;
        [exact Hloop|exact Hbr|].
      exists []. rewrite app_nil_r. simpl. split; [exact Hlog|reflexivity].
  - apply acquire_error in Hacq as ->. simpl in H.
    injection H as <- <- <-. simpl. auto.
Qed.

(** The scenario of the test suite, rate limit 2 per 1000 ms, the clock
    at 1000: the third dispatch is refused with [RATE_LIMIT]. *)
Lemma failed_dispatch_errors_witness :
  let this :=
    {| EmailService.rateLimiter :=
         RateLimiter.acquireAll [1000; 1000] (RateLimiter.new 2 1000);
       EmailService.circuitBreakers :=
         {[ "MockProvider1" := CircuitBreaker.new 5 30000 ]};
       EmailService.queue := Queue.new 3;
       EmailService.providers := [Examples.healthyProvider "MockProvider1"];
       EmailService.retryConfig :=
         {| EmailService.maxAttempts := 3;
            EmailService.initialDelay := 1000;
            EmailService.maxDelay := 10000;
            EmailService.backoffFactor := 2 |};
       EmailService.sentMessageIds := ∅;
       EmailService.metrics := ∅ |} in
  let r := EmailService.processEmail (Examples.envAt 1000)
             Examples.testMessage this World0 in
  r.1.1 = inr (EmailError "Rate limit exceeded" RATE_LIMIT None)
  /\ EmailService.sentMessageIds r.1.2 = EmailService.sentMessageIds this.
Proof.
  intros this r.
  assert (Hr : r = (inr (EmailError "Rate limit exceeded" RATE_LIMIT None),
                    r.1.2, r.2)) by (vm_compute; reflexivity).
  split; [rewrite Hr at 1; reflexivity|].
  exact (proj1 (failed_dispatch_errors _ _ _ _ _ _ _ Hr)).
Defined.

(** X8. When the breaker of every configured provider is open, a
    dispatch that got past the rate limiter calls no backend and changes
    nothing in the service but the limiter's window, and fails with
    [ALL_PROVIDERS_FAILED] without a cause; yet it goes through all its
    rounds, computing [maxAttempts] delays and sleeping on all but the
    last of them before it fails. *)
Theorem dispatch_with_all_breakers_open env message this w :
  (forall p, p ∈ EmailService.providers this ->
     exists cb, EmailService.circuitBreakers this !! EmailService.name p = Some cb
                /\ CircuitBreaker.state cb = OPEN) ->
  (RateLimiter.acquire (getCurrentTime env (clockReads w))
                       (EmailService.rateLimiter this)).1 = inl tt ->
  let rounds := Z.to_nat (EmailService.maxAttempts (EmailService.retryConfig this)) in
  let '(r, this', w') := EmailService.processEmail env message this w in
  (exists fs,
      r = inr (EmailService.allProvidersFailed (Z.of_nat rounds) fs)
      /\ EmailService.lastError fs = None)
  /\ this'
     = EmailService.setRateLimiter
         (RateLimiter.acquire (getCurrentTime env (clockReads w))
                              (EmailService.rateLimiter this)).2 this
  /\ sendLog w' = sendLog w
  /\ randomDraws w' = (randomDraws w + rounds)%nat
  /\ length (sleeps w') = (length (sleeps w) + pred rounds)%nat.
Proof.
  intros Hopen Hacq rounds.
  destruct (EmailService.processEmail env message this w) as [[r this'] w'] eqn:Hp.
  unfold EmailService.processEmail in Hp.
  destruct (readClock env w) as [now w1] eqn:Hclock.
  assert (Hw1 : now = getCurrentTime env (clockReads w)
                /\ sendLog w1 = sendLog w /\ randomDraws w1 = randomDraws w
                /\ sleeps w1 = sleeps w).
  { unfold readClock in Hclock. simplify_eq. auto. }
  destruct Hw1 as (-> & Hlog & Hdraws & Hsleeps).
  destruct (RateLimiter.acquire (getCurrentTime env (clockReads w))
              (EmailService.rateLimiter this)) as [acquired rl].
  simpl in Hacq. subst acquired. simpl.
  destruct (EmailService.whileAttempts env message
              (Z.to_nat (EmailService.maxAttempts
                 (EmailService.retryConfig (EmailService.setRateLimiter rl this))))
              0 {| EmailService.lastError := None;
                   EmailService.lastProviderName := None |}
              (EmailService.setRateLimiter rl this) w1)
    as [[r1 this1] w2] eqn:Hloop.
  pose proof (whileAttempts_all_open env message _ _ _
                (EmailService.setRateLimiter rl this) _ _ _ _ Hopen Hloop)
    as (-> & Hlog2 & _ & attempts1 & n & ->).
  apply whileAttempts_delays in Hloop; [|simpl; f_equal; lia].
  destruct Hloop as (k & Hdk & Hsk & Ha & Hk). simpl in Hk.
  injection Hp as <- <- <-.
  split.
  { exists {| EmailService.lastError := None;
              EmailService.lastProviderName := n |}.
    split; [|reflexivity]. subst attempts1 k. simpl. reflexivity. }
  split; [reflexivity|]. split; [congruence|].
  fold rounds in Hk. subst k.
  split; [lia|].
  rewrite Hsk, Hsleeps, length_app, length_map, length_seq. lia.
Qed.

(** The service of the test suite once its only breaker is open (after
    one failed submission at time 1000): the next dispatch sleeps
    through its two inter-attempt delays and calls nobody. *)
Lemma dispatch_with_all_breakers_open_witness :
  exists this,
    EmailService.new
      (Examples.configOf [Examples.failingProvider "MockProvider1"]
         None (Some Examples.thresholdTwo))
    = inr this
    /\ let first := Examples.submit (Examples.envAt 1000) this World0 in
       let r := EmailService.processEmail (Examples.envAt 1000)
                  Examples.testMessage first.1.2 first.2 in
       sendLog r.2 = sendLog first.2
       /\ length (sleeps r.2) = (length (sleeps first.2) + 2)%nat.
Proof.
  eexists. split; [reflexivity|]. intros first r.
  pose proof (dispatch_with_all_breakers_open (Examples.envAt 1000)
                Examples.testMessage first.1.2 first.2) as H.
  fold r in H. destruct r as [[r0 this'] w'].
  destruct H as (_ & _ & Hlog & _ & Hsleeps).
  - intros p Hp. vm_compute in Hp.
    apply list_elem_of_singleton in Hp as ->.
    eexists. split; vm_compute; reflexivity.
  - vm_compute. reflexivity.
  - split; [exact Hlog|exact Hsleeps].
Defined.

Section OneProvider.

Import EmailService.

Variable env : Env.
Variable message : EmailMessage.

(** One step of the loop over the providers, at a provider whose
    breaker is not open: its [send] is called; a failure is recorded by
    the breaker and the loop goes on, a status ends the loop. *)
Lemma forProviders_head_fails attempt p ps fs this w cb e :
  circuitBreakers this !! name p = Some cb ->
  CircuitBreaker.state cb <> OPEN ->
  send p (length (sendLog w)) message = inr e ->
  forProviders env message attempt (p :: ps) fs this w
  = forProviders env message attempt ps
      {| lastError := Some e; lastProviderName := Some (name p) |}
      (setCircuitBreakers
         (<[name p := CircuitBreaker.onFailure cb
                        (getCurrentTime env (clockReads w))]>
            (circuitBreakers this)) this)
      (readClock env (logSend (name p) (id message) w)).2.
Proof.
  intros Hcb Hst Hsend. cbn [forProviders]. rewrite Hcb.
  unfold CircuitBreaker.getState.
  rewrite bool_decide_eq_false_2 by exact Hst.
  rewrite execute_not_open by exact Hst.
  unfold CircuitBreaker.attempt, providerSend. rewrite Hsend. reflexivity.
Qed.

Lemma forProviders_head_succeeds attempt p ps fs this w cb st :
  circuitBreakers this !! name p = Some cb ->
  CircuitBreaker.state cb <> OPEN ->
  send p (length (sendLog w)) message = inl st ->
  forProviders env message attempt (p :: ps) fs this w
  = (inl {| messageId := messageId st; status := status st;
            provider := provider st; attempts := attempt;
            lastAttempt := getCurrentTime env (clockReads w);
            error := error st |},
     setSentMessageIds ({[id message]} ∪ sentMessageIds this)
       (setCircuitBreakers
          (<[name p := CircuitBreaker.onSuccess cb]> (circuitBreakers this))
          this),
     (readClock env (logSend (name p) (id message) w)).2).
Proof.
  intros Hcb Hst Hsend. cbn [forProviders]. rewrite Hcb.
  unfold CircuitBreaker.getState.
  rewrite bool_decide_eq_false_2 by exact Hst.
  rewrite execute_not_open by exact Hst.
  unfold CircuitBreaker.attempt, providerSend. rewrite Hsend. reflexivity.
Qed.

End OneProvider.

(** X9. Fallback.  With at least one attempt allowed and two first
    providers of different names whose breakers are not open, if the
    first provider's [send] throws and the second's returns a status,
    the dispatch returns that status with [attempts = 1], stamped with
    the clock; both providers were called once, in order, and nobody
    after them; the first provider's breaker has recorded the failure,
    the message id is recorded as sent, and no delay was slept on. *)
Theorem fallback_to_second_provider env message this w p1 p2 rest cb1 cb2 e1 st2 :
  EmailService.providers this = p1 :: p2 :: rest ->
  EmailService.name p1 <> EmailService.name p2 ->
  EmailService.circuitBreakers this !! EmailService.name p1 = Some cb1 ->
  EmailService.circuitBreakers this !! EmailService.name p2 = Some cb2 ->
  CircuitBreaker.state cb1 <> OPEN ->
  CircuitBreaker.state cb2 <> OPEN ->
  1 <= EmailService.maxAttempts (EmailService.retryConfig this) ->
  (RateLimiter.acquire (getCurrentTime env (clockReads w))
                       (EmailService.rateLimiter this)).1 = inl tt ->
  EmailService.send p1 (length (sendLog w)) message = inr e1 ->
  EmailService.send p2 (S (length (sendLog w))) message = inl st2 ->
  let '(r, this', w') := EmailService.processEmail env message this w in
  r = inl {| messageId := messageId st2; status := status st2;
             provider := provider st2; attempts := 1;
             lastAttempt := getCurrentTime env (S (S (clockReads w)));
             error := error st2 |}
  /\ sendLog w'
     = sendLog w ++ [(EmailService.name p1, id message);
                     (EmailService.name p2, id message)]
  /\ EmailService.circuitBreakers this' !! EmailService.name p1
     = Some (CircuitBreaker.onFailure cb1 (getCurrentTime env (S (clockReads w))))
  /\ EmailService.circuitBreakers this' !! EmailService.name p2
     = Some (CircuitBreaker.onSuccess cb2)
  /\ id message ∈ EmailService.sentMessageIds this'
  /\ sleeps w' = sleeps w.
Proof.
  intros Hps Hne Hcb1 Hcb2 Hst1 Hst2 Hmax Hacq Hsend1 Hsend2.
  unfold EmailService.processEmail.
  destruct (RateLimiter.acquire (getCurrentTime env (clockReads w))
              (EmailService.rateLimiter this)) as [acquired rl] eqn:Hacq'.
  simpl in Hacq. subst acquired.
  destruct w as [clock dates draws uuids log slept handle].
  simpl in Hsend1, Hsend2, Hacq'. unfold readClock at 1. cbv beta iota.
  cbn [clockReads]. rewrite Hacq'. cbv beta iota.
  destruct (Z.to_nat (EmailService.maxAttempts
              (EmailService.retryConfig (EmailService.setRateLimiter rl this))))
    as [|fuel] eqn:Hfuel; [simpl in Hfuel; lia|].
  cbn [EmailService.whileAttempts].
  rewrite bool_decide_eq_true_2 by (simpl; lia).
  unfold drawRandom at 1. cbv beta iota.
  change (EmailService.providers (EmailService.setRateLimiter rl this))
    with (EmailService.providers this).
  rewrite Hps.
  rewrite (forProviders_head_fails env message _ p1 _ _ _ _ cb1 e1)
    by assumption.
  rewrite (forProviders_head_succeeds env message _ p2 _ _ _ _ cb2 st2).
  - simpl. split; [reflexivity|].
    split; [rewrite <- app_assoc; reflexivity|].
    split; [rewrite lookup_insert_ne by congruence; apply lookup_insert_eq|].
    split; [apply lookup_insert_eq|].
    split; [apply elem_of_union_l, elem_of_singleton|]; reflexivity.
  - simpl. rewrite lookup_insert_ne by exact Hne. exact Hcb2.
  - exact Hst2.
  - simpl. rewrite length_app. simpl.
    replace (length log + 1)%nat with (S (length log)) by lia. exact Hsend2.
Qed.

(** Two backends, the first always failing, the second healthy, as in
    the test suite: the status comes from the second, after one
    attempt. *)
Lemma fallback_to_second_provider_witness :
  exists this,
    EmailService.new
      (Examples.configOf [Examples.failingProvider "MockProvider1";
                          Examples.healthyProvider "MockProvider2"]
         None None)
    = inr this
    /\ (EmailService.processEmail (Examples.envAt 1000) Examples.testMessage
          this World0).1.1
       = inl {| messageId := "test-123"; status := SENT;
                provider := "MockProvider2"; attempts := 1;
                lastAttempt := 1000; error := None |}.
Proof.
  eexists. split; [reflexivity|].
  match goal with
  | |- (EmailService.processEmail ?env ?msg ?this ?w).1.1 = _ =>
      pose proof (fallback_to_second_provider env msg this w
                    (Examples.failingProvider "MockProvider1")
                    (Examples.healthyProvider "MockProvider2") []
                    (CircuitBreaker.new 5 30000) (CircuitBreaker.new 5 30000)
                    Examples.providerFailed
                    (Examples.sentStatus "MockProvider2" Examples.testMessage))
        as H;
      destruct (EmailService.processEmail env msg this w) as [[r this'] w']
  end.
  destruct H as (-> & _); try reflexivity; discriminate.
Defined.

Section Wiring.

Import EmailService.

Lemma breakers_of_providers (b : CircuitBreaker.t) ps
    (m : gmap string CircuitBreaker.t) k :
  foldl (fun m p => <[name p := b]> m) m ps !! k
  = if decide (k ∈ map name ps) then Some b else m !! k.
Proof.
  revert m. induction ps as [|p ps IH]; intros m; cbn [foldl map].
  - case_decide as Hin; [|reflexivity]. apply elem_of_nil in Hin as [].
  - rewrite IH. repeat case_decide; try reflexivity.
    + exfalso. apply H0. right. assumption.
    + apply elem_of_cons in H0 as [->|?]; [|contradiction].
      apply lookup_insert_eq.
    + apply lookup_insert_ne. intros <-. apply H0. left.
Qed.

Variable env : Env.

Lemma processEmail_providers message this w :
  providers (processEmail env message this w).1.2 = providers this.
Proof.
  unfold processEmail.
  destruct (readClock env w) as [now w1].
  destruct (RateLimiter.acquire now (rateLimiter this)) as [[[]|e] rl].
  - destruct (whileAttempts env message
                (Z.to_nat (maxAttempts (retryConfig (setRateLimiter rl this)))) 0
                {| lastError := None; lastProviderName := None |}
                (setRateLimiter rl this) w1) as [[r1 this1] w2] eqn:Hloop.
    apply whileAttempts_frame in Hloop as ((_ & Hps & _) & _).
    destruct r1 as [st|[attempts1 fs1]]; exact Hps.
  - case_bool_decide; reflexivity.
Qed.

Lemma runQueue_providers fuel this w :
  providers (runQueue env fuel this w).1.2 = providers this.
Proof.
  revert this w. induction fuel as [|fuel IH]; intros this w; [reflexivity|].
  cbn [runQueue].
  destruct (Queue.processBegin (queue this)) as [q [item|]]; [|reflexivity].
  pose proof (processEmail_providers (Queue.message item) (setQueue q this) w)
    as Hps.
  destruct (processEmail env (Queue.message item) (setQueue q this) w)
    as [[outcome this1] w1].
  destruct (Queue.processEnd item outcome (queue this1)) as [q2 settled].
  specialize (IH (setQueue q2 this1) w1).
  destruct (runQueue env fuel (setQueue q2 this1) w1) as [[later this2] w2].
  simpl in *. congruence.
Qed.

Lemma sendEmail_providers to from subject body metadata this w :
  providers (sendEmail env to from subject body metadata this w).1.2
  = providers this.
Proof.
  unfold sendEmail.
  destruct (validateEmailInput to from subject body); [reflexivity|].
  destruct (mintId env w) as [uuid w1].
  case_bool_decide; [reflexivity|].
  destruct (readDate env w1) as [startTime w2].
  unfold enqueue.
  destruct (newHandle w2) as [h w3].
  match goal with
  | |- context [Queue.push ?it (queue this)] =>
      set (q1 := Queue.push it (queue this))
  end.
  destruct (Queue.processing q1); [reflexivity|].
  pose proof (runQueue_providers (S (length (Queue.queue q1)))
                (setQueue q1 this) w3) as Hps.
  destruct (runQueue env (S (length (Queue.queue q1))) (setQueue q1 this) w3)
    as [[settled this2] w4].
  simpl in Hps.
  destruct (settlementOf h settled) as [[st|e]|]; simpl; exact Hps.
Qed.

End Wiring.

(** X10. The service is wired once and stays wired.  A constructed
    service has, for every configured provider, a breaker under the
    provider's name, closed with nothing on record and with the
    configured (or default) threshold and timeout; and no submission
    changes the list of providers or removes a breaker, so the lookup of
    a provider's breaker in the dispatch loop always finds one. *)
Theorem every_provider_keeps_its_breaker :
  (forall config this,
      EmailService.new config = inr this ->
      EmailService.providers this = EmailService.config_providers config
      /\ forall p,
          p ∈ EmailService.providers this ->
          EmailService.circuitBreakers this !! EmailService.name p
          = Some (CircuitBreaker.new
                    (default DEFAULT_CONFIG.CIRCUIT_BREAKER_FAILURE_THRESHOLD
                       (EmailService.config_circuitBreakerConfig config
                          ≫= EmailService.failureThreshold_opt))
                    (default DEFAULT_CONFIG.CIRCUIT_BREAKER_RESET_TIMEOUT
                       (EmailService.config_circuitBreakerConfig config
                          ≫= EmailService.resetTimeout_opt))))
  /\ (forall env to from subject body metadata this w,
        (forall p, p ∈ EmailService.providers this ->
           is_Some (EmailService.circuitBreakers this !! EmailService.name p)) ->
        let this' :=
          (EmailService.sendEmail env to from subject body metadata this w).1.2 in
        EmailService.providers this' = EmailService.providers this
        /\ forall p, p ∈ EmailService.providers this' ->
             is_Some (EmailService.circuitBreakers this' !! EmailService.name p)).
Proof.
  split.
  - intros config this Hnew. unfold EmailService.new in Hnew.
    destruct (EmailService.validateConfig config); [discriminate|].
    injection Hnew as <-. simpl. split; [reflexivity|].
    intros p Hp. rewrite breakers_of_providers.
    rewrite decide_True; [reflexivity|].
    apply list_elem_of_fmap. exists p. auto.
  - intros env to from subject body metadata this w Hwired this'.
    pose proof (sendEmail_providers env to from subject body metadata this w)
      as Hps.
    fold this' in Hps. split; [exact Hps|].
    intros p Hp. rewrite Hps in Hp.
    destruct (Hwired p Hp) as [cb Hcb].
    destruct (sendEmail_breakers env to from subject body metadata this w
                (EmailService.name p) cb Hcb) as (cb' & Hcb' & _).
    fold this' in Hcb'. eauto.
Qed.

(** The configuration of the test suite with two providers. *)
Lemma every_provider_keeps_its_breaker_witness :
  exists this,
    EmailService.new
      (Examples.configOf [Examples.failingProvider "MockProvider1";
                          Examples.healthyProvider "MockProvider2"]
         None (Some Examples.thresholdTwo))
    = inr this
    /\ EmailService.circuitBreakers this !! "MockProvider2"
       = Some (CircuitBreaker.new 2 1000).
Proof.
  eexists. split; [reflexivity|].
  refine (proj2 (proj1 every_provider_keeps_its_breaker
                   (Examples.configOf
                      [Examples.failingProvider "MockProvider1";
                       Examples.healthyProvider "MockProvider2"]
                      None (Some Examples.thresholdTwo)) _ eq_refl)
                (Examples.healthyProvider "MockProvider2") _).
  right. left.
Defined.

Section Counters.

Import EmailService.

Variable env : Env.

Lemma processEmail_error_code message this w e this' w' :
  processEmail env message this w = (inr e, this', w') ->
  errorCode e = Some RATE_LIMIT \/ errorCode e = Some ALL_PROVIDERS_FAILED.
Proof.
  unfold processEmail. intros H.
  destruct (readClock env w) as [now w1].
  destruct (RateLimiter.acquire now (rateLimiter this)) as [[[]|e0] rl] eqn:Hacq.
  - destruct (whileAttempts env message
                (Z.to_nat (maxAttempts (retryConfig (setRateLimiter rl this)))) 0
                {| lastError := None; lastProviderName := None |}
                (setRateLimiter rl this) w1) as [[[st|[attempts1 fs1]] this1] w2];
      simplify_eq. right. reflexivity.
  - apply acquire_error in Hacq as ->. simpl in H. simplify_eq. left. reflexivity.
Qed.

Lemma validateEmailInput_error_code to from subject body e :
  validateEmailInput to from subject body = Some e ->
  errorCode e = Some INVALID_CONFIG.
Proof.
  unfold validateEmailInput. intros H.
  repeat (case_match || case_bool_decide); simplify_eq; reflexivity.
Qed.

Lemma lookup_bumpMetric key by_ this key' :
  metrics (bumpMetric key by_ this) !! key'
  = if decide (key = key')
    then Some (default 0 (metrics this !! key) + by_)
    else metrics this !! key'.
Proof. unfold bumpMetric. simpl. apply lookup_insert. Qed.

End Counters.

(** X11. What a submission to an idle service does to the counters.
    The success counter goes up by one exactly when the promise
    resolves.  The failure counter goes up by one exactly when the
    promise is rejected with a dispatch error ([RATE_LIMIT] or
    [ALL_PROVIDERS_FAILED]); rejections for malformed input or a
    duplicate id are not counted.  And with a queue whose [maxAttempts]
    is positive the failure counter never moves at all: a failed
    dispatch leaves the promise pending and counts nowhere. *)
Theorem counters_after_submission env to from subject body metadata this w :
  EmailService.queue this
  = Queue.new (Queue.maxAttempts (EmailService.queue this)) ->
  let count key (s : EmailService.t) :=
    default 0 (EmailService.getMetrics s !! key) in
  let '(o, this', w') :=
    EmailService.sendEmail env to from subject body metadata this w in
  count METRICS.SUCCESS_COUNTER this'
  = count METRICS.SUCCESS_COUNTER this
    + match o with
      | EmailService.Resolved _ => 1
      | _ => 0
      end
  /\ count METRICS.FAILURE_COUNTER this'
     = count METRICS.FAILURE_COUNTER this
       + match o with
         | EmailService.Rejected e =>
             match errorCode e with
             | Some RATE_LIMIT | Some ALL_PROVIDERS_FAILED => 1
             | _ => 0
             end
         | _ => 0
         end
  /\ (0 < Queue.maxAttempts (EmailService.queue this) ->
      count METRICS.FAILURE_COUNTER this' = count METRICS.FAILURE_COUNTER this).
Proof.
  intros Hidle count. unfold EmailService.getMetrics in count.
  destruct (EmailService.validateEmailInput to from subject body) as [e|] eqn:Hvalid.
  { unfold EmailService.sendEmail. rewrite Hvalid.
    rewrite (validateEmailInput_error_code _ _ _ _ _ Hvalid).
    split_and!; intros; lia. }
  destruct (decide (uuidv4 env (uuidCalls w) ∈ EmailService.sentMessageIds this))
    as [Hin|Hfresh].
  { unfold EmailService.sendEmail. rewrite Hvalid. simpl.
    rewrite bool_decide_eq_true_2 by exact Hin. simpl.
    split_and!; intros; lia. }
  pose proof (sendEmail_idle env to from subject body metadata this w
                Hidle Hvalid Hfresh) as Hsend.
  cbv zeta in Hsend.
  match type of Hsend with
  | context [EmailService.processEmail env ?msg ?s ?w3] =>
      destruct (EmailService.processEmail env msg s w3)
        as [[outcome thisA] wA] eqn:Hp;
      pose proof (processEmail_frame _ _ _ _ _ _ _ Hp)
        as (_ & _ & Hmetrics & _)
  end.
  simpl in Hmetrics. rewrite Hsend. subst count.
  assert (Hkeys : forall (P : Prop), METRICS.LATENCY_HISTOGRAM = METRICS.SUCCESS_COUNTER
                    \/ METRICS.LATENCY_HISTOGRAM = METRICS.FAILURE_COUNTER
                    \/ METRICS.SUCCESS_COUNTER = METRICS.FAILURE_COUNTER
                    \/ METRICS.FAILURE_COUNTER = METRICS.SUCCESS_COUNTER -> P).
  { intros P [H|[H|[H|H]]]; vm_compute in H; discriminate. }
  destruct outcome as [st|e].
  - unfold EmailService.recordSuccess, readDate. cbv beta iota zeta.
    rewrite !lookup_bumpMetric.
    repeat case_decide; try (exfalso; apply Hkeys; tauto); try congruence.
    cbn [EmailService.metrics EmailService.setQueue]. rewrite Hmetrics.
    split_and!; intros; reflexivity || lia.
  - apply processEmail_error_code in Hp.
    case_bool_decide as Hmax; cbv beta iota zeta.
    + cbn [EmailService.metrics EmailService.setQueue]. rewrite Hmetrics.
      split_and!; intros; lia.
    + unfold EmailService.recordFailure. rewrite !lookup_bumpMetric.
      repeat case_decide; try (exfalso; apply Hkeys; tauto); try congruence.
      cbn [EmailService.metrics EmailService.setQueue]. rewrite Hmetrics.
      split_and!; [lia| |intros; lia].
      destruct Hp as [-> | ->]; reflexivity.
Qed.

(** A healthy backend, the default configuration: the submission
    resolves and is counted as one success. *)
Lemma counters_after_submission_witness :
  exists this,
    EmailService.new
      (Examples.configOf [Examples.healthyProvider "MockProvider1"] None None)
    = inr this
    /\ let r := Examples.submit (Examples.envAt 1000) this World0 in
       r.1.1 = EmailService.Resolved
                 (Examples.sentStatus "MockProvider1" Examples.testMessage)
       /\ default 0 (EmailService.getMetrics r.1.2 !! METRICS.SUCCESS_COUNTER)
          = default 0 (EmailService.getMetrics this !! METRICS.SUCCESS_COUNTER) + 1.
Proof.
  eexists. split; [reflexivity|].
  match goal with
  | |- let r := Examples.submit _ ?s _ in _ => set (this := s)
  end.
  intros r.
  assert (Hres : r.1.1 = EmailService.Resolved
                           (Examples.sentStatus "MockProvider1" Examples.testMessage))
    by (vm_compute; reflexivity).
  split; [exact Hres|].
  pose proof (counters_after_submission (Examples.envAt 1000)
                (to Examples.testMessage) (from Examples.testMessage)
                (subject Examples.testMessage) (body Examples.testMessage)
                None this World0 eq_refl) as H.
  change (EmailService.sendEmail _ _ _ _ _ _ this World0) with r in H.
  clearbody r this. destruct r as [[o this'] w']. simpl in Hres. subst o.
  exact (proj1 H).
Defined.

(** X12. Clearing the set of sent ids re-opens every id: after
    [clearSentMessageIds], a well-formed submission to an idle service
    is never rejected as a duplicate, whatever id is minted for it and
    whatever was sent before. *)
Theorem cleared_ids_can_be_sent_again env to from subject body metadata this w :
  EmailService.queue this
  = Queue.new (Queue.maxAttempts (EmailService.queue this)) ->
  EmailService.validateEmailInput to from subject body = None ->
  forall e,
    (EmailService.sendEmail env to from subject body metadata
       (EmailService.clearSentMessageIds this) w).1.1
    = EmailService.Rejected e ->
    errorCode e <> Some DUPLICATE_MESSAGE.
Proof.
  intros Hidle Hvalid e.
  assert (Hfresh : uuidv4 env (uuidCalls w)
                   ∉ EmailService.sentMessageIds
                       (EmailService.clearSentMessageIds this))
    by (simpl; apply not_elem_of_empty).
  pose proof (sendEmail_idle env to from subject body metadata
                (EmailService.clearSentMessageIds this) w Hidle Hvalid Hfresh)
    as Hsend.
  cbv zeta in Hsend.
  match type of Hsend with
  | context [EmailService.processEmail env ?msg ?s ?w3] =>
      destruct (EmailService.processEmail env msg s w3)
        as [[outcome thisA] wA] eqn:Hp
  end.
  rewrite Hsend.
  destruct outcome as [st|e'].
  - unfold EmailService.recordSuccess. simpl. discriminate.
  - apply processEmail_error_code in Hp.
    case_bool_decide; simpl; [discriminate|].
    intros [= <-]. destruct Hp as [-> | ->]; discriminate.
Qed.

(** After a first delivery of ["test-123"] and [clearSentMessageIds],
    the same id is delivered again. *)
Lemma cleared_ids_can_be_sent_again_witness :
  exists this,
    EmailService.new
      (Examples.configOf [Examples.healthyProvider "MockProvider1"] None None)
    = inr this
    /\ let first := Examples.submit (Examples.envAt 1000) this World0 in
       forall e,
         (Examples.submit (Examples.envAt 1000)
            (EmailService.clearSentMessageIds first.1.2) first.2).1.1
         = EmailService.Rejected e ->
         errorCode e <> Some DUPLICATE_MESSAGE.
Proof.
  eexists. split; [reflexivity|]. intros first.
  apply cleared_ids_can_be_sent_again; vm_compute; reflexivity.
Defined.

(** X13. At rest the queue is empty.  After a submission to an idle
    service, awaited until nothing is left to do, the queue holds no
    entry and nothing is in flight, whatever became of the promise:
    [getQueueLength] returns 0, also when the dispatch failed and the
    promise was left pending. *)
Theorem queue_empty_at_rest env to from subject body metadata this w :
  EmailService.queue this
  = Queue.new (Queue.maxAttempts (EmailService.queue this)) ->
  let this' :=
    (EmailService.sendEmail env to from subject body metadata this w).1.2 in
  Queue.queue (EmailService.queue this') = []
  /\ Queue.processing (EmailService.queue this') = false
  /\ (EmailService.getQueueLength this').1 = 0.
Proof.
  intros Hidle this'.
  pose proof (sendEmail_stays_idle env to from subject body metadata this w Hidle)
    as Hq.
  fold this' in Hq. unfold EmailService.getQueueLength, Queue.getQueueLength.
  rewrite Hq, Hidle. simpl. auto.
Qed.

(** The failing backend of the test suite: the promise is pending and
    the queue is empty. *)
Lemma queue_empty_at_rest_witness :
  exists this,
    EmailService.new
      (Examples.configOf [Examples.failingProvider "MockProvider1"] None None)
    = inr this
    /\ (Examples.submit (Examples.envAt 1000) this World0).1.1
       = EmailService.Pending
    /\ (EmailService.getQueueLength
          (Examples.submit (Examples.envAt 1000) this World0).1.2).1 = 0.
Proof.
  eexists. split; [reflexivity|]. split; [vm_compute; reflexivity|].
  apply queue_empty_at_rest. reflexivity.
Defined.

(** ** Mock providers *)

Lemma MockProvider2_send_cases fl env message this w :
  let '(r, this', w') := MockProvider2.send fl env message this w in
  MockProvider2.maxConsecutiveFailures this'
  = MockProvider2.maxConsecutiveFailures this
  /\ MockProvider2.failureRate this' = MockProvider2.failureRate this
  /\ ((exists st, r = inl st) /\ MockProvider2.consecutiveFailures this' = 0
      \/ (exists e, r = inr e)
         /\ MockProvider2.consecutiveFailures this
            < MockProvider2.maxConsecutiveFailures this
         /\ MockProvider2.consecutiveFailures this'
            = MockProvider2.consecutiveFailures this + 1).
Proof.
  unfold MockProvider2.send.
  case_bool_decide as Hmax.
  - destruct (readDate env (MockProvider2.simulateLatency fl env this w))
      as [today w2].
    simpl. split_and!; try reflexivity. left. eauto.
  - destruct (drawRandom env (MockProvider2.simulateLatency fl env this w))
      as [random w2].
    destruct (Qlt_le_dec random (MockProvider2.failureRate this)).
    + simpl. split_and!; try reflexivity. right. split; [eauto|]. lia.
    + destruct (readDate env w2) as [today w3].
      simpl. split_and!; try reflexivity. left. eauto.
Qed.

(** X14. The second mock provider never fails more than
    [maxConsecutiveFailures] times in a row, whatever [Math.random]
    returns and however the runtime rounds.  Its counter of consecutive failures stays between 0 and
    that maximum, and of any series of sends longer than what is left
    up to the maximum at least one succeeds; for a fresh provider
    (maximum 3, counter 0): of any four sends in a row one succeeds. *)
Theorem MockProvider2_bounded_bursts fl env messages this w :
  0 <= MockProvider2.consecutiveFailures this
    <= MockProvider2.maxConsecutiveFailures this ->
  let '(rs, this', w') := MockProvider2.sendAll fl env messages this w in
  0 <= MockProvider2.consecutiveFailures this'
    <= MockProvider2.maxConsecutiveFailures this'
  /\ (MockProvider2.maxConsecutiveFailures this
        - MockProvider2.consecutiveFailures this
      < Z.of_nat (length messages) ->
      exists st, inl st ∈ rs).
Proof.
  revert this w.
  induction messages as [|message rest IH]; intros this w Hinv.
  - simpl. split; [exact Hinv|]. lia.
  - cbn [MockProvider2.sendAll].
    pose proof (MockProvider2_send_cases fl env message this w) as Hsend.
    destruct (MockProvider2.send fl env message this w) as [[r this1] w1].
    destruct Hsend as (Hmax & _ & Hcases).
    assert (Hinv1 : 0 <= MockProvider2.consecutiveFailures this1
                      <= MockProvider2.maxConsecutiveFailures this1)
      by (destruct Hcases as [[_ ?]|(_ & ? & ?)]; lia).
    specialize (IH this1 w1 Hinv1).
    destruct (MockProvider2.sendAll fl env rest this1 w1) as [[rs this2] w2].
    destruct IH as [Hinv2 Hsome].
    split; [exact Hinv2|].
    rewrite length_cons. intros Hlen.
    destruct Hcases as [[[st ->] _]|([e ->] & Hlt & Hc1)].
    + exists st. left.
    + destruct Hsome as [st Hst]; [lia|]. exists st. right. exact Hst.
Qed.

(** A fresh provider with failure rate 1 and [Math.random] stuck at 0:
    three sends fail, the fourth succeeds. *)
Lemma MockProvider2_bounded_bursts_witness :
  exists st,
    inl st ∈ (MockProvider2.sendAll Examples.exact (Examples.envRandom 0)
                [Examples.testMessage; Examples.testMessage;
                 Examples.testMessage; Examples.testMessage]
                (MockProvider2.new (Some 1%Q) None) World0).1.1.
Proof.
  pose proof (MockProvider2_bounded_bursts Examples.exact (Examples.envRandom 0)
                [Examples.testMessage; Examples.testMessage;
                 Examples.testMessage; Examples.testMessage]
                (MockProvider2.new (Some 1%Q) None) World0) as H.
  destruct (MockProvider2.sendAll _ _ _ _ _) as [[rs this'] w'].
  apply H; simpl; lia.
Defined.

(** X15. The first mock provider.  With [Math.random] returning values
    in [[0, 1)] and a rounding that is monotone and leaves [0], [50]
    and [latency] as they are, a [send] draws two random numbers and
    sleeps once, for a delay of at least [latency] and at most
    [latency + 50] as the runtime computes that sum (so at most
    [latency + 50] itself when that number is representable, as 150 is
    for the default latency).  It fails exactly when the second number
    is below [failureRate], with a [PROVIDER_ERROR]; otherwise it
    returns a status [sent] for the message, naming ["MockProvider1"],
    with [attempts = 1].  So with [failureRate <= 0] it never fails and
    with [failureRate >= 1] it always does. *)
Theorem MockProvider1_send_outcome fl env this message w :
  Rounding.monotone fl ->
  Rounding.representable fl 0 ->
  Rounding.representable fl 50 ->
  Rounding.representable fl (MockProvider1.latency this) ->
  (forall n, (0 <= mathRandom env n)%Q /\ (mathRandom env n < 1)%Q) ->
  let '(r, w') := MockProvider1.send fl env this message w in
  let draw := mathRandom env (S (randomDraws w)) in
  randomDraws w' = S (S (randomDraws w))
  /\ (exists delay,
        sleeps w' = sleeps w ++ [delay]
        /\ (MockProvider1.latency this <= delay)%Q
        /\ (delay <= fl (MockProvider1.latency this + 50))%Q
        /\ (Rounding.representable fl (MockProvider1.latency this + 50) ->
            (delay <= MockProvider1.latency this + 50)%Q))
  /\ ((draw < MockProvider1.failureRate this)%Q ->
      r = inr (EmailError "Mock provider 1 failed to send email" PROVIDER_ERROR
                 (Some (PlainError "Simulated failure"))))
  /\ ((MockProvider1.failureRate this <= draw)%Q ->
      r = inl {| messageId := id message; status := SENT;
                 provider := "MockProvider1"; attempts := 1;
                 lastAttempt := dateNow env (dateReads w); error := None |})
  /\ ((MockProvider1.failureRate this <= 0)%Q -> exists st, r = inl st)
  /\ ((1 <= MockProvider1.failureRate this)%Q -> exists e, r = inr e).
Proof.
  unfold Rounding.representable. intros Hmono Hfl0 Hfl50 Hlatency Hrange.
  unfold MockProvider1.send, MockProvider1.simulateLatency.
  destruct w as [clock dates draws uuids log slept handle]. simpl.
  destruct (Hrange draws) as [H0 H1]. destruct (Hrange (S draws)) as [H2 H3].
  pose proof (Hmono 0%Q (mathRandom env draws * 50)%Q ltac:(nra)) as Hlow.
  pose proof (Hmono (mathRandom env draws * 50)%Q 50%Q ltac:(nra)) as Hhigh.
  set (jitter := fl (mathRandom env draws * 50)%Q) in *.
  pose proof (Hmono (MockProvider1.latency this)
                (MockProvider1.latency this + jitter)%Q ltac:(lra)) as Hdown.
  pose proof (Hmono (MockProvider1.latency this + jitter)%Q
                (MockProvider1.latency this + 50)%Q ltac:(lra)) as Hup.
  assert (Hdelay :
            exists delay,
              slept ++ [fl (MockProvider1.latency this + jitter)%Q]
              = slept ++ [delay]
              /\ (MockProvider1.latency this <= delay)%Q
              /\ (delay <= fl (MockProvider1.latency this + 50))%Q
              /\ ((fl (MockProvider1.latency this + 50)
                   == MockProvider1.latency this + 50)%Q ->
                  (delay <= MockProvider1.latency this + 50)%Q)).
  { eexists. split; [reflexivity|]. split; [lra|]. split; [lra|].
    intros Hsum. lra. }
  destruct (Qlt_le_dec (mathRandom env (S draws)) (MockProvider1.failureRate this))
    as [Hlt|Hle]; simpl.
  - split; [reflexivity|]. split; [exact Hdelay|].
    split; [reflexivity|].
    split; [intros Hle; exfalso; lra|].
    split; [intros Hle; exfalso; lra|eauto].
  - split; [reflexivity|]. split; [exact Hdelay|].
    split; [intros Hlt; exfalso; lra|].
    split; [reflexivity|].
    split; [eauto|intros Hge; exfalso; lra].
Qed.

(** The default provider (failure rate 0.2) with [Math.random] stuck at
    0.5 delivers. *)
Lemma MockProvider1_send_outcome_witness :
  (MockProvider1.send Examples.exact (Examples.envRandom 0.5)
     (MockProvider1.new None None) Examples.testMessage World0).1
  = inl {| messageId := "test-123"; status := SENT;
           provider := "MockProvider1"; attempts := 1;
           lastAttempt := 1000; error := None |}.
Proof.
  pose proof (MockProvider1_send_outcome Examples.exact (Examples.envRandom 0.5)
                (MockProvider1.new None None) Examples.testMessage World0) as H.
  destruct (MockProvider1.send _ _ _ _ _) as [r w'].
  destruct H as (_ & _ & _ & Hok & _).
  - intros x y Hxy. exact Hxy.
  - reflexivity.
  - reflexivity.
  - reflexivity.
  - intros n. simpl. split; [discriminate|reflexivity].
  - apply Hok. simpl. discriminate.
Defined.

(** X16. The second mock provider's latency and health check.  With
    [Math.random] returning values in [[0, 1)] and a rounding that is
    monotone and leaves [0], [20] and [latency] as they are, every
    [send] sleeps once, for a delay of at least [latency] and at most
    [latency + 20 + 500] as the runtime computes that sum, each addition
    rounded (so at most [latency + 520] itself when [latency + 20] and
    [latency + 520] are representable, as 220 and 720 are for the
    default latency); without a spike, that is when the second draw is
    at least 0.1, the delay is at most [latency + 20] when that number
    is representable.  And [isAvailable] never throws: it answers [true]
    exactly when the third number drawn is at least 0.05. *)
Theorem MockProvider2_latency_and_health fl env this message w :
  Rounding.monotone fl ->
  Rounding.representable fl 0 ->
  Rounding.representable fl 20 ->
  Rounding.representable fl (MockProvider2.latency this) ->
  (forall n, (0 <= mathRandom env n)%Q /\ (mathRandom env n < 1)%Q) ->
  (exists delay,
      sleeps (MockProvider2.send fl env message this w).2 = sleeps w ++ [delay]
      /\ (MockProvider2.latency this <= delay)%Q
      /\ (delay <= fl (fl (MockProvider2.latency this + 20) + 500))%Q
      /\ ((0.1 <= mathRandom env (S (randomDraws w)))%Q ->
          Rounding.representable fl (MockProvider2.latency this + 20) ->
          (delay <= MockProvider2.latency this + 20)%Q)
      /\ (Rounding.representable fl (MockProvider2.latency this + 20) ->
          Rounding.representable fl (MockProvider2.latency this + 520) ->
          (delay <= MockProvider2.latency this + 520)%Q))
  /\ ((MockProvider2.isAvailable fl env this w).1 = true
      <-> (0.05 <= mathRandom env (S (S (randomDraws w))))%Q).
Proof.
  unfold Rounding.representable. intros Hmono Hfl0 Hfl20 Hlatency Hrange.
  destruct w as [clock dates draws uuids log slept handle].
  destruct (Hrange draws) as [H0 H1].
  split.
  - unfold MockProvider2.send, MockProvider2.simulateLatency. simpl.
    pose proof (Hmono 0%Q (mathRandom env draws * 20)%Q ltac:(nra)) as Hlow.
    pose proof (Hmono (mathRandom env draws * 20)%Q 20%Q ltac:(nra)) as Hhigh.
    set (jitter := fl (mathRandom env draws * 20)%Q) in *.
    pose proof (Hmono (MockProvider2.latency this)
                  (MockProvider2.latency this + jitter)%Q ltac:(lra)) as Hdown.
    pose proof (Hmono (MockProvider2.latency this + jitter)%Q
                  (MockProvider2.latency this + 20)%Q ltac:(lra)) as Hup.
    set (base := fl (MockProvider2.latency this + jitter)%Q) in *.
    set (top := fl (MockProvider2.latency this + 20)%Q) in *.
    exists (fl (base + (if Qlt_le_dec (mathRandom env (S draws)) 0.1
                        then 500 else 0))%Q).
    split.
    + case_bool_decide; [reflexivity|].
      destruct (Qlt_le_dec (mathRandom env (S (S draws)))
                           (MockProvider2.failureRate this)); reflexivity.
    + destruct (Qlt_le_dec (mathRandom env (S draws)) 0.1) as [Hspike|Hcalm].
      * pose proof (Hmono (MockProvider2.latency this) (base + 500)%Q
                      ltac:(lra)) as Hdown2.
        pose proof (Hmono (base + 500)%Q (top + 500)%Q ltac:(lra)) as Hup2.
        split; [lra|]. split; [lra|].
        split; [intros Hge; exfalso; lra|].
        intros Htop Hsum.
        assert (Heq : (top + 500 == MockProvider2.latency this + 520)%Q) by lra.
        pose proof (Hmono (top + 500)%Q (MockProvider2.latency this + 520)%Q
                      ltac:(lra)) as Hle.
        lra.
      * pose proof (Hmono (MockProvider2.latency this) (base + 0)%Q
                      ltac:(lra)) as Hdown2.
        pose proof (Hmono (base + 0)%Q (top + 0)%Q ltac:(lra)) as Hup2.
        pose proof (Hmono (top + 0)%Q (top + 500)%Q ltac:(lra)) as Hup3.
        split; [lra|]. split; [lra|].
        split.
        { intros _ Htop.
          pose proof (Hmono (top + 0)%Q (MockProvider2.latency this + 20)%Q
                        ltac:(lra)) as Hcalm'.
          fold top in Hcalm'. lra. }
        intros Htop Hsum.
        pose proof (Hmono (top + 500)%Q (MockProvider2.latency this + 520)%Q
                      ltac:(lra)) as Hle.
        lra.
  - unfold MockProvider2.isAvailable, BaseEmailProvider.isAvailable,
      MockProvider2.healthCheck, MockProvider2.simulateLatency. simpl.
    destruct (Qlt_le_dec (mathRandom env (S (S draws))) 0.05) as [Hlt|Hle];
      simpl; split; try discriminate; try reflexivity; try tauto.
    intros Hge. exfalso. lra.
Qed.

(** The default second provider with [Math.random] stuck at 0.3 is
    available. *)
Lemma MockProvider2_latency_and_health_witness :
  (MockProvider2.isAvailable Examples.exact (Examples.envRandom 0.3)
     (MockProvider2.new None None) World0).1 = true.
Proof.
  destruct (MockProvider2_latency_and_health Examples.exact
              (Examples.envRandom 0.3)
              (MockProvider2.new None None) Examples.testMessage World0)
    as [_ [_ Havailable]].
  - intros x y Hxy. exact Hxy.
  - reflexivity.
  - reflexivity.
  - reflexivity.
  - intros n. split; [discriminate|reflexivity].
  - apply Havailable. discriminate.
Defined.

(** ** Input validation *)

Section RegexFacts.

Import Regex.

Lemma append_cons c (s1 s2 : string) :
  String c s1 +:+ s2 = String c (s1 +:+ s2).
Proof. reflexivity. Qed.

Lemma append_nil_l (s : string) : "" +:+ s = s.
Proof. reflexivity. Qed.

Lemma append_eq_nil (s1 s2 : string) : s1 +:+ s2 = "" -> s1 = "" /\ s2 = "".
Proof.
  destruct s1; [rewrite append_nil_l; auto|rewrite append_cons; discriminate].
Qed.

Lemma append_eq_cons (s1 s2 : string) c s :
  s1 +:+ s2 = String c s ->
  (s1 = "" /\ s2 = String c s)
  \/ exists s1', s1 = String c s1' /\ s = s1' +:+ s2.
Proof.
  destruct s1 as [|c1 s1]; [rewrite append_nil_l; auto|].
  rewrite append_cons. intros [= -> <-]. right. eauto.
Qed.

Lemma nullable_matches r : nullable r = true <-> matches r "".
Proof.
  split.
  - induction r as [| |p|r1 IH1 r2 IH2|r1 IH1 r2 IH2|r IH]; simpl;
      try discriminate.
    + intros _. constructor.
    + intros [H1 H2]%andb_true_iff.
      apply (matches_seq r1 r2 "" ""); auto.
    + intros [H|H]%orb_true_iff;
        [apply matches_alt_l|apply matches_alt_r]; auto.
    + intros _. constructor.
  - intros H. remember EmptyString as s eqn:Hs.
    induction H as [|p c Hp|r1 r2 s1 s2 H1 IH1 H2 IH2|r1 r2 s H IH|r1 r2 s H IH
                    |r|r s1 s2 H1 IH1 H2 IH2]; simpl; try reflexivity.
    + discriminate.
    + apply append_eq_nil in Hs as [-> ->]. rewrite IH1, IH2; reflexivity.
    + rewrite IH by assumption. reflexivity.
    + rewrite IH by assumption. apply orb_true_r.
Qed.

Lemma deriv_matches c r s : matches (deriv c r) s <-> matches r (String c s).
Proof.
  split.
  - revert s.
    induction r as [| |p|r1 IH1 r2 IH2|r1 IH1 r2 IH2|r IH]; intros s H;
      simpl in H.
    + inversion H.
    + inversion H.
    + destruct (p c) eqn:Hp; inversion H; subst. constructor. exact Hp.
    + destruct (nullable r1) eqn:Hn.
      * inversion H as [| | |? ? ? H'|? ? ? H'| |]; subst.
        -- inversion H' as [| |? ? s1 s2 H1 H2| | | |]; subst.
           apply (matches_seq r1 r2 (String c s1) s2); auto.
        -- apply (matches_seq r1 r2 "" (String c s)); [|auto].
           apply nullable_matches. exact Hn.
      * inversion H as [| |? ? s1 s2 H1 H2| | | |]; subst.
        apply (matches_seq r1 r2 (String c s1) s2); auto.
    + inversion H; subst; [apply matches_alt_l|apply matches_alt_r]; auto.
    + inversion H as [| |? ? s1 s2 H1 H2| | | |]; subst.
      apply (matches_star_app r (String c s1) s2); auto.
  - intros H. remember (String c s) as s' eqn:Hs. revert s Hs.
    induction H as [|p c0 Hp|r1 r2 s1 s2 H1 IH1 H2 IH2|r1 r2 s0 H IH|r1 r2 s0 H IH
                    |r|r s1 s2 H1 IH1 H2 IH2]; intros s Hs; simpl.
    + discriminate.
    + injection Hs as -> <-. rewrite Hp. constructor.
    + apply append_eq_cons in Hs as [[-> ->]|(s1' & -> & ->)].
      * rewrite (proj2 (nullable_matches r1) H1).
        apply matches_alt_r. apply IH2. reflexivity.
      * destruct (nullable r1); [apply matches_alt_l|];
          apply matches_seq; auto.
    + apply matches_alt_l. auto.
    + apply matches_alt_r. auto.
    + discriminate.
    + apply append_eq_cons in Hs as [[-> ->]|(s1' & -> & ->)].
      * apply IH2. reflexivity.
      * apply matches_seq; auto.
Qed.

(** The matcher by derivatives decides the denotation. *)
Lemma test_matches r s : test r s = true <-> matches r s.
Proof.
  revert r. induction s as [|c s IH]; intros r; simpl.
  - apply nullable_matches.
  - rewrite IH. apply deriv_matches.
Qed.

Lemma matches_seq_inv r1 r2 s :
  matches (Seq r1 r2) s
  <-> exists s1 s2, s = s1 +:+ s2 /\ matches r1 s1 /\ matches r2 s2.
Proof.
  split.
  - intros H. inversion H; subst. eauto.
  - intros (s1 & s2 & -> & H1 & H2). constructor; assumption.
Qed.

Lemma matches_class_inv p s :
  matches (Class p) s <-> exists c, s = String c "" /\ p c = true.
Proof.
  split.
  - intros H. inversion H; subst. eauto.
  - intros (c & -> & Hp). constructor. exact Hp.
Qed.

Lemma matches_star_class p s :
  matches (Star (Class p)) s <-> allChars p s = true.
Proof.
  split.
  - intros H. remember (Star (Class p)) as r eqn:Hr.
    induction H as [| | | | |r0|r0 s1 s2 H1 _ H2 IH2]; try discriminate.
    + reflexivity.
    + injection Hr as ->. inversion H1 as [|? c Hp| | | | |]; subst.
      rewrite append_cons, append_nil_l. simpl.
      rewrite IH2 by reflexivity. rewrite Hp. reflexivity.
  - induction s as [|c s IH]; simpl.
    + intros _. constructor.
    + intros [Hp Hs]%andb_true_iff.
      apply (matches_star_app (Class p) (String c "") s); [|auto].
      constructor. exact Hp.
Qed.

Lemma matches_plus_class p s :
  matches (Plus (Class p)) s <-> s <> "" /\ allChars p s = true.
Proof.
  unfold Plus. rewrite matches_seq_inv. split.
  - intros (s1 & s2 & -> & H1 & H2).
    apply matches_class_inv in H1 as (c & -> & Hp).
    apply matches_star_class in H2. rewrite append_cons, append_nil_l.
    simpl. rewrite Hp, H2. split; [discriminate|reflexivity].
  - intros [Hne Hall]. destruct s as [|c s]; [contradiction|].
    simpl in Hall. apply andb_true_iff in Hall as [Hp Hs].
    exists (String c ""), s. split; [reflexivity|].
    split; [constructor; exact Hp|apply matches_star_class; exact Hs].
Qed.

Lemma matches_atLeast2_class p s :
  matches (AtLeast2 (Class p)) s
  <-> (2 <= String.length s)%nat /\ allChars p s = true.
Proof.
  unfold AtLeast2. rewrite matches_seq_inv. split.
  - intros (s1 & s2 & -> & H1 & H2).
    apply matches_class_inv in H1 as (c & -> & Hp).
    apply matches_seq_inv in H2 as (s3 & s4 & -> & H3 & H4).
    apply matches_class_inv in H3 as (c' & -> & Hp').
    apply matches_star_class in H4.
    rewrite !append_cons, !append_nil_l. simpl. rewrite Hp, Hp', H4.
    split; [lia|reflexivity].
  - intros [Hlen Hall].
    destruct s as [|c [|c' s]]; simpl in Hlen; try lia.
    simpl in Hall.
    apply andb_true_iff in Hall as [Hp Hall].
    apply andb_true_iff in Hall as [Hp' Hs].
    exists (String c ""), (String c' s). split; [reflexivity|].
    split; [constructor; exact Hp|].
    apply matches_seq_inv. exists (String c' ""), s. split; [reflexivity|].
    split; [constructor; exact Hp'|apply matches_star_class; exact Hs].
Qed.

End RegexFacts.

(** X17. What [EMAIL_REGEX] accepts: exactly the strings
    [local@domain.tld] where [local] is a non-empty run of letters,
    digits and [._%+-], [domain] a non-empty run of letters, digits,
    dots and hyphens, and [tld] at least two letters. *)
Theorem email_regex_accepts s :
  Regex.test EMAIL_REGEX s = true
  <-> exists local domain tld,
        s = local +:+ "@" +:+ domain +:+ "." +:+ tld
        /\ local <> ""
        /\ Regex.allChars
             (fun c => Regex.alnum c || Regex.oneOf "._%+-" c) local = true
        /\ domain <> ""
        /\ Regex.allChars
             (fun c => Regex.alnum c || Regex.oneOf ".-" c) domain = true
        /\ (2 <= String.length tld)%nat
        /\ Regex.allChars Regex.alpha tld = true.
Proof.
  rewrite test_matches. unfold EMAIL_REGEX.
  rewrite matches_seq_inv. split.
  - intros (local & s2 & -> & Hlocal & H2).
    apply matches_plus_class in Hlocal as [Hl1 Hl2].
    apply matches_seq_inv in H2 as (at_ & s3 & -> & Hat & H3).
    apply matches_class_inv in Hat as (c & -> & Hc).
    apply Ascii.eqb_eq in Hc as <-.
    apply matches_seq_inv in H3 as (domain & s4 & -> & Hdomain & H4).
    apply matches_plus_class in Hdomain as [Hd1 Hd2].
    apply matches_seq_inv in H4 as (dot & tld & -> & Hdot & Htld).
    apply matches_class_inv in Hdot as (c & -> & Hc).
    apply Ascii.eqb_eq in Hc as <-.
    apply matches_atLeast2_class in Htld as [Ht1 Ht2].
    exists local, domain, tld. split_and!; try assumption. reflexivity.
  - intros (local & domain & tld & -> & Hl1 & Hl2 & Hd1 & Hd2 & Ht1 & Ht2).
    exists local, ("@" +:+ domain +:+ "." +:+ tld). split; [reflexivity|].
    split; [apply matches_plus_class; auto|].
    apply matches_seq_inv. exists "@", (domain +:+ "." +:+ tld).
    split; [reflexivity|]. split; [constructor; reflexivity|].
    apply matches_seq_inv. exists domain, ("." +:+ tld).
    split; [reflexivity|]. split; [apply matches_plus_class; auto|].
    apply matches_seq_inv. exists ".", tld.
    split; [reflexivity|]. split; [constructor; reflexivity|].
    apply matches_atLeast2_class. auto.
Qed.

(** The address of the test suite. *)
Lemma email_regex_accepts_witness :
  Regex.test EMAIL_REGEX "test@example.com" = true.
Proof.
  apply email_regex_accepts. exists "test", "example", "com".
  split_and!; try reflexivity; try discriminate. simpl. lia.
Defined.

(** X18. [validateEmailInput] lets a submission through exactly when
    both addresses match [EMAIL_REGEX], the subject has at most 78
    characters and the body at most 1000000; every error it throws has
    the code [INVALID_CONFIG], and a bad address is reported before a
    subject or body that is too long. *)
Theorem validateEmailInput_accepts to from subject body :
  (EmailService.validateEmailInput to from subject body = None
   <-> Regex.test EMAIL_REGEX to = true
       /\ Regex.test EMAIL_REGEX from = true
       /\ Z.of_nat (String.length subject) <= 78
       /\ Z.of_nat (String.length body) <= 1000000)
  /\ (forall e,
        EmailService.validateEmailInput to from subject body = Some e ->
        errorCode e = Some INVALID_CONFIG)
  /\ (Regex.test EMAIL_REGEX to = false \/ Regex.test EMAIL_REGEX from = false ->
      EmailService.validateEmailInput to from subject body
      = Some (EmailError "Invalid email address format" INVALID_CONFIG None)).
Proof.
  split; [|split].
  - unfold EmailService.validateEmailInput, VALIDATION.MAX_SUBJECT_LENGTH,
      VALIDATION.MAX_BODY_LENGTH.
    destruct (Regex.test EMAIL_REGEX to), (Regex.test EMAIL_REGEX from);
      cbn [negb orb].
    + case_bool_decide as Hs; [split; [discriminate|intros (_ & _ & ? & ?); lia]|].
      case_bool_decide as Hb; [split; [discriminate|intros (_ & _ & ? & ?); lia]|].
      split; [intros _; split_and!; try reflexivity; lia|reflexivity].
    + split; [discriminate|intros (_ & ? & _); discriminate].
    + split; [discriminate|intros (? & _); discriminate].
    + split; [discriminate|intros (? & _); discriminate].
  - intros e. apply validateEmailInput_error_code.
  - unfold EmailService.validateEmailInput.
    intros [-> | ->]; cbn [negb orb]; [reflexivity|].
    rewrite orb_true_r. reflexivity.
Qed.

(** The input of the test suite is let through. *)
Lemma validateEmailInput_accepts_witness :
  EmailService.validateEmailInput "test@example.com" "sender@example.com"
    "Test Subject" "Test Body" = None.
Proof.
  apply (proj1 (validateEmailInput_accepts "test@example.com"
                  "sender@example.com" "Test Subject" "Test Body")).
  split_and!; try reflexivity; simpl; lia.
Defined.

(** ** More on the rate limiter and on delivery *)

(** X19. Purging is cumulative: with a clock that does not run
    backwards, a purge at a later time after a purge at an earlier time
    leaves what the later purge alone would have left; in particular
    purging twice at the same time changes nothing more. *)
Theorem later_purge_subsumes_earlier now1 now2 rl :
  now1 <= now2 ->
  RateLimiter.cleanupOldRequests now2 (RateLimiter.cleanupOldRequests now1 rl)
  = RateLimiter.cleanupOldRequests now2 rl.
Proof.
  intros Hle.
  unfold RateLimiter.cleanupOldRequests, RateLimiter.setTimestamps,
    RateLimiter.inWindow.
  simpl. f_equal.
  rewrite list_filter_filter. apply list_filter_iff. intros t. lia.
Qed.

(** Stamps 0, 500 and 900, [timeWindow = 1000]: purging at 1200 and then
    at 1450 leaves [[500; 900]], as purging at 1450 does. *)
Lemma later_purge_subsumes_earlier_witness :
  RateLimiter.requestTimestamps
    (RateLimiter.cleanupOldRequests 1450
       (RateLimiter.cleanupOldRequests 1200
          (RateLimiter.setTimestamps [0; 500; 900] (RateLimiter.new 10 1000))))
  = [500; 900].
Proof.
  rewrite later_purge_subsumes_earlier by lia. reflexivity.
Defined.

(** X20. [getCurrentRateLimit] on a service whose limiter has
    [maxRequests = N >= 1]: [current] lies between 0 and [N]; the field
    called [max] is not the limit but the time to wait, never negative,
    and 0 whenever [current] is below the limit, in which case
    [Date.now] is not even read. *)
Theorem rate_limit_info N W env this w :
  1 <= N ->
  RateLimiter.reachable N W (EmailService.rateLimiter this) ->
  let '(info, w') := EmailService.getCurrentRateLimit env this w in
  0 <= EmailService.current info <= N
  /\ 0 <= EmailService.max info
  /\ (EmailService.current info < N -> EmailService.max info = 0 /\ w' = w).
Proof.
  intros HN Hr.
  destruct (limiter_config _ _ _ Hr) as [HmaxN _].
  pose proof (limiter_bound N W _ HN Hr) as Hb.
  unfold EmailService.getCurrentRateLimit, RateLimiter.getCurrentRequestCount,
    RateLimiter.getTimeUntilNextAvailable.
  rewrite HmaxN.
  case_bool_decide as Hunder; simpl.
  - split; [lia|]. split; [lia|]. auto.
  - destruct (RateLimiter.requestTimestamps (EmailService.rateLimiter this));
    simpl in *; split_and!; try lia.
Qed.

(** A fresh service with the default limiter (10 per second) reports
    [current = 0] and [max = 0]. *)
Lemma rate_limit_info_witness :
  exists this,
    EmailService.new
      (Examples.configOf [Examples.healthyProvider "MockProvider1"] None None)
    = inr this
    /\ EmailService.max
         (EmailService.getCurrentRateLimit (Examples.envAt 1000) this World0).1
       = 0.
Proof.
  eexists. split; [reflexivity|].
  match goal with
  | |- EmailService.max (EmailService.getCurrentRateLimit ?env ?this ?w).1 = 0 =>
      pose proof (rate_limit_info 10 1000 env this w) as H;
      destruct (EmailService.getCurrentRateLimit env this w) as [info w'] eqn:Hinfo
  end.
  destruct H as (_ & _ & Hzero); [lia|apply RateLimiter.reach_new|].
  apply Hzero. vm_compute in Hinfo. injection Hinfo as <- _. simpl. lia.
Defined.

Section Delivered.

Import EmailService.

Variable env : Env.
Variable message : EmailMessage.

(** A status comes from a provider that was called last and returned
    it; the loop only overwrites [attempts] and [lastAttempt]. *)
Lemma forProviders_delivered attempt ps fs this w st this' w' :
  forProviders env message attempt ps fs this w = (inl st, this', w') ->
  exists p st0 log,
    p ∈ ps
    /\ sendLog w' = log ++ [(name p, id message)]
    /\ send p (length log) message = inl st0
    /\ messageId st = messageId st0 /\ status st = status st0
    /\ provider st = provider st0 /\ error st = error st0.
Proof.
  revert fs this w.
  induction ps as [|p ps IH]; intros fs this w H; simpl in H; [discriminate|].
  assert (Hrest : forall fs0 this0 w0,
             forProviders env message attempt ps fs0 this0 w0 = (inl st, this', w') ->
             exists p0 st0 log,
               p0 ∈ p :: ps
               /\ sendLog w' = log ++ [(name p0, id message)]
               /\ send p0 (length log) message = inl st0
               /\ messageId st = messageId st0 /\ status st = status st0
               /\ provider st = provider st0 /\ error st = error st0).
  { intros fs0 this0 w0 H0.
    destruct (IH _ _ _ H0) as (p0 & st0 & log & Hin & Hrest).
    exists p0, st0, log. split; [right; exact Hin|exact Hrest]. }
  destruct (circuitBreakers this !! name p) as [cb|]; [|eauto].
  case_bool_decide as Hopen; [eauto|].
  rewrite execute_not_open in H by exact Hopen.
  unfold CircuitBreaker.attempt, providerSend in H.
  destruct (send p (length (sendLog w)) message) as [st0|e] eqn:Hsend;
    simpl in H; [|eauto].
  injection H as <- _ <-.
  exists p, st0, (sendLog w). simpl. split_and!; try reflexivity; [left|exact Hsend].
Qed.

Lemma whileAttempts_delivered fuel attempts0 fs this w st this' w' :
  whileAttempts env message fuel attempts0 fs this w = (inl st, this', w') ->
  exists p st0 log,
    p ∈ providers this
    /\ sendLog w' = log ++ [(name p, id message)]
    /\ send p (length log) message = inl st0
    /\ messageId st = messageId st0 /\ status st = status st0
    /\ provider st = provider st0 /\ error st = error st0.
Proof.
  revert attempts0 fs this w.
  induction fuel as [|fuel IH]; intros attempts0 fs this w H;
    cbn [whileAttempts] in H; [discriminate|].
  case_bool_decide; [|discriminate].
  destruct (drawRandom env w) as [random w0].
  destruct (forProviders env message (attempts0 + 1) (providers this) fs this w0)
    as [[[st1|fs1] this1] w1] eqn:Hfor.
  - injection H as <- <- <-. eapply forProviders_delivered, Hfor.
  - apply forProviders_frame in Hfor as ((_ & Hps & _) & _).
    apply IH in H. rewrite Hps in H. exact H.
Qed.

End Delivered.

(** X21. A promise that resolves stands for a real delivery.  When a
    submission to an idle service resolves with a status, the last
    [send] the service made was to one of its configured providers, for
    the message with the minted id, and that provider returned a status;
    the resolved status is the provider's, with only [attempts] and
    [lastAttempt] set by the service. *)
Theorem resolved_means_delivered env to from subject body metadata this w st this' w' :
  EmailService.queue this
  = Queue.new (Queue.maxAttempts (EmailService.queue this)) ->
  EmailService.sendEmail env to from subject body metadata this w
  = (EmailService.Resolved st, this', w') ->
  exists p st0 log,
    p ∈ EmailService.providers this
    /\ sendLog w' = log ++ [(EmailService.name p, uuidv4 env (uuidCalls w))]
    /\ EmailService.send p (length log)
         {| id := uuidv4 env (uuidCalls w); to := to; from := from;
            subject := subject; body := body; metadata := metadata |}
       = inl st0
    /\ messageId st = messageId st0 /\ status st = status st0
    /\ provider st = provider st0 /\ error st = error st0.
Proof.
  intros Hidle Hsend.
  destruct (EmailService.validateEmailInput to from subject body) as [e|] eqn:Hvalid.
  { unfold EmailService.sendEmail in Hsend. rewrite Hvalid in Hsend.
    discriminate. }
  destruct (decide (uuidv4 env (uuidCalls w) ∈ EmailService.sentMessageIds this))
    as [Hin|Hfresh].
  { unfold EmailService.sendEmail in Hsend. rewrite Hvalid in Hsend.
    simpl in Hsend. rewrite bool_decide_eq_true_2 in Hsend by exact Hin.
    discriminate. }
  pose proof (sendEmail_idle env to from subject body metadata this w
                Hidle Hvalid Hfresh) as Hsend'.
  cbv zeta in Hsend'.
  match type of Hsend' with
  | context [EmailService.processEmail env ?msg ?s ?w3] =>
      destruct (EmailService.processEmail env msg s w3)
        as [[outcome thisA] wA] eqn:Hp
  end.
  rewrite Hsend' in Hsend.
  destruct outcome as [st1|e]; [|case_bool_decide; discriminate].
  unfold EmailService.recordSuccess, readDate in Hsend.
  injection Hsend as <- _ <-. cbn [sendLog].
  unfold EmailService.processEmail in Hp.
  match type of Hp with
  | context [readClock env ?w3] => destruct (readClock env w3) as [now w1]
  end.
  match type of Hp with
  | context [RateLimiter.acquire ?n ?rl] =>
      destruct (RateLimiter.acquire n rl) as [[[]|e0] rl1]
  end.
  2:{ case_bool_decide; discriminate. }
  match type of Hp with
  | context [EmailService.whileAttempts env ?m ?f ?a ?fs ?s ?w0] =>
      destruct (EmailService.whileAttempts env m f a fs s w0)
        as [[[st2|[attempts1 fs1]] thisB] wB] eqn:Hloop;
      [|discriminate]
  end.
  injection Hp as <- _ <-.
  apply whileAttempts_delivered in Hloop. exact Hloop.
Qed.

(** A healthy backend: the resolved status is the one the backend
    returned for ["test-123"]. *)
Lemma resolved_means_delivered_witness :
  exists this,
    EmailService.new
      (Examples.configOf [Examples.healthyProvider "MockProvider1"] None None)
    = inr this
    /\ exists p log,
        p ∈ EmailService.providers this
        /\ sendLog (Examples.submit (Examples.envAt 1000) this World0).2
           = log ++ [(EmailService.name p, "test-123")].
Proof.
  eexists. split; [reflexivity|].
  match goal with
  | |- context [Examples.submit ?env ?this World0] =>
      set (r := Examples.submit env this World0);
      assert (Hr : EmailService.sendEmail env (to Examples.testMessage)
                     (from Examples.testMessage) (subject Examples.testMessage)
                     (body Examples.testMessage) None this World0
                   = (EmailService.Resolved
                        (Examples.sentStatus "MockProvider1" Examples.testMessage),
                      r.1.2, r.2))
        by (vm_compute; reflexivity);
      destruct (resolved_means_delivered env _ _ _ _ None this World0 _ _ _
                  eq_refl Hr) as (p & st0 & log & Hin & Hlog & _)
  end.
  exists p, log. split; [exact Hin|exact Hlog].
Defined.
